(** * sra_fetch: a shallow embedding of [scripts/sra_fetch.py]

    The script downloads sequencing runs by accession: it validates and
    deduplicates the accessions, and for each one runs [prefetch] and
    [fasterq-dump] as sub-processes, cleans up and writes one record to
    a tab-separated log.

    Python values are modelled as follows.
    - A [str] is a list of Unicode code points ([N]); [py "..."] embeds
      an ASCII literal.
    - Code with effects runs in a monad [M] of state, exceptions and
      resumptions over a [World]: a path-addressed store, the console,
      the sub-processes started and the appends made to files.  A
      computation yields after each call to the operating system, so
      that the worker threads of the pool take their steps in turn.
    - What lies outside the script is a parameter: the Unicode character
      database ([UCD]) and the operating system with its external tools
      ([Env]). *)

From Stdlib Require Import ZArith NArith String Ascii Decimal.
From stdpp Require Import base decidable option list gmap sets.

#[local] Set Warnings "-clear-no-such-hyp".

Local Open Scope N_scope.

(** ** Strings *)

Abbreviation char := N (only parsing).
Abbreviation str := (list N) (only parsing).

Definition py (s : string) : str :=
  map N_of_ascii (list_ascii_of_string s).
Arguments py : simpl never.

Definition LF : N := 10.
Definition TAB : N := 9.
Definition SLASH : N := 47.
Definition HASH : N := 35.

(** [sep.join(parts)] *)
Fixpoint join (sep : str) (parts : list str) : str :=
  match parts with
  | [] => []
  | [p] => p
  | p :: rest => p ++ sep ++ join sep rest
  end.

(** [s.replace(a, b)] for a one-character [a] *)
Definition replace_char (a : N) (b : str) (s : str) : str :=
  concat (map (fun c => if N.eqb c a then b else [c]) s).

(** [s.split(sep)] for a one-character separator: the pieces between
    the separators, always at least one *)
Fixpoint split_on (sep : N) (cur : str) (s : str) : list str :=
  match s with
  | [] => [rev cur]
  | c :: s' =>
      if N.eqb c sep then rev cur :: split_on sep [] s'
      else split_on sep (c :: cur) s'
  end.

(** [str(n)] for an int *)
Fixpoint uint_digits (d : Decimal.uint) : str :=
  match d with
  | Nil => []
  | D0 d => 48 :: uint_digits d
  | D1 d => 49 :: uint_digits d
  | D2 d => 50 :: uint_digits d
  | D3 d => 51 :: uint_digits d
  | D4 d => 52 :: uint_digits d
  | D5 d => 53 :: uint_digits d
  | D6 d => 54 :: uint_digits d
  | D7 d => 55 :: uint_digits d
  | D8 d => 56 :: uint_digits d
  | D9 d => 57 :: uint_digits d
  end.

Definition str_of_nat (n : nat) : str := uint_digits (Nat.to_uint n).

Definition str_of_int (z : Z) : str :=
  match Z.to_int z with
  | Decimal.Pos d => uint_digits d
  | Decimal.Neg d => 45 :: uint_digits d
  end.

(** ** The Unicode character database

    [str.strip], [str.split], [str.upper] and the class [\d] of [re]
    consult Python's character tables.  The tables are not part of the
    script; the only fact used about them is that among the ASCII
    characters the decimal digits are [0-9]. *)

Record UCD := {
  isspace : N -> bool;
  isdecimal : N -> bool;
  upper_of : N -> str;
  isdecimal_ascii :
    forall c, c < 128 -> isdecimal c = (48 <=? c) && (c <=? 57)
}.

Section Text.
Context (U : UCD).

Fixpoint lstrip (s : str) : str :=
  match s with
  | c :: s' => if isspace U c then lstrip s' else s
  | [] => []
  end.

Definition rstrip (s : str) : str := rev (lstrip (rev s)).

(** [s.strip()] *)
Definition strip (s : str) : str := rstrip (lstrip s).

(** [s.upper()] *)
Definition upper (s : str) : str := concat (map (upper_of U) s).

(** [s.split()]: the maximal runs of non-whitespace characters *)
Fixpoint split_ws (cur : str) (s : str) : list str :=
  match s with
  | [] => match cur with [] => [] | _ => [rev cur] end
  | c :: s' =>
      if isspace U c
      then match cur with
           | [] => split_ws [] s'
           | _ => rev cur :: split_ws [] s'
           end
      else split_ws (c :: cur) s'
  end.

End Text.

(** ** Regular expressions, as far as [validate_accessions] needs them *)

Inductive regex :=
| Void
| Eps
| Lit (c : N)
| Class (p : N -> bool)
| Cat (r1 r2 : regex)
| Alt (r1 r2 : regex)
| Star (r : regex).

Fixpoint nullable (r : regex) : bool :=
  match r with
  | Void => false
  | Eps => true
  | Lit _ => false
  | Class _ => false
  | Cat r1 r2 => nullable r1 && nullable r2
  | Alt r1 r2 => nullable r1 || nullable r2
  | Star _ => true
  end.

Fixpoint deriv (c : N) (r : regex) : regex :=
  match r with
  | Void => Void
  | Eps => Void
  | Lit d => if N.eqb c d then Eps else Void
  | Class p => if p c then Eps else Void
  | Cat r1 r2 =>
      if nullable r1
      then Alt (Cat (deriv c r1) r2) (deriv c r2)
      else Cat (deriv c r1) r2
  | Alt r1 r2 => Alt (deriv c r1) (deriv c r2)
  | Star r1 => Cat (deriv c r1) (Star r1)
  end.

(** [re.fullmatch(r, s) is not None] *)
Fixpoint fullmatch (r : regex) (s : str) : bool :=
  match s with
  | [] => nullable r
  | c :: s' => fullmatch (deriv c r) s'
  end.

Fixpoint word (s : str) : regex :=
  match s with
  | [] => Eps
  | c :: s' => Cat (Lit c) (word s')
  end.

Definition plus (r : regex) : regex := Cat r (Star r).

(** The words a regular expression denotes *)
Inductive matches : regex -> str -> Prop :=
| m_eps : matches Eps []
| m_lit c : matches (Lit c) [c]
| m_class (p : N -> bool) c : p c = true -> matches (Class p) [c]
| m_cat r1 r2 s1 s2 :
    matches r1 s1 -> matches r2 s2 -> matches (Cat r1 r2) (s1 ++ s2)
| m_alt_l r1 r2 s : matches r1 s -> matches (Alt r1 r2) s
| m_alt_r r1 r2 s : matches r2 s -> matches (Alt r1 r2) s
| m_star_nil r : matches (Star r) []
| m_star_app r s1 s2 :
    matches r s1 -> matches (Star r) s2 -> matches (Star r) (s1 ++ s2).

Section Validator.
Context (U : UCD).

(** [r"(SRR|ERR|DRR)\d+"] *)
Definition accession_re : regex :=
  Cat (Alt (word (py "SRR")) (Alt (word (py "ERR")) (word (py "DRR"))))
      (plus (Class (isdecimal U))).

Definition validate_accessions (acc : str) : bool :=
  fullmatch accession_re acc.

(** The test that [main] applies to a raw token:
    [acc = acc.strip().upper()], then [validate_accessions(acc)]. *)
Definition normalize (raw : str) : str := upper U (strip U raw).

Definition accepts (raw : str) : bool := validate_accessions (normalize raw).

End Validator.

(** ** dedup_preserve_order *)

Fixpoint dedup_loop (items : list str) (seen : gset str) (out : list str)
  : list str :=
  match items with
  | [] => out
  | item :: rest =>
      if decide (item ∈ seen)
      then dedup_loop rest seen out
      else dedup_loop rest ({[item]} ∪ seen) (out ++ [item])
  end.

Definition dedup_preserve_order (items : list str) : list str :=
  dedup_loop items ∅ [].

(** ** Exceptions

    Only subclasses of [Exception] occur: the primitives the script calls
    raise [OSError]s, the script itself raises [RuntimeError] and
    [FileNotFoundError], and [ThreadPoolExecutor] raises [ValueError]
    for a number of workers that is not positive.  [exn_msg] is what
    [str(e)] returns. *)

Inductive exn_class :=
| FileNotFoundError
| FileExistsError
| IsADirectoryError
| NotADirectoryError
| RuntimeError
| OSError
| ValueError.

Record exn := mkExn { exn_class_of : exn_class; exn_msg : str }.

Inductive result (A : Type) :=
| Ok (a : A)
| Raise (e : exn).
Arguments Ok {A} a.
Arguments Raise {A} e.

(** ** The world *)

Inductive node :=
| File (content : str)
| Dir.

(** The store is addressed by the path as the script writes it; paths
    are not normalised. *)
Record World := mkWorld {
  fs : gmap str node;            (* the path-addressed store *)
  console : list str;            (* the lines printed so far *)
  spawned : list (list str);     (* argv of every sub-process started *)
  appended : list (str * str);   (* (path, text) of every append made *)
  ticks : nat                    (* how often the clock was read *)
}.

Definition set_fs (m : gmap str node) (w : World) : World :=
  mkWorld m (console w) (spawned w) (appended w) (ticks w).

Record CompletedProcess := mkProc {
  returncode : Z;
  stdout : str;
  stderr : str
}.

Record datetime := mkDate {
  year : N; month : N; day : N; hour : N; minute : N; second : N
}.

(** The filesystem calls that may fail for reasons the store does not
    show (permissions, quota, a parent that is not a directory, ...). *)
Inductive syscall :=
| SysStat (p : str)
| SysMkdir (p : str)
| SysAppend (p : str)
| SysRmtree (p : str).

(** The operating system: what the external tools do, which filesystem
    calls fail, the local time, and the size reported for a directory. *)
Record Env := {
  tool : list str -> World -> result CompletedProcess * gmap str node;
  fault : syscall -> World -> option exn;
  clock : nat -> datetime;
  dir_size : N
}.

(** ** The monad of effects

    A computation takes the world and either is done, with a value or an
    exception and the world it leaves, or has made one call and yields:
    it leaves a world and waits to be resumed with the world as it is
    by then.  Between a yield and the resumption other threads may have
    run.  [run] resumes a computation at once, with the world it left:
    this is the computation running alone. *)

Inductive Res (A : Type) : Type :=
| Done (r : result A) (w : World)
| Yield (w : World) (k : World -> Res A).
Arguments Done {A} r w.
Arguments Yield {A} w k.

Definition M (A : Type) : Type := World -> Res A.

Definition ret {A} (a : A) : M A := fun w => Done (Ok a) w.

Definition raise {A} (e : exn) : M A := fun w => Done (Raise e) w.

Fixpoint bind_res {A B} (r : Res A) (k : A -> M B) : Res B :=
  match r with
  | Done (Ok a) w => k a w
  | Done (Raise e) w => Done (Raise e) w
  | Yield w c => Yield w (fun w' => bind_res (c w') k)
  end.

Definition bind {A B} (m : M A) (k : A -> M B) : M B :=
  fun w => bind_res (m w) k.

Fixpoint try_res {A} (r : Res A) (h : exn -> M A) : Res A :=
  match r with
  | Done (Ok a) w => Done (Ok a) w
  | Done (Raise e) w => h e w
  | Yield w c => Yield w (fun w' => try_res (c w') h)
  end.

(** [try: m except Exception as e: h e]; what [m] did to the world
    before it raised stays done. *)
Definition try_except {A} (m : M A) (h : exn -> M A) : M A :=
  fun w => try_res (m w) h.

(** One call to the operating system: it acts on the world at once,
    then the thread yields. *)
Definition atomic {A} (step : World -> result A * World) : M A :=
  fun w => let '(r, w') := step w in Yield w' (fun w'' => Done r w'').

Fixpoint run_res {A} (r : Res A) : result A * World :=
  match r with
  | Done r w => (r, w)
  | Yield w k => run_res (k w)
  end.

Definition run {A} (m : M A) (w : World) : result A * World :=
  run_res (m w).

Declare Scope py_scope.
Delimit Scope py_scope with py.
Notation "x <- m ;; k" := (bind m (fun x => k))
  (at level 100, m at next level, right associativity) : py_scope.
Notation "m ;;; k" := (bind m (fun _ => k))
  (at level 100, right associativity) : py_scope.
Local Open Scope py_scope.

(** ** Primitives *)

Definition print (line : str) : M unit :=
  atomic (fun w =>
    (Ok tt,
     mkWorld (fs w) (console w ++ [line]) (spawned w) (appended w)
             (ticks w))).

Definition utf8_len (s : str) : N :=
  fold_right (fun c n =>
    (if c <? 128 then 1 else if c <? 2048 then 2
     else if c <? 65536 then 3 else 4) + n) 0 s.

Definition quoted (p : str) : str := py "'" ++ p ++ py "'".

Definition digit (n : N) : N := 48 + n mod 10.
Definition pad2 (n : N) : str := [digit (n / 10); digit n].
Definition pad4 (n : N) : str :=
  [digit (n / 1000); digit (n / 100); digit (n / 10); digit n].

(** [d.strftime("%Y-%m-%d %H:%M:%S")] *)
Definition strftime (d : datetime) : str :=
  pad4 (year d) ++ py "-" ++ pad2 (month d) ++ py "-" ++ pad2 (day d)
  ++ py " " ++ pad2 (hour d) ++ py ":" ++ pad2 (minute d) ++ py ":"
  ++ pad2 (second d).

(** [pathlib]: [str(Path(p).parent)] *)
Definition path_root (p : str) : str :=
  match p with
  | 47 :: 47 :: 47 :: _ => py "/"
  | 47 :: 47 :: _ => py "//"
  | 47 :: _ => py "/"
  | _ => []
  end.

Definition path_parts (p : str) : list str :=
  filter (fun c => c <> [] /\ c <> py ".") (split_on SLASH [] p).

Definition path_str (root : str) (parts : list str) : str :=
  match root ++ join (py "/") parts with
  | [] => py "."
  | s => s
  end.

Definition path_parent (p : str) : str :=
  path_str (path_root p) (removelast (path_parts p)).

(** The directories above [p]: [p] cut before each separator that
    follows a name, the shortest first.  Neither the root nor [p]
    itself is among them. *)
Fixpoint above_from (seen rest : str) : list str :=
  match rest with
  | [] => []
  | c :: rest' =>
      (if bool_decide (c = SLASH /\ seen <> [] /\ last seen <> Some SLASH)
       then [seen] else [])
      ++ above_from (seen ++ [c]) rest'
  end.

Definition above (p : str) : list str := above_from [] p.

(** The first name of the chain that lies below a regular file *)
Fixpoint blocked (m : gmap str node) (chain : list str) : option str :=
  match chain with
  | a :: rest =>
      match m !! a, rest with
      | Some (File _), b :: _ => Some b
      | _, _ => blocked m rest
      end
  | [] => None
  end.

(** A directory is made where the store holds nothing *)
Definition make_dir (m : gmap str node) (a : str) : gmap str node :=
  match m !! a with
  | Some _ => m
  | None => <[a := Dir]> m
  end.

Section OS.
Context (E : Env).

(** [datetime.now()] *)
Definition now : M datetime :=
  atomic (fun w =>
    (Ok (clock E (ticks w)),
     mkWorld (fs w) (console w) (spawned w) (appended w) (S (ticks w)))).

(** [os.path.exists(p)]: never raises *)
Definition os_path_exists (p : str) : M bool :=
  atomic (fun w => (Ok (bool_decide (is_Some (fs w !! p))), w)).

(** [os.path.getsize(p)] *)
Definition os_path_getsize (p : str) : M N :=
  atomic (fun w =>
    match fault E (SysStat p) w with
    | Some e => (Raise e, w)
    | None =>
        match fs w !! p with
        | Some (File c) => (Ok (utf8_len c), w)
        | Some Dir => (Ok (dir_size E), w)
        | None =>
            (Raise (mkExn FileNotFoundError
                      (py "[Errno 2] No such file or directory: "
                       ++ quoted p)), w)
        end
    end).

(** [os.makedirs(p, exist_ok=True)] and
    [Path(p).mkdir(parents=True, exist_ok=True)]: the directory [p] is
    made together with every directory above it that is missing.  A
    regular file at [p] gives [FileExistsError].  A regular file above
    [p] gives [NotADirectoryError]: [os.makedirs] raises it from the
    [mkdir] of the first name below that file, [Path.mkdir] from the
    [mkdir] of [p] itself, which is what [at_leaf] tells apart. *)
Definition mkdir_p (at_leaf : bool) (p : str) : M unit :=
  atomic (fun w =>
    match fault E (SysMkdir p) w with
    | Some e => (Raise e, w)
    | None =>
        match fs w !! p with
        | Some Dir => (Ok tt, w)
        | Some (File _) =>
            (Raise (mkExn FileExistsError
                      (py "[Errno 17] File exists: " ++ quoted p)), w)
        | None =>
            match blocked (fs w) (above p ++ [p]) with
            | Some b =>
                (Raise (mkExn NotADirectoryError
                          (py "[Errno 20] Not a directory: "
                           ++ quoted (if at_leaf then p else b))), w)
            | None =>
                (Ok tt, set_fs (foldl make_dir (fs w) (above p ++ [p])) w)
            end
        end
    end).

Definition os_makedirs : str -> M unit := mkdir_p false.
Definition Path_mkdir : str -> M unit := mkdir_p true.

(** [with LOG_LOCK: with open(p, "a", encoding="utf-8") as f:
    f.write(text)]: under the lock the append is one step. *)
Definition file_append (p : str) (text : str) : M unit :=
  atomic (fun w =>
    let written m :=
      mkWorld m (console w) (spawned w) (appended w ++ [(p, text)])
              (ticks w) in
    match fault E (SysAppend p) w with
    | Some e => (Raise e, w)
    | None =>
        match fs w !! p with
        | Some Dir =>
            (Raise (mkExn IsADirectoryError
                      (py "[Errno 21] Is a directory: " ++ quoted p)), w)
        | Some (File c) => (Ok tt, written (<[p := File (c ++ text)]> (fs w)))
        | None => (Ok tt, written (<[p := File text]> (fs w)))
        end
    end).

(** [with open(p, "r") as file]: the text of the file *)
Definition file_read (p : str) : M str :=
  atomic (fun w =>
    match fs w !! p with
    | Some (File c) => (Ok c, w)
    | Some Dir =>
        (Raise (mkExn IsADirectoryError
                  (py "[Errno 21] Is a directory: " ++ quoted p)), w)
    | None =>
        (Raise (mkExn FileNotFoundError
                  (py "[Errno 2] No such file or directory: " ++ quoted p)),
         w)
    end).

Definition under (p : str) (q : str) : Prop :=
  q = p \/ (p ++ py "/") `prefix_of` q.

#[local] Instance under_dec p q : Decision (under p q).
Proof. unfold under. apply _. Defined.

(** [shutil.rmtree(p)] *)
Definition shutil_rmtree (p : str) : M unit :=
  atomic (fun w =>
    match fault E (SysRmtree p) w with
    | Some e => (Raise e, w)
    | None =>
        match fs w !! p with
        | Some Dir =>
            (Ok tt, set_fs (filter (fun kv => ~ under p (fst kv)) (fs w)) w)
        | Some (File _) =>
            (Raise (mkExn NotADirectoryError
                      (py "[Errno 20] Not a directory: " ++ quoted p)), w)
        | None =>
            (Raise (mkExn FileNotFoundError
                      (py "[Errno 2] No such file or directory: "
                       ++ quoted p)), w)
        end
    end).

(** [subprocess.run(cmd, text=True, capture_output=True)]: the start of
    the process is recorded; when it is waited for, the tool has acted
    on the store. *)
Definition subprocess_run (cmd : list str) : M CompletedProcess :=
  bind
    (atomic (fun w =>
       (Ok tt,
        mkWorld (fs w) (console w) (spawned w ++ [cmd]) (appended w)
                (ticks w))))
    (fun _ =>
       atomic (fun w => let '(r, m) := tool E cmd w in (r, set_fs m w))).

End OS.

(** ** The script *)

Record SraDownloader := mkDownloader {
  dry_run : bool;
  out_dir : str;
  temp_dir : str;
  sra_dir : str;
  threads : Z
}.

Definition outcome : Type := str * bool * str.

Definition missing_sra (sra_path : str) : exn :=
  mkExn FileNotFoundError (py "Missing SRA file: " ++ sra_path).

Definition command_failed (printable err : str) : exn :=
  mkExn RuntimeError (py "Command failed: " ++ printable ++ [LF] ++ err).

Definition skip_msg : str := py "SKIP (fastq already downloaded)".

Section Script.
Context (U : UCD) (E : Env).

Definition run_command (cmd : list str) (dry : bool)
  : M (option CompletedProcess) :=
  let printable := join (py " ") cmd in
  print (py "Running: " ++ printable);;;
  if dry then ret None
  else
    result <- subprocess_run E cmd;;
    if negb (returncode result =? 0)%Z
    then raise (command_failed printable (stderr result))
    else ret (Some result).

Definition prefetch_cmd (self : SraDownloader) (acc : str) : list str :=
  [py "prefetch"; acc; py "--output-directory"; sra_dir self].

Definition prefetch_one (self : SraDownloader) (acc : str) : M unit :=
  let cmd := prefetch_cmd self acc in
  run_command cmd (dry_run self);;;
  print (py "prefetch successful for " ++ acc).

Definition out_dir_of (self : SraDownloader) (acc : str) : str :=
  out_dir self ++ py "/" ++ acc.
Definition tmp_dir_of (self : SraDownloader) (acc : str) : str :=
  temp_dir self ++ py "/" ++ acc.
Definition sra_path_of (self : SraDownloader) (acc : str) : str :=
  sra_dir self ++ py "/" ++ acc ++ py "/" ++ acc ++ py ".sra".

Definition fasterq_cmd (self : SraDownloader) (acc : str) : list str :=
  [py "fasterq-dump"; sra_path_of self acc;
   py "--outdir"; out_dir_of self acc;
   py "--temp"; tmp_dir_of self acc;
   py "--threads"; str_of_int (threads self);
   py "--split-files"].

Definition fasterq_dump_one (self : SraDownloader) (acc : str) : M unit :=
  let out_dir_acc := out_dir_of self acc in
  let tmp_dir_acc := tmp_dir_of self acc in
  let sra_path := sra_path_of self acc in
  os_makedirs E out_dir_acc;;;
  os_makedirs E tmp_dir_acc;;;
  present <- os_path_exists sra_path;;
  if negb (dry_run self) && negb present
  then raise (missing_sra sra_path)
  else
    let cmd := fasterq_cmd self acc in
    run_command cmd (dry_run self);;;
    print (py "fasterq-dump successful for " ++ acc).

Definition se_of (self : SraDownloader) (acc : str) : str :=
  out_dir_of self acc ++ py "/" ++ acc ++ py ".fastq".
Definition pe1_of (self : SraDownloader) (acc : str) : str :=
  out_dir_of self acc ++ py "/" ++ acc ++ py "_1.fastq".

(** [os.path.exists(p) and os.path.getsize(p) > 0] *)
Definition exists_nonempty (p : str) : M bool :=
  present <- os_path_exists p;;
  if present
  then (size <- os_path_getsize E p;; ret (0 <? size))
  else ret false.

Definition is_done (self : SraDownloader) (acc : str) : M bool :=
  let se := se_of self acc in
  let pe1 := pe1_of self acc in
  c1 <- exists_nonempty se;;
  if c1 then ret true
  else
    c2 <- exists_nonempty pe1;;
    if c2 then ret true else ret false.

(** The text of one log record *)
Definition log_line (ts acc status msg : str) : str :=
  ts ++ [TAB] ++ acc ++ [TAB] ++ status ++ [TAB] ++ msg ++ [LF].

Definition append_log (log_path acc status msg : str) : M unit :=
  t <- now E;;
  let ts := strftime t in
  let line := log_line ts acc status msg in
  Path_mkdir E (path_parent log_path);;;
  file_append E log_path line.

Definition safe_rmtree (path : str) (dry : bool) : M unit :=
  present <- os_path_exists path;;
  if negb present then ret tt
  else
    print (py "Cleaning: " ++ path);;;
    if dry then ret tt
    else shutil_rmtree E path.

Definition process_one_accession
    (acc out_dir tmp_dir sra_dir : str) (threads : Z)
    (dry_run delete_tmp_after delete_sra_after : bool) (log_path : str)
  : M outcome :=
  let downloader := mkDownloader dry_run out_dir tmp_dir sra_dir threads in
  done <- is_done downloader acc;;
  if done
  then
    append_log log_path acc (py "SKIP") (py "fastq already downloaded");;;
    ret (acc, true, skip_msg)
  else
    try_except
      (prefetch_one downloader acc;;;
       fasterq_dump_one downloader acc;;;
       let tmp_dir_acc := tmp_dir ++ py "/" ++ acc in
       let sra_dir_acc := sra_dir ++ py "/" ++ acc in
       (if delete_tmp_after then safe_rmtree tmp_dir_acc dry_run
        else ret tt);;;
       (if delete_sra_after then safe_rmtree sra_dir_acc dry_run
        else ret tt);;;
       append_log log_path acc (py "OK")
                  (py "prefetch + fasterq-dump completed");;;
       ret (acc, true, py "OK"))
      (fun e =>
         append_log log_path acc (py "FAIL")
                    (replace_char LF (py " ") (exn_msg e));;;
         ret (acc, false, exn_msg e)).

(** *** read_accessions *)

(** The lines of a text file opened with universal newlines: each of
    [\n], [\r] and [\r\n] ends a line and is read as [\n]. *)
Fixpoint readlines (cur : str) (s : str) : list str :=
  match s with
  | [] => match cur with [] => [] | _ => [rev cur] end
  | c :: s' =>
      if c =? 10 then rev (LF :: cur) :: readlines [] s'
      else if c =? 13 then
        match s' with
        | 10 :: s'' => rev (LF :: cur) :: readlines [] s''
        | _ => rev (LF :: cur) :: readlines [] s'
        end
      else readlines (c :: cur) s'
  end.

Definition line_tokens (line : str) : list str :=
  let line := strip U (hd [] (split_on HASH [] line)) in
  match line with
  | [] => []
  | _ => split_ws U [] line
  end.

Definition read_accessions (path : str) : M (list str) :=
  text <- file_read path;;
  ret (concat (map line_tokens (readlines [] text))).

(** *** main *)

Record Config := mkConfig {
  test_path : str;
  cfg_out_dir : str;
  cfg_tmp_dir : str;
  cfg_sra_dir : str;
  log_path_of : str;
  delete_tmp_after : bool;
  delete_sra_after : bool;
  jobs : nat;
  cfg_threads : Z;
  cfg_dry_run : bool
}.

(** The loop that removes invalid accessions *)
Fixpoint validate_loop (acc_list new_list : list str) : M (list str) :=
  match acc_list with
  | [] => ret new_list
  | acc :: rest =>
      let acc := upper U (strip U acc) in
      if negb (validate_accessions U acc)
      then
        print (acc ++ py " is not a valid accession, removed from list");;;
        validate_loop rest new_list
      else
        print (acc ++ py " validated");;;
        validate_loop rest (new_list ++ [acc])
  end.

(** One schedule of the pool, to run the script on examples: every
    submitted call runs alone to its end, one call after the other, and
    the futures complete in the order of submission.  A future holds
    what the call returned or the exception it raised.  The schedules
    of [ThreadPoolExecutor], in which the calls take their steps in
    turn, are those of [pool_step] below; the properties of the pool
    and of [main] are stated over them ([pool_runs], [main_runs]). *)
Fixpoint run_futures (calls : list (M outcome)) (w : World)
  : list (result outcome) * World :=
  match calls with
  | [] => ([], w)
  | call :: rest =>
      let '(r, w1) := run call w in
      let '(rs, w2) := run_futures rest w1 in
      (r :: rs, w2)
  end.

Definition submit (cfg : Config) (acc : str) : M outcome :=
  process_one_accession acc (cfg_out_dir cfg) (cfg_tmp_dir cfg)
    (cfg_sra_dir cfg) (cfg_threads cfg) (cfg_dry_run cfg)
    (delete_tmp_after cfg) (delete_sra_after cfg) (log_path_of cfg).

Definition no_workers : exn :=
  mkExn ValueError (py "max_workers must be greater than 0").

Definition pool (cfg : Config) (acc_list : list str)
  : M (list (result outcome)) :=
  match jobs cfg with
  | O => raise no_workers
  | S _ =>
      atomic (fun w =>
        let '(rs, w') := run_futures (map (submit cfg) acc_list) w in
        (Ok rs, w'))
  end.

(** [for fut in as_completed(futures)]: [fut.result()] returns the
    outcome or raises the exception the future holds. *)
Fixpoint collect (futures : list (result outcome)) (ok failed : nat)
  : M (nat * nat) :=
  match futures with
  | [] => ret (ok, failed)
  | Raise e :: _ => raise e
  | Ok (acc, success, msg) :: rest =>
      if (success : bool)
      then print (acc ++ py ": " ++ msg);;; collect rest (S ok) failed
      else print (acc ++ py ": FAILED - " ++ msg);;;
           collect rest ok (S failed)
  end.

Definition summary (ok failed total : nat) : str :=
  py "Done. Successful: " ++ str_of_nat ok ++ py ", Failed: "
  ++ str_of_nat failed ++ py ", Total: " ++ str_of_nat total.

(** What [main] does with the futures: the loop over [as_completed]
    and the summary line *)
Definition report (acc_list : list str) (futures : list (result outcome))
  : M unit :=
  tally <- collect futures 0%nat 0%nat;;
  print (summary (fst tally) (snd tally) (length acc_list)).

(** The scheduler: the [with ThreadPoolExecutor(...)] block of [main]
    and the summary line after it *)
Definition schedule (cfg : Config) (acc_list : list str) : M unit :=
  futures <- pool cfg acc_list;;
  report acc_list futures.

Definition main_with (cfg : Config) : M unit :=
  acc_list <- read_accessions (test_path cfg);;
  new_list <- validate_loop acc_list [];;
  let acc_list := dedup_preserve_order new_list in
  match acc_list with
  | [] => print (py "No accessions found")
  | _ => schedule cfg acc_list
  end.

Definition main : M unit :=
  main_with
    (mkConfig
       (py "/mnt/c/Users/eddie/Personal_Research/fastq_accessions/ash1_RNA.txt")
       (py "/mnt/d/Personal_Research/Data/fastq_files")
       (py "/mnt/d/Personal_Research/Data/tmp_files")
       (py "/mnt/d/Personal_Research/Data/sra_cache")
       (py "/mnt/c/Users/eddie/Personal_Research/logs/sra_fetch.log")
       true true 2%nat 2%Z false).

End Script.

(** ** Notions used in the statements *)

(** A prefix among SRR, ERR, DRR, then one or more characters of the
    class [digit], and nothing else *)
Definition accession_shape (digit : N -> bool) (s : str) : Prop :=
  exists prefix digits,
    s = prefix ++ digits /\
    prefix ∈ [py "SRR"; py "ERR"; py "DRR"] /\
    digits <> [] /\
    Forall (fun c => digit c = true) digits.

Definition ascii_digit (c : N) : bool := (48 <=? c) && (c <=? 57).

(** The grammar as the specification writes it:
    [^(SRR|ERR|DRR)[0-9]+$] *)
Definition spec_grammar (s : str) : Prop := accession_shape ascii_digit s.

(** What [os.path.exists(p) and os.path.getsize(p) > 0] gives in [w]:
    the size is asked for only when the path exists, and asking may
    fail. *)
Definition nonempty_at (E : Env) (w : World) (p : str) : result bool :=
  match fs w !! p with
  | None => Ok false
  | Some n =>
      match fault E (SysStat p) w with
      | Some e => Raise e
      | None =>
          Ok (0 <? match n with File c => utf8_len c | Dir => dir_size E end)
      end
  end.

(** What the idempotency check gives in [w] *)
Definition done_at (E : Env) (self : SraDownloader) (acc : str) (w : World)
  : result bool :=
  match nonempty_at E w (se_of self acc) with
  | Ok true => Ok true
  | Ok false => nonempty_at E w (pe1_of self acc)
  | Raise e => Raise e
  end.

Definition file_text (w : World) (p : str) : str :=
  match fs w !! p with
  | Some (File c) => c
  | _ => []
  end.


(** A text that is one line: it ends in a newline and has no other *)
Definition one_line (text : str) : Prop :=
  exists body, text = body ++ [LF] /\ LF ∉ body.

(** A computation that leaves the observation [f] of the world as it was *)
Definition keeps {A X} (f : World -> X) (m : M A) : Prop :=
  forall w, f (snd (run m w)) = f w.

(** How one run of the item pipeline can end: with one of the three
    outcomes, each with its one record appended to the log, or with an
    exception that the write to the log or the idempotency check
    raised. *)
Inductive run_of (E : Env) (self : SraDownloader) (log_path acc : str)
    (w : World) : result outcome -> World -> Prop :=
| run_skipped d w' :
    done_at E self acc w = Ok true ->
    appended w' =
      appended w ++ [(log_path, log_line (strftime d) acc (py "SKIP")
                                  (py "fastq already downloaded"))] ->
    spawned w' = spawned w ->
    run_of E self log_path acc w (Ok (acc, true, skip_msg)) w'
| run_succeeded d w' :
    done_at E self acc w = Ok false ->
    appended w' =
      appended w ++ [(log_path, log_line (strftime d) acc (py "OK")
                                  (py "prefetch + fasterq-dump completed"))] ->
    run_of E self log_path acc w (Ok (acc, true, py "OK")) w'
| run_failed d e w' :
    done_at E self acc w = Ok false ->
    appended w' =
      appended w ++ [(log_path, log_line (strftime d) acc (py "FAIL")
                                  (replace_char LF (py " ") (exn_msg e)))] ->
    run_of E self log_path acc w (Ok (acc, false, exn_msg e)) w'
| run_aborted e status msg w1 w' :
    run (append_log E log_path acc status msg) w1 = (Raise e, w') ->
    appended w' = appended w ->
    status = py "SKIP" \/ status = py "FAIL" ->
    run_of E self log_path acc w (Raise e) w'
| run_check_failed e :
    done_at E self acc w = Raise e ->
    run_of E self log_path acc w (Raise e) w.

Definition downloader_of (cfg : Config) : SraDownloader :=
  mkDownloader (cfg_dry_run cfg) (cfg_out_dir cfg) (cfg_tmp_dir cfg)
               (cfg_sra_dir cfg) (cfg_threads cfg).

(** The status of an outcome.  The script returns the triple
    (accession, success, message); the skip path and the success path
    both set the flag and differ in the message. *)
Inductive status := SKIPPED | SUCCEEDED | FAILED.

#[global] Instance status_eq_dec : EqDecision status.
Proof. solve_decision. Defined.

Definition outcome_status (o : outcome) : status :=
  let '(_, success, msg) := o in
  if (success : bool)
  then if decide (msg = skip_msg) then SKIPPED else SUCCEEDED
  else FAILED.

Definition count_status (s : status) (outcomes : list outcome) : nat :=
  length (filter (fun o => outcome_status o = s) outcomes).

(** An entry of [appended] that is a log record for [acc] *)
Definition is_record (log_path acc : str) (entry : str * str) : Prop :=
  exists d status msg,
    entry = (log_path, log_line (strftime d) acc status msg) /\
    status ∈ [py "SKIP"; py "OK"; py "FAIL"] /\
    LF ∉ msg.

(** What is left of the conversion step once both directories are made *)
Definition check_and_convert (E : Env) (self : SraDownloader) (acc : str)
  : M unit :=
  present <- os_path_exists (sra_path_of self acc);;
  if negb (dry_run self) && negb present
  then raise (missing_sra (sra_path_of self acc))
  else
    run_command E (fasterq_cmd self acc) (dry_run self);;;
    print (py "fasterq-dump successful for " ++ acc).

(** *** Exceptions that escape the pipeline *)

(** The exception [e] is one that the call [m] raises in some world *)
Definition raised_by {A} (m : M A) (e : exn) : Prop :=
  exists w w', run m w = (Raise e, w').

(** The exceptions of the write to the log: of the [mkdir] of its
    directory or of the append *)
Definition log_raised (E : Env) (log_path : str) (e : exn) : Prop :=
  raised_by (Path_mkdir E (path_parent log_path)) e \/
  exists text, raised_by (file_append E log_path text) e.

(** The exceptions of the idempotency check: of [os.path.getsize] *)
Definition check_raised (E : Env) (self : SraDownloader) (acc : str)
    (e : exn) : Prop :=
  raised_by (os_path_getsize E (se_of self acc)) e \/
  raised_by (os_path_getsize E (pe1_of self acc)) e.

Definition escaped (E : Env) (self : SraDownloader) (log_path acc : str)
    (e : exn) : Prop :=
  log_raised E log_path e \/ check_raised E self acc e.

(** What a run of the pipeline for [acc] has done when it ends, [n]
    being the number of its appends *)
Definition pipeline_post (E : Env) (self : SraDownloader)
    (log_path acc : str) (n : nat) (res : result outcome) : Prop :=
  match res with
  | Ok o => n = 1%nat /\ fst (fst o) = acc
  | Raise e => n = 0%nat /\ escaped E self log_path acc e
  end.

(** *** Threads that take their steps in turn

    [holds own Q n w0 r]: the computation [r], entered with the world
    [w0] by a thread that has made [n] appends so far, appends only
    entries that satisfy [own], whatever the other threads do to the
    world while it has yielded, and ends with a result and a number of
    appends that satisfy [Q]. *)

Fixpoint holds {A} (own : str * str -> Prop) (Q : nat -> result A -> Prop)
    (n : nat) (w0 : World) (r : Res A) : Prop :=
  match r with
  | Done res w =>
      exists new, appended w = appended w0 ++ new /\ Forall own new /\
                  Q (n + length new)%nat res
  | Yield w k =>
      exists new, appended w = appended w0 ++ new /\ Forall own new /\
                  forall w', holds own Q (n + length new)%nat w' (k w')
  end.

Definition safe {A} (own : str * str -> Prop) (Q : nat -> result A -> Prop)
    (n : nat) (m : M A) : Prop :=
  forall w, holds own Q n w (m w).

(** A computation that appends nothing and raises only exceptions in [P] *)
Definition quiet {A} (P : exn -> Prop) (m : M A) : Prop :=
  forall own (Q : nat -> result A -> Prop) n,
    (forall a, Q n (Ok a)) -> (forall e, P e -> Q n (Raise e)) ->
    safe own Q n m.

(** *** The pool of worker threads

    [ThreadPoolExecutor(max_workers=jobs)]: a submitted call waits in
    the queue, runs, or has finished.  The pool starts the call that
    waits longest while fewer than [jobs] calls run, and a running call
    takes one step at a time, on the world as the other calls have left
    it.  The futures complete in the order in which the calls finish. *)

Inductive thread :=
| Queued (call : M outcome)
| Running (k : World -> Res outcome)
| Finished (r : result outcome).

Record Pool := mkPool {
  pool_world : World;
  pool_threads : list thread;
  pool_completed : list nat
}.

Definition is_queued (t : thread) : Prop :=
  match t with Queued _ => True | _ => False end.
Definition is_running (t : thread) : Prop :=
  match t with Running _ => True | _ => False end.
Definition is_finished (t : thread) : Prop :=
  match t with Finished _ => True | _ => False end.

#[global] Instance is_running_dec t : Decision (is_running t).
Proof. destruct t; apply _. Defined.
#[global] Instance is_finished_dec t : Decision (is_finished t).
Proof. destruct t; apply _. Defined.

Inductive pool_step (jobs : nat) : Pool -> Pool -> Prop :=
| step_start w ts done i call :
    ts !! i = Some (Queued call) ->
    (forall j t, (j < i)%nat -> ts !! j = Some t -> ~ is_queued t) ->
    (length (filter is_running ts) < jobs)%nat ->
    pool_step jobs (mkPool w ts done)
                   (mkPool w (<[i := Running call]> ts) done)
| step_yield w ts done i k w' k' :
    ts !! i = Some (Running k) -> k w = Yield w' k' ->
    pool_step jobs (mkPool w ts done)
                   (mkPool w' (<[i := Running k']> ts) done)
| step_done w ts done i k w' r :
    ts !! i = Some (Running k) -> k w = Done r w' ->
    pool_step jobs (mkPool w ts done)
                   (mkPool w' (<[i := Finished r]> ts) (done ++ [i])).

Definition pool_init (w : World) (calls : list (M outcome)) : Pool :=
  mkPool w (map Queued calls) [].

(** The pool has run the calls to their end, under some schedule *)
Definition pool_runs (jobs : nat) (w : World) (calls : list (M outcome))
    (p : Pool) : Prop :=
  rtc (pool_step jobs) (pool_init w calls) p /\
  Forall is_finished (pool_threads p).

Definition future_of (p : Pool) (i : nat) : option (result outcome) :=
  match pool_threads p !! i with
  | Some (Finished r) => Some r
  | _ => None
  end.

(** The futures as [as_completed] yields them *)
Definition futures_of (p : Pool) : list (result outcome) :=
  omap (future_of p) (pool_completed p).

(** *** The invariant of the pool

    The appends made since the pool started, each with the thread that
    made it. *)

Definition owners (records : list (nat * (str * str))) : list nat :=
  map fst records.

Definition count (i : nat) (records : list (nat * (str * str))) : nat :=
  count_occ Nat.eq_dec (owners records) i.

Definition tagged (i : nat) (new : list (str * str))
  : list (nat * (str * str)) :=
  map (pair i) new.

Definition thread_inv (own : nat -> str * str -> Prop)
    (Q : nat -> nat -> result outcome -> Prop) (i n : nat) (t : thread)
  : Prop :=
  match t with
  | Queued k | Running k => forall w, holds (own i) (Q i) n w (k w)
  | Finished r => Q i n r
  end.

Record pool_inv (own : nat -> str * str -> Prop)
    (Q : nat -> nat -> result outcome -> Prop) (w0 : World) (p : Pool)
    (records : list (nat * (str * str))) : Prop := {
  inv_appended :
    appended (pool_world p) = appended w0 ++ map snd records;
  inv_own : Forall (fun x => own (fst x) (snd x)) records;
  inv_range :
    Forall (fun x => (fst x < length (pool_threads p))%nat) records;
  inv_threads :
    forall i t, pool_threads p !! i = Some t ->
                thread_inv own Q i (count i records) t;
  inv_nodup : NoDup (pool_completed p);
  inv_completed :
    forall i, i ∈ pool_completed p <->
              exists r, pool_threads p !! i = Some (Finished r)
}.

(** The records and the result of the call submitted for the [i]-th
    identifier *)
Definition record_of (cfg : Config) (acc_list : list str) (i : nat)
  : str * str -> Prop :=
  is_record (log_path_of cfg) (nth i acc_list []).

Definition post_of (E : Env) (cfg : Config) (acc_list : list str) (i : nat)
  : nat -> result outcome -> Prop :=
  pipeline_post E (downloader_of cfg) (log_path_of cfg) (nth i acc_list []).

(** *** Notions for the properties of reading, validation and cleanup *)

(** The text of a line before its first [c] *)
Fixpoint before (c : N) (s : str) : str :=
  match s with
  | [] => []
  | x :: s' => if N.eqb x c then [] else x :: before c s'
  end.

(** The tokens of a file's text, as [read_accessions] collects them *)
Definition file_tokens (U : UCD) (text : str) : list str :=
  concat (map (line_tokens U) (readlines [] text)).

(** The identifiers that [main] submits for the tokens it has read:
    normalised, validated, without duplicates *)
Definition submitted (U : UCD) (tokens : list str) : list str :=
  dedup_preserve_order
    (filter (fun acc => validate_accessions U acc = true)
            (map (normalize U) tokens)).

(** The line that the validation loop prints for a normalised token *)
Definition verdict_line (U : UCD) (acc : str) : str :=
  if validate_accessions U acc
  then acc ++ py " validated"
  else acc ++ py " is not a valid accession, removed from list".


(** The world with [lines] printed *)
Definition printed (lines : list str) (w : World) : World :=
  mkWorld (fs w) (console w ++ lines) (spawned w) (appended w) (ticks w).

(** A computation that, run alone, keeps what holds of the world *)
Definition preserves {A} (P : World -> Prop) (m : M A) : Prop :=
  forall w, P w -> P (snd (run m w)).



(** *** What a finished pool has produced *)

(** What the call for [acc] has ended with: an outcome for [acc], or an
    exception that escaped from its write to the log or from its
    idempotency check *)
Definition settled (E : Env) (cfg : Config) (acc : str)
    (r : result outcome) : Prop :=
  match r with
  | Ok o => fst (fst o) = acc
  | Raise e => escaped E (downloader_of cfg) (log_path_of cfg) acc e
  end.

(** The identifiers whose call returned an outcome, [rs] being what the
    calls ended with, in the order of submission *)
Definition served (acc_list : list str) (rs : list (result outcome))
  : list str :=
  omap (fun x : str * result outcome =>
          match snd x with Ok _ => Some (fst x) | Raise _ => None end)
       (zip acc_list rs).

Definition ok_at (rs : list (result outcome)) (i : nat) : bool :=
  match rs !! i with Some (Ok _) => true | _ => false end.

(** *** What every step of every thread keeps

    [stable P r]: the computation [r] leaves a world in which [P] holds
    at each of its steps, provided [P] holds of the world whenever it
    is resumed. *)

Fixpoint stable {A} (P : World -> Prop) (r : Res A) : Prop :=
  match r with
  | Done _ w => P w
  | Yield w k => P w /\ forall w', P w' -> stable P (k w')
  end.

Definition steady {A} (P : World -> Prop) (m : M A) : Prop :=
  forall w, P w -> stable P (m w).

Definition thread_steady (P : World -> Prop) (t : thread) : Prop :=
  match t with
  | Queued call => steady P call
  | Running k => forall w, P w -> stable P (k w)
  | Finished _ => True
  end.

(** *** [main] with the pool under any schedule

    The accession file is read, the tokens are validated and
    deduplicated; with no identifier left [main] prints a line and
    returns; otherwise the pool runs the pipelines, under some schedule
    of [pool_step], and the loop over the completed futures and the
    summary line follow.  The lines of that loop, which touch the
    console only, are put after the steps of the pipelines: leaving the
    [with] block waits for every pipeline, also when [fut.result()]
    has raised.  [ThreadPoolExecutor] raises [ValueError] for a number
    of workers that is not positive. *)

Inductive main_runs (U : UCD) (E : Env) (cfg : Config) (w : World)
  : result unit -> World -> Prop :=
| main_unread e w1 :
    run (read_accessions U (test_path cfg)) w = (Raise e, w1) ->
    main_runs U E cfg w (Raise e) w1
| main_nothing tokens w0 new_list w1 r w' :
    run (read_accessions U (test_path cfg)) w = (Ok tokens, w0) ->
    run (validate_loop U tokens []) w0 = (Ok new_list, w1) ->
    dedup_preserve_order new_list = [] ->
    run (print (py "No accessions found")) w1 = (r, w') ->
    main_runs U E cfg w r w'
| main_no_workers tokens w0 new_list w1 :
    run (read_accessions U (test_path cfg)) w = (Ok tokens, w0) ->
    run (validate_loop U tokens []) w0 = (Ok new_list, w1) ->
    dedup_preserve_order new_list <> [] ->
    jobs cfg = 0%nat ->
    main_runs U E cfg w (Raise no_workers) w1
| main_pool tokens w0 new_list w1 p r w' :
    run (read_accessions U (test_path cfg)) w = (Ok tokens, w0) ->
    run (validate_loop U tokens []) w0 = (Ok new_list, w1) ->
    dedup_preserve_order new_list <> [] ->
    pool_runs (jobs cfg) w1
      (map (submit E cfg) (dedup_preserve_order new_list)) p ->
    run (report (dedup_preserve_order new_list) (futures_of p))
        (pool_world p) = (r, w') ->
    main_runs U E cfg w r w'.

(** ** Sample environments and worlds *)

(** A fragment of the character database: the whitespace characters,
    and case and digits for Basic Latin, Latin-1 and the two rows of
    Arabic digits.  Characters of other blocks count as caseless
    non-digits. *)
Definition sample_isspace (c : N) : bool :=
  ((9 <=? c) && (c <=? 13)) || ((28 <=? c) && (c <=? 32))
  || (c =? 133) || (c =? 160) || (c =? 5760)
  || ((8192 <=? c) && (c <=? 8202)) || (c =? 8232) || (c =? 8233)
  || (c =? 8239) || (c =? 8287) || (c =? 12288).

Definition sample_isdecimal (c : N) : bool :=
  ((48 <=? c) && (c <=? 57)) || ((1632 <=? c) && (c <=? 1641))
  || ((1776 <=? c) && (c <=? 1785)).

Definition sample_upper (c : N) : str :=
  if (97 <=? c) && (c <=? 122) then [c - 32]
  else if c =? 181 then [924]
  else if c =? 223 then [83; 83]
  else if c =? 247 then [c]
  else if (224 <=? c) && (c <=? 254) then [c - 32]
  else if c =? 255 then [376]
  else [c].

Definition ucd_sample : UCD.
Proof.
  refine {| isspace := sample_isspace;
            isdecimal := sample_isdecimal;
            upper_of := sample_upper |}.
  intros c Hc. unfold sample_isdecimal.
  destruct (N.leb_spec 1632 c); [lia|].
  destruct (N.leb_spec 1776 c); [lia|].
  simpl. by rewrite !orb_false_r.
Defined.

Definition sample_clock (n : nat) : datetime :=
  mkDate 2024 5 17 9 30 (N.of_nat n mod 60).

(** Tools that do nothing and exit with status 0; no call fails. *)
Definition env_quiet : Env :=
  {| tool := fun cmd w => (Ok (mkProc 0 [] []), fs w);
     fault := fun _ _ => None;
     clock := sample_clock;
     dir_size := 4096 |}.

(** Tools that exit with status 1 and [disk full] on stderr *)
Definition env_failing : Env :=
  {| tool := fun cmd w => (Ok (mkProc 1 [] (py "disk full")), fs w);
     fault := fun _ _ => None;
     clock := sample_clock;
     dir_size := 4096 |}.

Definition w_empty : World := mkWorld ∅ [] [] [] 0.

(** A store in which SRR1 was downloaded before (paired-end) *)
Definition w_done : World :=
  mkWorld (<[py "/out/SRR1/SRR1_1.fastq" := File (py "@read1")]>
           (<[py "/out/SRR1" := Dir]> (<[py "/out" := Dir]> ∅)))
          [] [] [] 0.

(** The same store, with a directory where the log file should be *)
Definition w_logdir : World :=
  set_fs (<[py "/log" := Dir]> (fs w_done)) w_done.

Definition cfg_sample : Config :=
  mkConfig (py "/acc.txt") (py "/out") (py "/tmp") (py "/sra") (py "/log")
           true true 2%nat 2%Z false.

(** * Properties *)

Ltac by_compute := refine (bool_decide_unpack _ _); vm_compute; exact I.

(** ** Regular expressions: the matcher decides the denotation *)

Lemma matches_cat_inv r1 r2 s :
  matches (Cat r1 r2) s ->
  exists s1 s2, s = s1 ++ s2 /\ matches r1 s1 /\ matches r2 s2.
Proof. intros H. inversion H; subst; eauto. Qed.

Lemma matches_alt_inv r1 r2 s :
  matches (Alt r1 r2) s -> matches r1 s \/ matches r2 s.
Proof. intros H. inversion H; subst; eauto. Qed.

Lemma matches_lit_inv c s : matches (Lit c) s -> s = [c].
Proof. intros H. by inversion H. Qed.

Lemma matches_class_inv (p : N -> bool) s :
  matches (Class p) s -> exists c, s = [c] /\ p c = true.
Proof. intros H. inversion H; subst; eauto. Qed.

Lemma nullable_matches r : nullable r = true <-> matches r [].
Proof.
  induction r; simpl; split; intros H; try discriminate;
    try (by constructor); try (by inversion H).
  - apply andb_true_iff in H as [H1 H2].
    change (@nil N) with (@nil N ++ []). constructor; tauto.
  - apply matches_cat_inv in H as (s1 & s2 & Heq & H1 & H2).
    symmetry in Heq. apply app_eq_nil in Heq as [-> ->].
    apply andb_true_iff. tauto.
  - apply orb_true_iff in H as [H|H]; [apply m_alt_l|apply m_alt_r]; tauto.
  - apply orb_true_iff. apply matches_alt_inv in H. tauto.
Qed.

Lemma star_cons_inv r c s :
  matches (Star r) (c :: s) ->
  exists s1 s2, s = s1 ++ s2 /\ matches r (c :: s1) /\ matches (Star r) s2.
Proof.
  intros H. remember (Star r) as r0 eqn:Hr. remember (c :: s) as s0 eqn:Hs.
  induction H as [| | | | | | |r' s1 s2 H1 _ H2 IH2]; try discriminate.
  injection Hr as ->. destruct s1 as [|c1 s1]; simpl in Hs.
  - apply IH2; done.
  - injection Hs as -> <-. eauto.
Qed.

Lemma deriv_matches c r s : matches (deriv c r) s <-> matches r (c :: s).
Proof.
  revert s. induction r as [| |d|p|r1 IH1 r2 IH2|r1 IH1 r2 IH2|r1 IH1];
    intros s; simpl.
  - split; intros H; inversion H.
  - split; intros H; inversion H.
  - destruct (N.eqb_spec c d) as [->|Hne]; split; intros H.
    + inversion H; subst. constructor.
    + apply matches_lit_inv in H as [= ->]. constructor.
    + inversion H.
    + apply matches_lit_inv in H. congruence.
  - destruct (p c) eqn:Hp; split; intros H.
    + inversion H; subst. by constructor.
    + apply matches_class_inv in H as (c' & [= <- ->] & Hc). constructor.
    + inversion H.
    + apply matches_class_inv in H as (c' & [= <- ->] & Hc). congruence.
  - assert (Hcat : matches (Cat (deriv c r1) r2) s ->
                   matches (Cat r1 r2) (c :: s)).
    { intros H. apply matches_cat_inv in H as (s1 & s2 & -> & H1 & H2).
      change (c :: s1 ++ s2) with ((c :: s1) ++ s2).
      constructor; [by apply IH1|done]. }
    assert (Hinv : matches (Cat r1 r2) (c :: s) ->
                   matches (Cat (deriv c r1) r2) s \/
                   (matches r1 [] /\ matches r2 (c :: s))).
    { intros H. apply matches_cat_inv in H as (s1 & s2 & Heq & H1 & H2).
      destruct s1 as [|c1 s1]; simpl in Heq; subst.
      - right. done.
      - injection Heq as -> ->. left. constructor; [by apply IH1|done]. }
    destruct (nullable r1) eqn:Hn; split; intros H.
    + apply matches_alt_inv in H as [H|H]; [by apply Hcat|].
      change (c :: s) with ([] ++ c :: s).
      constructor; [by apply nullable_matches|by apply IH2].
    + destruct (Hinv H) as [H'|[_ H']];
        [by apply m_alt_l|apply m_alt_r; by apply IH2].
    + by apply Hcat.
    + destruct (Hinv H) as [H'|[H' _]]; [done|].
      apply nullable_matches in H'. congruence.
  - split; intros H.
    + apply matches_alt_inv in H as [H|H];
        [apply m_alt_l; by apply IH1|apply m_alt_r; by apply IH2].
    + apply matches_alt_inv in H as [H|H];
        [apply m_alt_l; by apply IH1|apply m_alt_r; by apply IH2].
  - split; intros H.
    + apply matches_cat_inv in H as (s1 & s2 & -> & H1 & H2).
      change (c :: s1 ++ s2) with ((c :: s1) ++ s2).
      constructor; [by apply IH1|done].
    + apply star_cons_inv in H as (s1 & s2 & -> & H1 & H2).
      constructor; [by apply IH1|done].
Qed.

Lemma fullmatch_matches r s : fullmatch r s = true <-> matches r s.
Proof.
  revert r. induction s as [|c s IH]; intros r; simpl.
  - apply nullable_matches.
  - rewrite IH. apply deriv_matches.
Qed.

Lemma matches_word w s : matches (word w) s <-> s = w.
Proof.
  revert s. induction w as [|c w IH]; intros s; simpl; split; intros H.
  - by inversion H.
  - subst. constructor.
  - apply matches_cat_inv in H as (s1 & s2 & -> & H1 & H2).
    apply matches_lit_inv in H1 as ->. simpl. f_equal. by apply IH.
  - subst. change (c :: w) with ([c] ++ w).
    constructor; [constructor|by apply IH].
Qed.

Lemma matches_star_class (p : N -> bool) s :
  matches (Star (Class p)) s <-> Forall (fun c => p c = true) s.
Proof.
  split.
  - intros H. remember (Star (Class p)) as r eqn:Hr.
    induction H as [| | | | | | |r' s1 s2 H1 _ H2 IH2]; try discriminate.
    + constructor.
    + injection Hr as ->.
      apply matches_class_inv in H1 as (c & -> & Hc). simpl.
      constructor; [done|]. by apply IH2.
  - induction 1 as [|c s Hc _ IH]; [constructor|].
    change (c :: s) with ([c] ++ s). constructor; [by constructor|done].
Qed.

Lemma matches_plus_class (p : N -> bool) s :
  matches (plus (Class p)) s <-> s <> [] /\ Forall (fun c => p c = true) s.
Proof.
  unfold plus. split.
  - intros H. apply matches_cat_inv in H as (s1 & s2 & -> & H1 & H2).
    apply matches_class_inv in H1 as (c & -> & Hc). simpl. split; [done|].
    constructor; [done|by apply matches_star_class].
  - intros [Hne H]. destruct H as [|c s Hc Hs]; [done|].
    change (c :: s) with ([c] ++ s).
    constructor; [by constructor|by apply matches_star_class].
Qed.

Lemma validate_accessions_shape U acc :
  validate_accessions U acc = true <-> accession_shape (isdecimal U) acc.
Proof.
  unfold validate_accessions, accession_re. rewrite fullmatch_matches.
  split.
  - intros H. apply matches_cat_inv in H as (s1 & s2 & -> & H1 & H2).
    apply matches_plus_class in H2 as [Hne Hds].
    exists s1, s2. split_and!; try done.
    apply matches_alt_inv in H1 as [H1|H1];
      [|apply matches_alt_inv in H1 as [H1|H1]];
      apply matches_word in H1 as ->; set_solver.
  - intros (prefix & digits & -> & Hp & Hne & Hds).
    constructor; [|by apply matches_plus_class].
    repeat (apply elem_of_cons in Hp as [->|Hp]);
      [apply m_alt_l|apply m_alt_r, m_alt_l|apply m_alt_r, m_alt_r
      |by apply elem_of_nil in Hp];
      by apply matches_word.
Qed.

(** ** The validator *)

Lemma accession_shape_ext (p q : N -> bool) s :
  Forall (fun c => p c = q c) s ->
  accession_shape p s -> accession_shape q s.
Proof.
  intros Hs (prefix & digits & -> & Hp & Hne & Hds).
  exists prefix, digits. split_and!; try done.
  apply Forall_app in Hs as [_ Hs].
  rewrite Forall_forall in *. intros c Hc.
  rewrite <- (Hs c Hc). by apply Hds.
Qed.

(** C6, as the code has it.  For every raw token, the validator accepts
    it exactly when the token, trimmed and upper-cased, is one of SRR,
    ERR, DRR followed by one or more characters of the class [\d] and
    nothing else.  The class [\d] of a [str] pattern holds every Unicode
    decimal digit; for a token whose characters, after trimming and
    upper-casing, are all ASCII, this is the grammar
    [^(SRR|ERR|DRR)[0-9]+$]. *)
Theorem validator_accepts_unicode_digits (U : UCD) (raw : str) :
  (accepts U raw = true <->
   accession_shape (isdecimal U) (normalize U raw)) /\
  (Forall (fun c => c < 128) (normalize U raw) ->
   (accepts U raw = true <-> spec_grammar (normalize U raw))).
Proof.
  unfold accepts. split; [apply validate_accessions_shape|].
  intros Hascii. rewrite validate_accessions_shape. unfold spec_grammar.
  split; apply accession_shape_ext;
    (eapply Forall_impl; [exact Hascii|]); intros c Hc; simpl;
    unfold ascii_digit; by rewrite isdecimal_ascii.
Qed.

Lemma validator_accepts_unicode_digits_witness :
  Forall (fun c => c < 128) (normalize ucd_sample (py " srr123 ")) /\
  (accepts ucd_sample (py " srr123 ") = true <->
   spec_grammar (normalize ucd_sample (py " srr123 "))).
Proof.
  assert (H : Forall (fun c => c < 128) (normalize ucd_sample (py " srr123 "))).
  { vm_compute. repeat constructor. }
  split; [exact H|].
  exact (proj2 (validator_accepts_unicode_digits ucd_sample (py " srr123 ")) H).
Defined.

(** C6, as the specification has it, fails: the token [srr] followed by
    ARABIC-INDIC DIGIT THREE (U+0663) is accepted, and after trimming and
    upper-casing it does not match [^(SRR|ERR|DRR)[0-9]+$]. *)
Lemma validator_not_ascii_grammar :
  accepts ucd_sample (py "srr" ++ [1635]) = true /\
  ~ spec_grammar (normalize ucd_sample (py "srr" ++ [1635])).
Proof.
  split; [by vm_compute|].
  intros (prefix & digits & Heq & Hp & Hne & Hds).
  assert (length prefix = 3%nat) as Hlen.
  { repeat (apply elem_of_cons in Hp as [->|Hp]); try done.
    by apply elem_of_nil in Hp. }
  vm_compute in Heq.
  destruct prefix as [|a [|b [|c [|? ?]]]]; try discriminate Hlen.
  injection Heq as <- <- <- <-.
  apply Forall_cons in Hds as [Hd _]. by vm_compute in Hd.
Qed.

Example validator_scenario :
  map (accepts ucd_sample)
      [py "SRR123"; py "ERR456"; py "BAD999"; py "srr1"; py "SRR";
       py "SRR12a"; py "SRR 12"; py "XSRR12"] =
  [true; true; false; true; false; false; false; false].
Proof. by vm_compute. Qed.

(** ** The deduplicator *)

Lemma dedup_loop_out items seen out :
  dedup_loop items seen out = out ++ dedup_loop items seen [].
Proof.
  revert seen out. induction items as [|x items IH]; intros seen out; simpl.
  - by rewrite app_nil_r.
  - case_decide; [apply IH|].
    rewrite (IH _ (out ++ [x])), (IH _ [x]). by rewrite <- app_assoc.
Qed.

Lemma dedup_loop_cons x items seen :
  dedup_loop (x :: items) seen [] =
  if decide (x ∈ seen) then dedup_loop items seen []
  else x :: dedup_loop items ({[x]} ∪ seen) [].
Proof. simpl. case_decide; [done|]. by rewrite dedup_loop_out. Qed.

Lemma dedup_loop_elem items seen y :
  y ∈ dedup_loop items seen [] <-> y ∈ items /\ y ∉ seen.
Proof.
  revert seen. induction items as [|x items IH]; intros seen.
  - simpl. set_solver.
  - rewrite dedup_loop_cons. case_decide.
    + rewrite IH. set_solver.
    + rewrite elem_of_cons, IH. destruct (decide (y = x)); set_solver.
Qed.

Lemma dedup_loop_NoDup items seen : NoDup (dedup_loop items seen []).
Proof.
  revert seen. induction items as [|x items IH]; intros seen.
  - constructor.
  - rewrite dedup_loop_cons. case_decide; [apply IH|].
    constructor; [|apply IH]. rewrite dedup_loop_elem. set_solver.
Qed.

Lemma dedup_loop_sublist items seen :
  dedup_loop items seen [] `sublist_of` items.
Proof.
  revert seen. induction items as [|x items IH]; intros seen.
  - constructor.
  - rewrite dedup_loop_cons. case_decide.
    + apply sublist_cons, IH.
    + apply sublist_skip, IH.
Qed.

Lemma dedup_loop_order items seen o1 x o2 y :
  dedup_loop items seen [] = o1 ++ x :: o2 -> y ∈ o2 ->
  exists l1 l2, items = l1 ++ x :: l2 /\ y ∉ l1.
Proof.
  revert seen o1. induction items as [|a items IH]; intros seen o1 Heq Hy.
  - simpl in Heq. by destruct o1.
  - assert (Hy' : y ∈ dedup_loop (a :: items) seen []).
    { rewrite Heq. set_solver. }
    rewrite dedup_loop_cons in Heq, Hy'. case_decide.
    + destruct (IH _ _ Heq Hy) as (l1 & l2 & -> & Hl1).
      exists (a :: l1), l2. split; [done|].
      apply dedup_loop_elem in Hy'. set_solver.
    + destruct o1 as [|b o1]; simpl in Heq; injection Heq as -> Heq.
      * exists [], items. split; [done|]. set_solver.
      * destruct (IH _ _ Heq Hy) as (l1 & l2 & -> & Hl1).
        exists (b :: l1), l2. split; [done|].
        assert (y ∈ dedup_loop (l1 ++ x :: l2) ({[b]} ∪ seen) []) as Hin.
        { rewrite Heq. set_solver. }
        apply dedup_loop_elem in Hin. set_solver.
Qed.

(** C7.  For every input sequence the output of the deduplicator has no
    repeated element, is a subsequence of the input, keeps exactly the
    elements of the input, lists them in the order of their first
    occurrences (when [x] comes before [y] in the output, [x] occurs in
    the input before any [y] does), and is no longer than the input. *)
Theorem dedup_preserve_order_spec (items : list str) :
  let out := dedup_preserve_order items in
  NoDup out /\
  out `sublist_of` items /\
  (forall x, x ∈ out <-> x ∈ items) /\
  (forall o1 x o2 y,
      out = o1 ++ x :: o2 -> y ∈ o2 ->
      exists l1 l2, items = l1 ++ x :: l2 /\ y ∉ l1) /\
  (length out <= length items)%nat.
Proof.
  unfold dedup_preserve_order. cbv zeta. split_and!.
  - apply dedup_loop_NoDup.
  - apply dedup_loop_sublist.
  - intros x. rewrite dedup_loop_elem. set_solver.
  - intros o1 x o2 y. apply dedup_loop_order.
  - apply sublist_length, dedup_loop_sublist.
Qed.

(** ** Effects: what a computation leaves untouched *)

Lemma run_ret {A} (a : A) w : run (ret a) w = (Ok a, w).
Proof. reflexivity. Qed.

Lemma run_raise {A} e w : run (@raise A e) w = (Raise e, w).
Proof. reflexivity. Qed.

Lemma run_atomic {A} (step : World -> result A * World) w :
  run (atomic step) w = step w.
Proof. unfold run, atomic. by destruct (step w). Qed.

Lemma run_res_bind {A B} (r : Res A) (k : A -> M B) :
  run_res (bind_res r k) =
  match run_res r with
  | (Ok a, w') => run (k a) w'
  | (Raise e, w') => (Raise e, w')
  end.
Proof.
  induction r as [[a|e] w|w c IH]; cbn [bind_res run_res]; [done|done|].
  apply IH.
Qed.

Lemma run_bind {A B} (m : M A) (k : A -> M B) w :
  run (bind m k) w = match run m w with
                     | (Ok a, w') => run (k a) w'
                     | (Raise e, w') => (Raise e, w')
                     end.
Proof. apply run_res_bind. Qed.

Lemma run_res_try {A} (r : Res A) (h : exn -> M A) :
  run_res (try_res r h) =
  match run_res r with
  | (Ok a, w') => (Ok a, w')
  | (Raise e, w') => run (h e) w'
  end.
Proof.
  induction r as [[a|e] w|w c IH]; cbn [try_res run_res]; [done|done|].
  apply IH.
Qed.

Lemma run_try {A} (m : M A) (h : exn -> M A) w :
  run (try_except m h) w = match run m w with
                           | (Ok a, w') => (Ok a, w')
                           | (Raise e, w') => run (h e) w'
                           end.
Proof. apply run_res_try. Qed.

Lemma keeps_ret {A X} (f : World -> X) (a : A) : keeps f (ret a).
Proof. by intros w. Qed.

Lemma keeps_raise {A X} (f : World -> X) e : keeps f (@raise A e).
Proof. by intros w. Qed.

Lemma keeps_bind {A B X} (f : World -> X) (m : M A) (k : A -> M B) :
  keeps f m -> (forall a, keeps f (k a)) -> keeps f (bind m k).
Proof.
  intros Hm Hk w. rewrite run_bind. specialize (Hm w).
  destruct (run m w) as [[a|e] w1]; simpl in *; [|done].
  by rewrite Hk.
Qed.

Lemma keeps_try {A X} (f : World -> X) (m : M A) (h : exn -> M A) :
  keeps f m -> (forall e, keeps f (h e)) -> keeps f (try_except m h).
Proof.
  intros Hm Hh w. rewrite run_try. specialize (Hm w).
  destruct (run m w) as [[a|e] w1]; simpl in *; [done|].
  by rewrite Hh.
Qed.

Lemma keeps_atomic {A X} (f : World -> X) (step : World -> result A * World) :
  (forall w, f (snd (step w)) = f w) -> keeps f (atomic step).
Proof. intros H w. by rewrite run_atomic. Qed.

Lemma keeps_run {A X} (f : World -> X) (m : M A) w r w' :
  keeps f m -> run m w = (r, w') -> f w' = f w.
Proof. intros Hm Heq. specialize (Hm w). by rewrite Heq in Hm. Qed.

Ltac run_norm :=
  repeat first
    [ rewrite run_bind | rewrite run_try | rewrite run_atomic
    | rewrite run_ret | rewrite run_raise | progress cbv beta iota zeta ].

Ltac keeps_prim :=
  let w := fresh "w" in
  cbv beta delta [print now os_path_exists os_path_getsize mkdir_p
    os_makedirs Path_mkdir file_append shutil_rmtree];
  apply keeps_atomic; intros w; cbv beta zeta delta [set_fs];
  repeat case_match; reflexivity.

Section Effects.
Context (U : UCD) (E : Env).

Lemma print_keeps_appended line : keeps appended (print line).
Proof. keeps_prim. Qed.
Lemma print_keeps_spawned line : keeps spawned (print line).
Proof. keeps_prim. Qed.
Lemma print_keeps_fs line : keeps fs (print line).
Proof. keeps_prim. Qed.
Lemma now_keeps_appended : keeps appended (now E).
Proof. keeps_prim. Qed.
Lemma now_keeps_spawned : keeps spawned (now E).
Proof. keeps_prim. Qed.
Lemma exists_keeps_appended p : keeps appended (os_path_exists p).
Proof. keeps_prim. Qed.
Lemma mkdir_keeps_appended leaf p : keeps appended (mkdir_p E leaf p).
Proof. keeps_prim. Qed.
Lemma mkdir_keeps_spawned leaf p : keeps spawned (mkdir_p E leaf p).
Proof. keeps_prim. Qed.
Lemma append_keeps_spawned p text : keeps spawned (file_append E p text).
Proof. keeps_prim. Qed.
Lemma rmtree_keeps_appended p : keeps appended (shutil_rmtree E p).
Proof. keeps_prim. Qed.
Lemma run_keeps_appended cmd : keeps appended (subprocess_run E cmd).
Proof.
  unfold subprocess_run. apply keeps_bind; [|intros _];
    apply keeps_atomic; intros w; [done|].
  by destruct (tool E cmd w).
Qed.

End Effects.

Create HintDb effects.
#[export] Hint Resolve keeps_ret keeps_raise print_keeps_appended
  print_keeps_spawned print_keeps_fs now_keeps_appended now_keeps_spawned
  exists_keeps_appended mkdir_keeps_appended mkdir_keeps_spawned
  append_keeps_spawned rmtree_keeps_appended run_keeps_appended : effects.

Ltac keeps_step :=
  match goal with
  | |- keeps _ (bind _ _) => apply keeps_bind; [|intros ?]
  | |- keeps _ (try_except _ _) => apply keeps_try; [|intros ?]
  | |- keeps _ (if ?b then _ else _) => destruct b
  | |- keeps _ (os_makedirs _ _) => apply mkdir_keeps_appended || apply mkdir_keeps_spawned
  | |- keeps _ (Path_mkdir _ _) => apply mkdir_keeps_appended || apply mkdir_keeps_spawned
  | |- keeps _ _ => solve [auto with effects]
  end.
Ltac keeps_auto := repeat keeps_step.

Section Effects2.
Context (U : UCD) (E : Env).

Lemma run_command_keeps_appended cmd dry :
  keeps appended (run_command E cmd dry).
Proof. unfold run_command. keeps_auto. Qed.

Lemma prefetch_one_keeps_appended self acc :
  keeps appended (prefetch_one E self acc).
Proof. unfold prefetch_one. keeps_auto. apply run_command_keeps_appended. Qed.

Lemma fasterq_dump_one_keeps_appended self acc :
  keeps appended (fasterq_dump_one E self acc).
Proof.
  unfold fasterq_dump_one. keeps_auto. apply run_command_keeps_appended.
Qed.

Lemma safe_rmtree_keeps_appended path dry :
  keeps appended (safe_rmtree E path dry).
Proof. unfold safe_rmtree. keeps_auto. Qed.

Lemma append_log_keeps_spawned log_path acc status msg :
  keeps spawned (append_log E log_path acc status msg).
Proof. unfold append_log. keeps_auto. Qed.

End Effects2.

(** ** The item pipeline *)

Lemma utf8_len_pos c : (0 <? utf8_len c) = true <-> c <> [].
Proof.
  destruct c as [|a c]; simpl; [by split|].
  split; [done|intros _]. apply N.ltb_lt. repeat case_match; lia.
Qed.

Section Pipeline.
Context (U : UCD) (E : Env).

Lemma exists_nonempty_run p w :
  run (exists_nonempty E p) w = (nonempty_at E w p, w).
Proof.
  unfold exists_nonempty, nonempty_at, os_path_exists, os_path_getsize.
  rewrite run_bind, run_atomic.
  destruct (fs w !! p) as [n|] eqn:Hp.
  - rewrite bool_decide_eq_true_2 by eauto.
    rewrite run_bind, run_atomic, Hp.
    destruct (fault E (SysStat p) w); [done|]. by destruct n.
  - by rewrite bool_decide_eq_false_2 by (by intros [? ?]).
Qed.

Lemma is_done_run self acc w :
  run (is_done E self acc) w = (done_at E self acc w, w).
Proof.
  unfold is_done, done_at. rewrite run_bind, exists_nonempty_run.
  destruct (nonempty_at E w (se_of self acc)) as [[|]|e]; [done| |done].
  rewrite run_bind, exists_nonempty_run.
  by destruct (nonempty_at E w (pe1_of self acc)) as [[|]|e].
Qed.

Lemma make_dirs_lookup (m : gmap str node) (l : list str) (q : str) :
  foldl make_dir m l !! q
  = match m !! q with
    | Some n => Some n
    | None => if bool_decide (q ∈ l) then Some Dir else None
    end.
Proof.
  revert m. induction l as [|a l IH]; intros m; cbn [foldl].
  { by destruct (m !! q). }
  rewrite IH. unfold make_dir.
  destruct (decide (q = a)) as [->|Hne].
  - destruct (m !! a) as [n|] eqn:Ha; [by rewrite Ha|].
    rewrite lookup_insert_eq, bool_decide_eq_true_2; [done|].
    apply list_elem_of_here.
  - assert (Hin : bool_decide (q ∈ a :: l) = bool_decide (q ∈ l)).
    { apply bool_decide_ext. rewrite elem_of_cons. tauto. }
    rewrite Hin.
    destruct (m !! a); [done|]. by rewrite lookup_insert_ne.
Qed.

Lemma mkdir_p_run leaf p w r w' :
  run (mkdir_p E leaf p) w = (r, w') ->
  (exists e, r = Raise e /\ w' = w) \/
  (r = Ok tt /\ fs w' !! p = Some Dir /\
   (forall q, fs w' !! q = fs w !! q \/
              (fs w !! q = None /\ fs w' !! q = Some Dir)) /\
   (forall q n, fs w !! q = Some n -> fs w' !! q = Some n) /\
   console w' = console w /\ spawned w' = spawned w /\
   appended w' = appended w /\ ticks w' = ticks w).
Proof.
  unfold mkdir_p. rewrite run_atomic.
  destruct (fault E (SysMkdir p) w) as [e|].
  { intros [= <- <-]. eauto. }
  destruct (fs w !! p) as [[c|]|] eqn:Hp; [intros [= <- <-]; eauto|..].
  - intros [= <- <-]. right. split_and!; try done. intros q. by left.
  - destruct (blocked (fs w) (above p ++ [p])) as [b|];
      intros [= <- <-]; [eauto|].
    right. cbn [fs set_fs console spawned appended ticks].
    split_and!; try done.
    + rewrite make_dirs_lookup, Hp, bool_decide_eq_true_2; [done|].
      apply elem_of_app. right. apply list_elem_of_here.
    + intros q. rewrite make_dirs_lookup.
      destruct (fs w !! q) as [n|]; [by left|].
      destruct (bool_decide _); [by right|by left].
    + intros q n Hq. by rewrite make_dirs_lookup, Hq.
Qed.

Lemma append_log_run log_path acc status msg w :
  let line := log_line (strftime (clock E (ticks w))) acc status msg in
  (exists w', run (append_log E log_path acc status msg) w = (Ok tt, w') /\
              appended w' = appended w ++ [(log_path, line)] /\
              fs w' !! log_path = Some (File (file_text w log_path ++ line)) /\
              fs w !! log_path <> Some Dir) \/
  (exists e w', run (append_log E log_path acc status msg) w = (Raise e, w') /\
                appended w' = appended w).
Proof.
  intros line. unfold append_log, now, Path_mkdir.
  rewrite run_bind, run_atomic. cbv beta iota zeta. fold line.
  set (w0 := mkWorld _ _ _ _ _). rewrite run_bind.
  destruct (run (mkdir_p E true (path_parent log_path)) w0) as [r w1] eqn:Hmk.
  apply mkdir_p_run in Hmk
    as [(e & -> & ->)|(-> & Hdir & Hne & Hmono & _ & _ & Happ & _)].
  { right. by exists e, w0. }
  unfold file_append. rewrite run_atomic. cbv zeta.
  destruct (fault E (SysAppend log_path) w1) as [e|].
  { right. exists e, w1. done. }
  destruct (Hne log_path) as [Heq|[_ Hmade]]; [|rewrite Hmade; right; eauto].
  rewrite Heq. change (fs w0) with (fs w).
  unfold file_text.
  destruct (fs w !! log_path) as [[c|]|] eqn:Hp.
  - left. eexists. split; [done|]. simpl. rewrite Happ.
    split_and!; try done. apply lookup_insert_eq.
  - right. eauto.
  - left. eexists. split; [done|]. simpl. rewrite Happ.
    split_and!; try done. apply lookup_insert_eq.
Qed.

Lemma process_one_accession_run
    acc out_dir tmp_dir sra_dir threads dry delete_tmp delete_sra log_path w :
  let self := mkDownloader dry out_dir tmp_dir sra_dir threads in
  let exec := run (process_one_accession E acc out_dir tmp_dir sra_dir threads dry
               delete_tmp delete_sra log_path) w in
  run_of E self log_path acc w (fst exec) (snd exec).
Proof.
  intros self exec. subst exec. unfold process_one_accession. fold self.
  rewrite run_bind, is_done_run.
  destruct (done_at E self acc w) as [[|]|e] eqn:Hdone;
    [| |by apply run_check_failed].
  { rewrite run_bind.
    destruct (append_log_run log_path acc (py "SKIP")
                (py "fastq already downloaded") w)
      as [(w' & Hr & Happ & _)|(e & w' & Hr & Happ)]; rewrite Hr; simpl.
    - eapply run_skipped; [done|done|].
      eapply keeps_run; [apply append_log_keeps_spawned|done].
    - eapply run_aborted; eauto. }
  assert (Hfail : forall e w1,
    appended w1 = appended w ->
    let h := run (append_log E log_path acc (py "FAIL")
                    (replace_char LF (py " ") (exn_msg e));;;
                  ret (acc, false, exn_msg e)) w1 in
    run_of E self log_path acc w (fst h) (snd h)).
  { intros e w1 Hw1 h. subst h. rewrite run_bind.
    destruct (append_log_run log_path acc (py "FAIL")
                (replace_char LF (py " ") (exn_msg e)) w1)
      as [(w' & Hr & Happ & _)|(e' & w' & Hr & Happ)]; rewrite Hr; simpl.
    - eapply run_failed; [done|]. by rewrite Happ, Hw1.
    - eapply run_aborted; eauto. congruence. }
  rewrite run_try, run_bind.
  destruct (run (prefetch_one E self acc) w) as [[[]|e] w1] eqn:H1;
    pose proof (keeps_run appended _ _ _ _
                  (prefetch_one_keeps_appended E self acc) H1) as K1;
    [|by apply Hfail].
  rewrite run_bind.
  destruct (run (fasterq_dump_one E self acc) w1) as [[[]|e] w2] eqn:H2;
    pose proof (keeps_run appended _ _ _ _
                  (fasterq_dump_one_keeps_appended E self acc) H2) as K2;
    [|apply Hfail; congruence].
  cbv zeta. rewrite run_bind.
  set (c1 := if delete_tmp then _ else _).
  assert (keeps appended c1) as Kc1.
  { subst c1. destruct delete_tmp;
      [apply safe_rmtree_keeps_appended|apply keeps_ret]. }
  destruct (run c1 w2) as [[[]|e] w3] eqn:H3;
    pose proof (keeps_run appended _ _ _ _ Kc1 H3) as K3;
    [|apply Hfail; congruence].
  rewrite run_bind.
  set (c2 := if delete_sra then _ else _).
  assert (keeps appended c2) as Kc2.
  { subst c2. destruct delete_sra;
      [apply safe_rmtree_keeps_appended|apply keeps_ret]. }
  destruct (run c2 w3) as [[[]|e] w4] eqn:H4;
    pose proof (keeps_run appended _ _ _ _ Kc2 H4) as K4;
    [|apply Hfail; congruence].
  rewrite run_bind.
  destruct (append_log_run log_path acc (py "OK")
              (py "prefetch + fasterq-dump completed") w4)
    as [(w' & Hr & Happ & _)|(e' & w' & Hr & Happ)]; rewrite Hr.
  - simpl. eapply run_succeeded; [done|]. by rewrite Happ, K4, K3, K2, K1.
  - apply Hfail. congruence.
Qed.

End Pipeline.

(** ** The idempotency check *)

Lemma nonempty_at_file E w p c :
  fault E (SysStat p) w = None ->
  fs w !! p = Some (File c) -> c <> [] -> nonempty_at E w p = Ok true.
Proof.
  intros Hf Hp Hc. unfold nonempty_at. rewrite Hp, Hf.
  apply utf8_len_pos in Hc. by rewrite Hc.
Qed.







Example is_done_scenarios :
  let self := mkDownloader false (py "/out") (py "/tmp") (py "/sra") 2 in
  let truncated :=
    set_fs (<[py "/out/SRR1/SRR1.fastq" := File []]>
            (<[py "/out/SRR1" := Dir]> (<[py "/out" := Dir]> ∅))) w_empty in
  run (is_done env_quiet self (py "SRR1")) w_done = (Ok true, w_done) /\
  run (is_done env_quiet self (py "SRR1")) truncated = (Ok false, truncated) /\
  run (is_done env_quiet self (py "SRR1")) w_empty = (Ok false, w_empty).
Proof. by vm_compute. Qed.

(** ** The external step runner *)

(** C4.  [run_command] first prints the command.  In dry mode nothing
    else happens: no sub-process is started, the store is as it was and
    the call returns.  In real mode, when the process exits with a
    status other than zero the call raises a failure whose message ends
    with the captured stderr; when it exits with status zero the call
    returns the completed process, whatever it wrote. *)
Theorem run_command_contract (E : Env) (cmd : list str) (w : World) :
  let printable := join (py " ") cmd in
  let described :=
    mkWorld (fs w) (console w ++ [py "Running: " ++ printable]) (spawned w)
            (appended w) (ticks w) in
  run (run_command E cmd true) w = (Ok None, described) /\
  (forall p w',
     run (subprocess_run E cmd) described = (Ok p, w') ->
     (returncode p <> 0%Z ->
        run (run_command E cmd false) w =
          (Raise (command_failed printable (stderr p)), w') /\
        stderr p `suffix_of` exn_msg (command_failed printable (stderr p))) /\
     (returncode p = 0%Z ->
        run (run_command E cmd false) w = (Ok (Some p), w'))).
Proof.
  intros printable described. split; [done|].
  intros p w' Hrun.
  assert (Hreal : run (run_command E cmd false) w =
                  run (if negb (returncode p =? 0)%Z
                       then raise (command_failed printable (stderr p))
                       else ret (Some p)) w').
  { unfold run_command. fold printable. rewrite run_bind.
    change (run (print (py "Running: " ++ printable)) w) with (Ok tt, described).
    cbv iota beta. by rewrite run_bind, Hrun. }
  split.
  - intros Hne. apply Z.eqb_neq in Hne. rewrite Hreal, Hne. split; [done|].
    unfold command_failed. simpl.
    exists ((py "Command failed: " ++ printable) ++ [LF]).
    by rewrite <- !app_assoc.
  - intros Heq. apply Z.eqb_eq in Heq. by rewrite Hreal, Heq.
Qed.

Lemma run_command_contract_witness :
  let cmd := [py "prefetch"; py "SRR1"; py "--output-directory"; py "/sra"] in
  run (run_command env_failing cmd false) w_empty =
    (Raise (command_failed (join (py " ") cmd) (py "disk full")),
     mkWorld ∅ [py "Running: prefetch SRR1 --output-directory /sra"] [cmd]
             [] 0) /\
  py "disk full" `suffix_of`
    exn_msg (command_failed (join (py " ") cmd) (py "disk full")) /\
  exists w', run (run_command env_quiet cmd false) w_empty
             = (Ok (Some (mkProc 0 [] [])), w').
Proof.
  intros cmd.
  destruct (run_command_contract env_failing cmd w_empty) as [_ Hfail].
  destruct (run_command_contract env_quiet cmd w_empty) as [_ Hquiet].
  specialize (Hfail (mkProc 1 [] (py "disk full"))
                (mkWorld ∅ [py "Running: prefetch SRR1 --output-directory /sra"]
                         [cmd] [] 0)).
  destruct Hfail as [[Hraise Hsuffix] _]; [by vm_compute|done|].
  split; [exact Hraise|]. split; [exact Hsuffix|].
  eexists. apply (Hquiet (mkProc 0 [] [])); [by vm_compute|done].
Defined.

(** ** The conversion step *)

Section Conversion.
Context (E : Env).

Lemma run_command_real_spawned cmd w :
  spawned (snd (run (run_command E cmd false) w)) = spawned w ++ [cmd].
Proof.
  unfold run_command, print, subprocess_run. run_norm.
  destruct (tool E cmd _) as [[p|e] m]; run_norm; [|done].
  destruct (negb _); by run_norm.
Qed.

Lemma check_and_convert_dry self acc w :
  dry_run self = true ->
  run (check_and_convert E self acc) w =
    (Ok tt,
     mkWorld (fs w)
       (console w ++
          [py "Running: " ++ join (py " ") (fasterq_cmd self acc);
           py "fasterq-dump successful for " ++ acc])
       (spawned w) (appended w) (ticks w)).
Proof.
  intros Hdry. unfold check_and_convert, run_command, os_path_exists, print.
  rewrite Hdry. run_norm. cbn [negb andb]. run_norm.
  cbn [fs console spawned appended ticks]. by rewrite <- app_assoc.
Qed.

Lemma check_and_convert_missing self acc w :
  dry_run self = false -> fs w !! sra_path_of self acc = None ->
  run (check_and_convert E self acc) w = (Raise (missing_sra (sra_path_of self acc)), w).
Proof.
  intros Hdry Hsra. unfold check_and_convert, os_path_exists.
  rewrite Hdry. run_norm.
  rewrite bool_decide_eq_false_2; [done|]. rewrite Hsra. by intros [? ?].
Qed.

Lemma check_and_convert_present self acc w :
  dry_run self = false -> is_Some (fs w !! sra_path_of self acc) ->
  run (check_and_convert E self acc) w =
    run (run_command E (fasterq_cmd self acc) false;;;
         print (py "fasterq-dump successful for " ++ acc)) w.
Proof.
  intros Hdry Hsra. unfold check_and_convert, os_path_exists.
  rewrite Hdry, run_bind, run_atomic. cbv beta iota.
  by rewrite bool_decide_eq_true_2.
Qed.

Lemma fasterq_dump_one_dirs self acc w :
  (exists e w1, run (fasterq_dump_one E self acc) w = (Raise e, w1) /\
      spawned w1 = spawned w /\
      (run (os_makedirs E (out_dir_of self acc)) w = (Raise e, w1) \/
       exists w0, run (os_makedirs E (out_dir_of self acc)) w = (Ok tt, w0) /\
                  run (os_makedirs E (tmp_dir_of self acc)) w0 = (Raise e, w1))) \/
  (exists w1 w2,
      run (os_makedirs E (out_dir_of self acc)) w = (Ok tt, w1) /\
      run (os_makedirs E (tmp_dir_of self acc)) w1 = (Ok tt, w2) /\
      fs w2 !! out_dir_of self acc = Some Dir /\
      fs w2 !! tmp_dir_of self acc = Some Dir /\
      spawned w2 = spawned w /\ console w2 = console w /\
      appended w2 = appended w /\ ticks w2 = ticks w /\
      (forall q n, fs w !! q = Some n -> fs w2 !! q = Some n) /\
      run (fasterq_dump_one E self acc) w = run (check_and_convert E self acc) w2).
Proof.
  unfold fasterq_dump_one, check_and_convert. cbv zeta. rewrite run_bind.
  destruct (run (os_makedirs E (out_dir_of self acc)) w) as [r1 w1] eqn:H1.
  pose proof H1 as H1'. apply mkdir_p_run in H1'
    as [(e & -> & ->)|(-> & Hd1 & Hne1 & Hmono1 & Hc1 & Hs1 & Ha1 & Ht1)].
  { left. exists e, w. eauto. }
  rewrite run_bind.
  destruct (run (os_makedirs E (tmp_dir_of self acc)) w1) as [r2 w2] eqn:H2.
  pose proof H2 as H2'. apply mkdir_p_run in H2'
    as [(e & -> & ->)|(-> & Hd2 & Hne2 & Hmono2 & Hc2 & Hs2 & Ha2 & Ht2)].
  { left. exists e, w1. split_and!; eauto. }
  right. exists w1, w2. split_and!; try done; try congruence.
  - by apply Hmono2.
  - intros q n Hq. by apply Hmono2, Hmono1.
Qed.

End Conversion.

(** C5, as the code has it.  The conversion step first makes its two
    directories, and if one of the two [os.makedirs] calls raises, that
    exception is what the step raises, in real and in dry mode, before
    the archive object is looked for and without any sub-process.  If
    both calls return: the step raises the missing-archive failure
    without starting a sub-process if and only if the run is a real one
    and [<sra_dir>/<id>/<id>.sra] is not in the store once the two
    directories, and the missing directories above them, are made; in
    real mode with the archive object there it starts the conversion
    command; in dry mode the check is skipped: the command is printed
    and the step returns. *)
Theorem missing_archive_iff (E : Env) (self : SraDownloader) (acc : str)
    (w : World) :
  let out_dir_acc := out_dir self ++ py "/" ++ acc in
  let tmp_dir_acc := temp_dir self ++ py "/" ++ acc in
  let sra_path := sra_dir self ++ py "/" ++ acc ++ py "/" ++ acc ++ py ".sra" in
  let exec := run (fasterq_dump_one E self acc) w in
  (exists e w1,
      exec = (Raise e, w1) /\ spawned w1 = spawned w /\
      (run (os_makedirs E out_dir_acc) w = (Raise e, w1) \/
       exists w0, run (os_makedirs E out_dir_acc) w = (Ok tt, w0) /\
                  run (os_makedirs E tmp_dir_acc) w0 = (Raise e, w1))) \/
  (exists w1 w2,
      run (os_makedirs E out_dir_acc) w = (Ok tt, w1) /\
      run (os_makedirs E tmp_dir_acc) w1 = (Ok tt, w2) /\
      (fst exec = Raise (missing_sra sra_path) /\
       spawned (snd exec) = spawned w
       <-> dry_run self = false /\ fs w2 !! sra_path = None) /\
      (dry_run self = false -> is_Some (fs w2 !! sra_path) ->
         spawned (snd exec) = spawned w ++ [fasterq_cmd self acc]) /\
      (dry_run self = true ->
         exec = (Ok tt,
                mkWorld (fs w2)
                  (console w ++
                     [py "Running: " ++ join (py " ") (fasterq_cmd self acc);
                      py "fasterq-dump successful for " ++ acc])
                  (spawned w) (appended w) (ticks w)))).
Proof.
  intros out_dir_acc tmp_dir_acc sra_path exec.
  destruct (fasterq_dump_one_dirs E self acc w)
    as [(e & w' & Hrun & Hs & Hbad)
       |(w1 & w2 & H1 & H2 & _ & _ & Hs & Hc & Ha & Ht & _ & Hrun)];
    unfold out_dir_of, tmp_dir_of in *.
  { left. exists e, w'. by split_and!. }
  right. exists w1, w2. fold exec in Hrun.
  change (sra_path_of self acc) with sra_path in *.
  assert (Hreal : dry_run self = false -> is_Some (fs w2 !! sra_path) ->
            spawned (snd exec) = spawned w ++ [fasterq_cmd self acc]).
  { intros Hdry Hsra.
    rewrite Hrun, check_and_convert_present by done. rewrite run_bind.
    pose proof (run_command_real_spawned E (fasterq_cmd self acc) w2) as Hcmd.
    destruct (run (run_command E (fasterq_cmd self acc) false) w2)
      as [[p|e] w3];
      try (unfold print; rewrite run_atomic);
      cbn [snd fst spawned] in *; by rewrite Hcmd, Hs. }
  split_and!; [done|done| |done|].
  - destruct (dry_run self) eqn:Hdry.
    { rewrite Hrun, (check_and_convert_dry E self acc w2 Hdry).
      split; [by intros [? _]|by intros [? _]]. }
    destruct (fs w2 !! sra_path) as [n|] eqn:Hsra.
    + split; [|by intros [_ ?]]. intros [_ Hsp]. exfalso.
      rewrite Hreal in Hsp by eauto.
      apply (f_equal length) in Hsp. rewrite length_app in Hsp.
      cbn [length] in Hsp. lia.
    + rewrite Hrun, check_and_convert_missing by done.
      cbn [fst snd]. by rewrite Hs.
  - intros Hdry. rewrite Hrun, (check_and_convert_dry E self acc w2 Hdry).
    by rewrite Hs, Hc, Ha, Ht.
Qed.

Lemma missing_archive_iff_witness :
  let self := mkDownloader false (py "/out") (py "/tmp") (py "/sra") 2 in
  fst (run (fasterq_dump_one env_quiet self (py "SRR1")) w_empty)
  = Raise (missing_sra (py "/sra/SRR1/SRR1.sra")).
Proof.
  intros self.
  destruct (missing_archive_iff env_quiet self (py "SRR1") w_empty)
    as [(e & w1 & _ & _ & [Hbad|(w0 & _ & Hbad)])
       |(w1 & w2 & H1 & H2 & [_ Hmissing] & _)];
    [by vm_compute in Hbad|by vm_compute in Hbad|].
  apply Hmissing. split; [done|].
  assert (Hw1 : w1 = snd (run (os_makedirs env_quiet (py "/out/SRR1"))
                            w_empty))
    by (change (out_dir self ++ py "/" ++ py "SRR1") with (py "/out/SRR1")
          in H1; by rewrite H1).
  assert (Hw2 : w2 = snd (run (os_makedirs env_quiet (py "/tmp/SRR1")) w1))
    by (change (temp_dir self ++ py "/" ++ py "SRR1") with (py "/tmp/SRR1")
          in H2; by rewrite H2).
  rewrite Hw2, Hw1. by vm_compute.
Defined.

(** C5, as the specification has it, fails.  The run is a real one and
    the archive object is not there, but [<out_dir>/<id>] is a regular
    file: [os.makedirs] raises [FileExistsError] and the step ends with
    that exception, not with the missing-archive failure.  In dry mode,
    on the same store, the conversion does not proceed either. *)
Lemma makedirs_fails_before_check :
  let real := mkDownloader false (py "/out") (py "/tmp") (py "/sra") 2 in
  let dry := mkDownloader true (py "/out") (py "/tmp") (py "/sra") 2 in
  let w := set_fs (<[py "/out/SRR1" := File (py "x")]>
                   (<[py "/out" := Dir]> ∅)) w_empty in
  let e := mkExn FileExistsError (py "[Errno 17] File exists: '/out/SRR1'") in
  fs w !! py "/sra/SRR1/SRR1.sra" = None /\
  fst (run (fasterq_dump_one env_quiet real (py "SRR1")) w) = Raise e /\
  Raise e <> Raise (A := unit) (missing_sra (py "/sra/SRR1/SRR1.sra")) /\
  fst (run (fasterq_dump_one env_quiet dry (py "SRR1")) w) = Raise e /\
  console (snd (run (fasterq_dump_one env_quiet dry (py "SRR1")) w)) = [].
Proof. intros real dry w e. split_and!; by vm_compute. Qed.


Example dry_run_leaves_directories :
  let self := mkDownloader true (py "/out") (py "/tmp") (py "/sra") 2 in
  let exec := run (fasterq_dump_one env_quiet self (py "SRR1")) w_empty in
  fst exec = Ok tt /\
  fs (snd exec) !! py "/out" = Some Dir /\
  fs (snd exec) !! py "/out/SRR1" = Some Dir /\
  fs (snd exec) !! py "/tmp" = Some Dir /\
  fs (snd exec) !! py "/tmp/SRR1" = Some Dir /\
  size (fs (snd exec)) = 4%nat /\
  spawned (snd exec) = [].
Proof. by vm_compute. Qed.

(** [os.makedirs] makes the directories above, too: with [out_dir]
    below the archive path, that path is a directory once the two
    directories are made, and a real run goes on to the conversion
    command. *)
Example makedirs_makes_parents :
  let self := mkDownloader false (py "/sra/SRR1/SRR1.sra") (py "/tmp")
                (py "/sra") 2 in
  let exec := run (fasterq_dump_one env_quiet self (py "SRR1")) w_empty in
  above (py "/sra/SRR1/SRR1.sra/SRR1")
  = [py "/sra"; py "/sra/SRR1"; py "/sra/SRR1/SRR1.sra"] /\
  fst exec = Ok tt /\
  fs (snd exec) !! py "/sra/SRR1/SRR1.sra" = Some Dir /\
  fs (snd exec) !! py "/sra/SRR1/SRR1.sra/SRR1" = Some Dir /\
  spawned (snd exec) = [fasterq_cmd self (py "SRR1")].
Proof. by vm_compute. Qed.

(** A regular file above the directory lets the call fail, with nothing
    made: [os.makedirs] names the first path below the file,
    [Path.mkdir] the directory it was asked for. *)
Example makedirs_below_a_file :
  let w := set_fs (<[py "/out" := File (py "x")]> ∅) w_empty in
  let not_a_directory p :=
    mkExn NotADirectoryError (py "[Errno 20] Not a directory: " ++ quoted p) in
  run (os_makedirs env_quiet (py "/out/SRR1")) w
  = (Raise (not_a_directory (py "/out/SRR1")), w) /\
  run (os_makedirs env_quiet (py "/out/a/b")) w
  = (Raise (not_a_directory (py "/out/a")), w) /\
  run (Path_mkdir env_quiet (py "/out/a/b")) w
  = (Raise (not_a_directory (py "/out/a/b")), w).
Proof. by vm_compute. Qed.

(** ** The audit log *)

Lemma digit_not_LF n : digit n <> LF.
Proof. unfold digit, LF. generalize (n mod 10). intros m. lia. Qed.

Lemma strftime_no_LF d : LF ∉ strftime d.
Proof.
  unfold strftime, pad4, pad2.
  change (py "-") with [45]. change (py " ") with [32].
  change (py ":") with [58]. cbn [app].
  intros Hin.
  repeat (apply elem_of_cons in Hin as [Hin|Hin];
          [first [discriminate Hin
                 |symmetry in Hin; by apply digit_not_LF in Hin]|]).
  by apply elem_of_nil in Hin.
Qed.

Lemma replace_char_no_LF s : LF ∉ replace_char LF (py " ") s.
Proof.
  unfold replace_char. induction s as [|c s IH]; cbn [map concat].
  - apply not_elem_of_nil.
  - rewrite not_elem_of_app. split; [|done].
    destruct (N.eqb_spec c LF) as [->|Hne]; cbv iota.
    + by_compute.
    + rewrite not_elem_of_cons, elem_of_nil. split; [congruence|tauto].
Qed.

Lemma one_line_log_line ts acc status msg :
  LF ∉ ts ->
  (one_line (log_line ts acc status msg) <->
   (LF ∉ acc) /\ (LF ∉ status) /\ (LF ∉ msg)).
Proof.
  intros Hts. unfold log_line.
  replace (ts ++ [TAB] ++ acc ++ [TAB] ++ status ++ [TAB] ++ msg ++ [LF])
    with ((ts ++ [TAB] ++ acc ++ [TAB] ++ status ++ [TAB] ++ msg) ++ [LF])
    by (by rewrite <- !app_assoc).
  assert (Hbody : LF ∉ ts ++ [TAB] ++ acc ++ [TAB] ++ status ++ [TAB] ++ msg
                  <-> (LF ∉ acc) /\ (LF ∉ status) /\ (LF ∉ msg)).
  { rewrite !not_elem_of_app, !not_elem_of_cons, !elem_of_nil.
    unfold LF, TAB. split; [tauto|]. intros (? & ? & ?).
    split_and!; try done; try lia. }
  rewrite <- Hbody. split.
  - intros (body & Heq & Hno). apply app_inj_tail in Heq as [-> _]. done.
  - intros Hno. eexists. split; [reflexivity|done].
Qed.

Lemma run_of_record E self log_path acc w o w' :
  run_of E self log_path acc w (Ok o) w' ->
  fst (fst o) = acc /\
  exists entry, appended w' = appended w ++ [entry] /\
                is_record log_path acc entry.
Proof.
  intros H. inversion H as [d ? ? Happ|d ? ? Happ|d e ? ? Happ| |]; subst;
    (split; [done|]); eexists; (split; [exact Happ|]);
    eexists _, _, _; (split; [reflexivity|]); split.
  - set_solver.
  - by_compute.
  - set_solver.
  - by_compute.
  - set_solver.
  - apply replace_char_no_LF.
Qed.

(** C8, as the code has it.  A call to [append_log] that returns has
    appended to the log file exactly the text timestamp, tab,
    identifier, tab, status, tab, message, newline, with the message as
    it was passed.  This text is one line exactly when identifier,
    status and message hold no newline: [append_log] does not flatten
    the message.  The item pipeline does so before it writes a FAIL
    record, so that every record the pipeline writes carries one of the
    three status tokens and a message without a newline. *)
Theorem append_log_writes_verbatim (E : Env)
    (log_path acc status msg : str) (w : World) :
  let line := log_line (strftime (clock E (ticks w))) acc status msg in
  (forall w', run (append_log E log_path acc status msg) w = (Ok tt, w') ->
     appended w' = appended w ++ [(log_path, line)] /\
     fs w' !! log_path = Some (File (file_text w log_path ++ line))) /\
  (one_line line <-> (LF ∉ acc) /\ (LF ∉ status) /\ (LF ∉ msg)) /\
  (forall out_dir tmp_dir sra_dir threads dry delete_tmp delete_sra o,
     let exec := run (process_one_accession E acc out_dir tmp_dir sra_dir threads
                  dry delete_tmp delete_sra log_path) w in
     fst exec = Ok o ->
     exists entry, appended (snd exec) = appended w ++ [entry] /\
                   is_record log_path acc entry).
Proof.
  intros line. split_and!.
  - intros w' Hok.
    destruct (append_log_run E log_path acc status msg w)
      as [(w1 & Hr & Happ & Hfs & _)|(e & w1 & Hr & _)]; [|congruence].
    assert (w1 = w') as -> by congruence. done.
  - apply one_line_log_line, strftime_no_LF.
  - intros out_dir tmp_dir sra_dir threads dry delete_tmp delete_sra o exec Ho.
    pose proof (process_one_accession_run E acc out_dir tmp_dir sra_dir threads
                  dry delete_tmp delete_sra log_path w) as H.
    cbv zeta in H. fold exec in H. rewrite Ho in H.
    by apply run_of_record in H as [_ H].
Qed.

Lemma append_log_writes_verbatim_witness :
  let line := py "2024-05-17 09:30:00" ++ [TAB] ++ py "SRR1" ++ [TAB]
              ++ py "OK" ++ [TAB] ++ py "prefetch + fasterq-dump completed"
              ++ [LF] in
  appended (snd (run (append_log env_quiet (py "/log") (py "SRR1") (py "OK")
                   (py "prefetch + fasterq-dump completed")) w_empty))
  = [(py "/log", line)] /\ one_line line.
Proof.
  intros line.
  destruct (append_log_writes_verbatim env_quiet (py "/log") (py "SRR1")
              (py "OK") (py "prefetch + fasterq-dump completed") w_empty)
    as (Happ & Hone & _).
  split.
  - eapply proj1, Happ. by vm_compute.
  - apply Hone. split_and!; by_compute.
Defined.

(** C8, as the specification has it, fails.  Called with the message
    [disk], newline, [full], [append_log] writes the newline as it is:
    the record is two lines, not the one line with the newline
    flattened to a space. *)
Lemma append_log_keeps_newlines :
  let msg := py "disk" ++ [LF] ++ py "full" in
  let prefix := py "2024-05-17 09:30:00" ++ [TAB] ++ py "SRR1" ++ [TAB]
                ++ py "FAIL" ++ [TAB] in
  let exec := run (append_log env_quiet (py "/log") (py "SRR1") (py "FAIL") msg)
               w_empty in
  fst exec = Ok tt /\
  appended (snd exec) = [(py "/log", prefix ++ msg ++ [LF])] /\
  prefix ++ msg ++ [LF] <> prefix ++ py "disk full" ++ [LF] /\
  ~ one_line (prefix ++ msg ++ [LF]).
Proof.
  intros msg prefix exec. split_and!; try by vm_compute.
  intros (body & Heq & Hno).
  replace (prefix ++ msg ++ [LF]) with ((prefix ++ msg) ++ [LF]) in Heq
    by (by rewrite <- !app_assoc).
  apply app_inj_tail in Heq as [<- _]. apply Hno.
  by_compute.
Qed.

(** ** Threads that take their steps in turn *)

Section Calculus.
Context {A : Type} (own : str * str -> Prop).

Lemma holds_mono (Q Q' : nat -> result A -> Prop) n w0 r :
  (forall n res, Q n res -> Q' n res) ->
  holds own Q n w0 r -> holds own Q' n w0 r.
Proof.
  intros HQ. revert n w0. induction r as [res w|w k IH]; intros n w0;
    cbn [holds]; intros (new & Happ & Hown & H); exists new;
    split_and!; auto.
Qed.

Lemma holds_shift (Q : nat -> result A -> Prop) n w0 w1 new r :
  appended w1 = appended w0 ++ new -> Forall own new ->
  holds own Q (n + length new)%nat w1 r -> holds own Q n w0 r.
Proof.
  intros Happ Hown. destruct r as [res w|w k]; cbn [holds];
    intros (new' & Happ' & Hown' & H); exists (new ++ new');
    rewrite length_app, Nat.add_assoc;
    (split_and!; [by rewrite Happ', Happ, <- app_assoc
                 |by apply Forall_app|done]).
Qed.


Lemma safe_ret (Q : nat -> result A -> Prop) n a :
  Q n (Ok a) -> safe own Q n (ret a).
Proof.
  intros HQ w. exists []. by rewrite app_nil_r, Nat.add_0_r.
Qed.

Lemma safe_raise (Q : nat -> result A -> Prop) n e :
  Q n (Raise e) -> safe own Q n (raise e).
Proof.
  intros HQ w. exists []. by rewrite app_nil_r, Nat.add_0_r.
Qed.

Lemma safe_atomic (Q : nat -> result A -> Prop) n
    (step : World -> result A * World) :
  (forall w, exists new,
      appended (snd (step w)) = appended w ++ new /\ Forall own new /\
      Q (n + length new)%nat (fst (step w))) ->
  safe own Q n (atomic step).
Proof.
  intros H w. unfold atomic. specialize (H w).
  destruct (step w) as [r w']. destruct H as (new & Happ & Hown & HQ).
  exists new. split_and!; [done|done|]. intros w''. exists [].
  by rewrite app_nil_r, Nat.add_0_r.
Qed.

Lemma safe_mono (Q Q' : nat -> result A -> Prop) n m :
  (forall n res, Q n res -> Q' n res) -> safe own Q n m -> safe own Q' n m.
Proof. intros HQ H w. eapply holds_mono; eauto. Qed.

Lemma holds_try (Q : nat -> result A -> Prop) (h : exn -> M A) r n w0 :
  holds own (fun n' res => match res with
                           | Ok a => Q n' (Ok a)
                           | Raise e => safe own Q n' (h e)
                           end) n w0 r ->
  holds own Q n w0 (try_res r h).
Proof.
  revert n w0. induction r as [[a|e] w1|w1 k IH]; intros n w0;
    cbn [holds try_res].
  - done.
  - intros (new & Happ & Hown & Hh). eapply holds_shift; eauto.
  - intros (new & Happ & Hown & Hk). exists new. split_and!; auto.
Qed.

Lemma safe_try (Q : nat -> result A -> Prop) n (m : M A) (h : exn -> M A) :
  safe own (fun n' res => match res with
                          | Ok a => Q n' (Ok a)
                          | Raise e => safe own Q n' (h e)
                          end) n m ->
  safe own Q n (try_except m h).
Proof. intros H w. apply holds_try, H. Qed.

End Calculus.

Lemma holds_bind {A B} own (Q : nat -> result B -> Prop) (k : A -> M B)
    r n w0 :
  holds own (fun n' res => match res with
                           | Ok a => safe own Q n' (k a)
                           | Raise e => Q n' (Raise e)
                           end) n w0 r ->
  holds own Q n w0 (bind_res r k).
Proof.
  revert n w0. induction r as [[a|e] w1|w1 c IH]; intros n w0;
    cbn [holds bind_res].
  - intros (new & Happ & Hown & Hk). eapply holds_shift; eauto.
  - done.
  - intros (new & Happ & Hown & Hk). exists new. split_and!; auto.
Qed.

Lemma safe_bind {A B} own (Q : nat -> result B -> Prop) n
    (m : M A) (k : A -> M B) :
  safe own (fun n' res => match res with
                          | Ok a => safe own Q n' (k a)
                          | Raise e => Q n' (Raise e)
                          end) n m ->
  safe own Q n (bind m k).
Proof. intros H w. apply holds_bind, H. Qed.

Lemma quiet_ret {A} P (a : A) : quiet P (ret a).
Proof. intros own Q n Hok _. by apply safe_ret. Qed.

Lemma quiet_raise {A} (P : exn -> Prop) e : P e -> quiet P (@raise A e).
Proof. intros HP own Q n _ Hraise. apply safe_raise. by apply Hraise. Qed.

Lemma quiet_bind {A B} P (m : M A) (k : A -> M B) :
  quiet P m -> (forall a, quiet P (k a)) -> quiet P (bind m k).
Proof.
  intros Hm Hk own Q n Hok Hraise. apply safe_bind. apply Hm.
  - intros a. by apply Hk.
  - done.
Qed.

Lemma quiet_try {A} P P' (m : M A) (h : exn -> M A) :
  quiet P' m -> (forall e, quiet P (h e)) -> quiet P (try_except m h).
Proof.
  intros Hm Hh own Q n Hok Hraise. apply safe_try. apply Hm.
  - done.
  - intros e _. by apply Hh.
Qed.

Lemma quiet_mono {A} (P P' : exn -> Prop) (m : M A) :
  (forall e, P e -> P' e) -> quiet P m -> quiet P' m.
Proof. intros HP Hm own Q n Hok Hraise. apply Hm; auto. Qed.

Lemma quiet_atomic {A} (P : exn -> Prop) (step : World -> result A * World) :
  (forall w, appended (snd (step w)) = appended w /\
             forall e, fst (step w) = Raise e -> P e) ->
  quiet P (atomic step).
Proof.
  intros H own Q n Hok Hraise. apply safe_atomic. intros w.
  destruct (H w) as [Happ HP]. exists []. rewrite app_nil_r, Nat.add_0_r.
  split_and!; [done|done|].
  destruct (fst (step w)) as [a|e]; auto.
Qed.


(** ** The pipeline among other threads *)

Lemma quiet_step {A} (step : World -> result A * World) :
  (forall w, appended (snd (step w)) = appended w) ->
  quiet (raised_by (atomic step)) (atomic step).
Proof.
  intros H. apply quiet_atomic. intros w. split; [done|].
  intros e He. exists w, (snd (step w)). rewrite run_atomic.
  by destruct (step w) as [r w']; simpl in *; subst.
Qed.

Lemma quiet_any {A} (P : exn -> Prop) (m : M A) :
  quiet P m -> quiet (fun _ => True) m.
Proof. by apply quiet_mono. Qed.

Ltac quiet_prim :=
  cbv beta delta [print now os_path_exists os_path_getsize mkdir_p
    os_makedirs Path_mkdir shutil_rmtree];
  apply quiet_step; let w := fresh "w" in
  intros w; cbv beta zeta delta [set_fs]; repeat case_match; reflexivity.

Section Quiet.
Context (E : Env).

Lemma quiet_print line : quiet (raised_by (print line)) (print line).
Proof. quiet_prim. Qed.
Lemma quiet_now : quiet (raised_by (now E)) (now E).
Proof. quiet_prim. Qed.
Lemma quiet_exists p : quiet (raised_by (os_path_exists p)) (os_path_exists p).
Proof. quiet_prim. Qed.
Lemma quiet_getsize p :
  quiet (raised_by (os_path_getsize E p)) (os_path_getsize E p).
Proof. quiet_prim. Qed.
Lemma quiet_mkdir leaf p :
  quiet (raised_by (mkdir_p E leaf p)) (mkdir_p E leaf p).
Proof. quiet_prim. Qed.
Lemma quiet_rmtree p :
  quiet (raised_by (shutil_rmtree E p)) (shutil_rmtree E p).
Proof. quiet_prim. Qed.

Lemma quiet_subprocess_run cmd : quiet (fun _ => True) (subprocess_run E cmd).
Proof.
  unfold subprocess_run. apply quiet_bind; [|intros _];
    apply quiet_atomic; intros w; (split; [|done]); [done|].
  by destruct (tool E cmd w).
Qed.

End Quiet.

Ltac quiet_step_tac :=
  match goal with
  | |- quiet _ (bind _ _) => apply quiet_bind; [|intros ?]
  | |- quiet _ (if ?b then _ else _) => destruct b
  | |- quiet _ (ret _) => apply quiet_ret
  | |- quiet _ (raise _) => by apply quiet_raise
  | |- quiet _ (print _) => eapply quiet_any, quiet_print
  | |- quiet _ (os_path_exists _) => eapply quiet_any, quiet_exists
  | |- quiet _ (os_makedirs _ _) => eapply quiet_any, quiet_mkdir
  | |- quiet _ (shutil_rmtree _ _) => eapply quiet_any, quiet_rmtree
  | |- quiet _ (subprocess_run _ _) => apply quiet_subprocess_run
  end.
Ltac quiet_auto := repeat quiet_step_tac.

Section QuietScript.
Context (E : Env).

Lemma quiet_run_command cmd dry : quiet (fun _ => True) (run_command E cmd dry).
Proof. unfold run_command. quiet_auto. Qed.

Lemma quiet_prefetch_one self acc :
  quiet (fun _ => True) (prefetch_one E self acc).
Proof. unfold prefetch_one. quiet_auto. apply quiet_run_command. Qed.

Lemma quiet_fasterq_dump_one self acc :
  quiet (fun _ => True) (fasterq_dump_one E self acc).
Proof.
  unfold fasterq_dump_one. quiet_auto. apply quiet_run_command.
Qed.

Lemma quiet_safe_rmtree path dry :
  quiet (fun _ => True) (safe_rmtree E path dry).
Proof. unfold safe_rmtree. quiet_auto. Qed.

Lemma quiet_exists_nonempty p :
  quiet (raised_by (os_path_getsize E p)) (exists_nonempty E p).
Proof.
  unfold exists_nonempty. apply quiet_bind.
  - eapply quiet_mono, quiet_exists. intros e (w & w' & He).
    unfold os_path_exists in He. by rewrite run_atomic in He.
  - intros [|]; [|apply quiet_ret].
    apply quiet_bind; [apply quiet_getsize|intros ?; apply quiet_ret].
Qed.

Lemma quiet_is_done self acc :
  quiet (check_raised E self acc) (is_done E self acc).
Proof.
  unfold is_done. apply quiet_bind.
  - eapply quiet_mono, quiet_exists_nonempty. intros e He. by left.
  - intros [|]; [apply quiet_ret|]. apply quiet_bind.
    + eapply quiet_mono, quiet_exists_nonempty. intros e He. by right.
    + intros [|]; apply quiet_ret.
Qed.

Lemma safe_append_log own (Q : nat -> result unit -> Prop) n
    log_path acc status msg :
  (forall d, own (log_path, log_line (strftime d) acc status msg)) ->
  Q (S n) (Ok tt) ->
  (forall e, log_raised E log_path e -> Q n (Raise e)) ->
  safe own Q n (append_log E log_path acc status msg).
Proof.
  intros Hown Hok Hraise. unfold append_log.
  apply safe_bind, quiet_now.
  2:{ intros e (w & w' & He). unfold now in He.
      by rewrite run_atomic in He. }
  intros t. apply safe_bind, quiet_mkdir.
  2:{ intros e He. apply Hraise. by left. }
  intros []. unfold file_append. apply safe_atomic. intros w. cbv zeta.
  destruct (fault E (SysAppend log_path) w) as [e|] eqn:Hf.
  { exists []. rewrite app_nil_r, Nat.add_0_r. split_and!; [done|done|].
    apply Hraise. right. eexists [], w, w. unfold file_append.
    rewrite run_atomic. cbv zeta. by rewrite Hf. }
  destruct (fs w !! log_path) as [[c|]|] eqn:Hp.
  - eexists [_]. cbn [snd fst appended length]. rewrite Nat.add_1_r.
    split_and!; [done|by constructor|done].
  - exists []. rewrite app_nil_r, Nat.add_0_r. split_and!; [done|done|].
    apply Hraise. right. eexists [], w, w. unfold file_append.
    rewrite run_atomic. cbv zeta. by rewrite Hf, Hp.
  - eexists [_]. cbn [snd fst appended length]. rewrite Nat.add_1_r.
    split_and!; [done|by constructor|done].
Qed.

Lemma process_one_accession_safe
    acc out_dir tmp_dir sra_dir threads dry delete_tmp delete_sra log_path :
  let self := mkDownloader dry out_dir tmp_dir sra_dir threads in
  safe (is_record log_path acc) (pipeline_post E self log_path acc) 0
    (process_one_accession E acc out_dir tmp_dir sra_dir threads dry
       delete_tmp delete_sra log_path).
Proof.
  intros self. unfold process_one_accession. fold self.
  set (own := is_record log_path acc).
  set (post := pipeline_post E self log_path acc).
  assert (Hlog : forall e, log_raised E log_path e -> post 0%nat (Raise e)).
  { intros e He. split; [done|by left]. }
  apply safe_bind, quiet_is_done.
  2:{ intros e He. split; [done|by right]. }
  intros [|].
  { apply safe_bind, safe_append_log; [|by apply safe_ret|done].
    intros d. eexists d, _, _. split_and!; [done|set_solver|by_compute]. }
  assert (Hh : forall e,
    safe own post 0
      (append_log E log_path acc (py "FAIL")
         (replace_char LF (py " ") (exn_msg e));;;
       ret (acc, false, exn_msg e))).
  { intros e. apply safe_bind, safe_append_log; [|by apply safe_ret|done].
    intros d. eexists d, _, _.
    split_and!; [done|set_solver|apply replace_char_no_LF]. }
  apply safe_try.
  apply safe_bind, quiet_prefetch_one; [intros []|intros e _; apply Hh].
  apply safe_bind, quiet_fasterq_dump_one; [intros []|intros e _; apply Hh].
  cbv zeta.
  apply safe_bind.
  apply (quiet_any (fun _ => True));
    [destruct delete_tmp; [apply quiet_safe_rmtree|apply quiet_ret]
    |intros []|intros e _; apply Hh].
  apply safe_bind.
  apply (quiet_any (fun _ => True));
    [destruct delete_sra; [apply quiet_safe_rmtree|apply quiet_ret]
    |intros []|intros e _; apply Hh].
  apply safe_bind, safe_append_log; [|by apply safe_ret|intros e _; apply Hh].
  intros d. eexists d, _, _. split_and!; [done|set_solver|by_compute].
Qed.

End QuietScript.

(** ** The pool of worker threads *)

Lemma count_app i l1 l2 : count i (l1 ++ l2) = (count i l1 + count i l2)%nat.
Proof. unfold count, owners. by rewrite map_app, count_occ_app. Qed.

Lemma count_tagged i j new :
  count i (tagged j new) = if decide (j = i) then length new else 0%nat.
Proof.
  unfold count, owners, tagged. destruct (decide (j = i)) as [->|Hne].
  - induction new as [|e new IH]; cbn [map fst count_occ length]; [done|].
    destruct (Nat.eq_dec i i); [by f_equal|done].
  - induction new as [|e new IH]; cbn [map fst count_occ length]; [done|].
    by destruct (Nat.eq_dec j i).
Qed.

Lemma snd_tagged i new : map snd (tagged i new) = new.
Proof. unfold tagged. induction new; cbn; congruence. Qed.

Section Invariant.
Context (own : nat -> str * str -> Prop).
Context (Q : nat -> nat -> result outcome -> Prop).

Lemma pool_inv_init w calls :
  (forall i call, calls !! i = Some call -> safe (own i) (Q i) 0 call) ->
  pool_inv own Q w (pool_init w calls) [].
Proof.
  intros Hsafe. split; cbn.
  - by rewrite app_nil_r.
  - constructor.
  - constructor.
  - intros i t Ht. rewrite list_lookup_fmap in Ht.
    destruct (calls !! i) as [call|] eqn:Hc; [|done].
    injection Ht as <-. cbn. intros w'. by apply (Hsafe i).
  - constructor.
  - intros i. split; [by intros ?%elem_of_nil|].
    intros (r & Hr). rewrite list_lookup_fmap in Hr.
    by destruct (calls !! i).
Qed.

Lemma pool_inv_advance w0 w ts done i k w' t' done' new records :
  pool_inv own Q w0 (mkPool w ts done) records ->
  ts !! i = Some (Running k) ->
  appended w' = appended w ++ new ->
  Forall (own i) new ->
  thread_inv own Q i (count i records + length new) t' ->
  (is_finished t' -> done' = done ++ [i]) ->
  (~ is_finished t' -> done' = done) ->
  pool_inv own Q w0 (mkPool w' (<[i := t']> ts) done') (records ++ tagged i new).
Proof.
  intros [Happ Hown Hrange Hthreads Hnodup Hdone] Hi Hnew Hownnew Ht'
    Hfin Hnfin.
  cbn in *. pose proof (lookup_lt_Some _ _ _ Hi) as Hlt.
  assert (Hnotdone : i ∉ done).
  { intros (r & Hr)%Hdone. congruence. }
  split; cbn.
  - by rewrite Hnew, Happ, map_app, snd_tagged, <- app_assoc.
  - apply Forall_app. split; [done|].
    unfold tagged. apply Forall_fmap. by eapply Forall_impl.
  - rewrite length_insert. apply Forall_app. split; [done|].
    unfold tagged. apply Forall_fmap, Forall_forall. by intros.
  - intros j t Hj. rewrite count_app, count_tagged.
    destruct (decide (i = j)) as [<-|Hne].
    + rewrite list_lookup_insert_eq in Hj by done. by injection Hj as <-.
    + rewrite list_lookup_insert_ne in Hj by done.
      rewrite Nat.add_0_r. by apply Hthreads.
  - destruct (decide (is_finished t')) as [Hf|Hf].
    + rewrite (Hfin Hf). apply NoDup_app. split_and!; [done| |apply NoDup_singleton].
      intros x Hx ->%list_elem_of_singleton. done.
    + by rewrite (Hnfin Hf).
  - intros j. destruct (decide (i = j)) as [<-|Hne].
    + rewrite list_lookup_insert_eq by done.
      destruct (decide (is_finished t')) as [Hf|Hf].
      * rewrite (Hfin Hf). split; [intros _|set_solver].
        destruct t'; try done. eauto.
      * rewrite (Hnfin Hf). split; [done|].
        intros (r & [= ->]). by destruct Hf.
    + rewrite list_lookup_insert_ne by done. rewrite <- Hdone.
      destruct (decide (is_finished t')) as [Hf|Hf].
      * rewrite (Hfin Hf). set_solver.
      * by rewrite (Hnfin Hf).
Qed.

Lemma pool_inv_step jobs w0 p p' records :
  pool_step jobs p p' -> pool_inv own Q w0 p records ->
  length (pool_threads p') = length (pool_threads p) /\
  exists records', pool_inv own Q w0 p' records'.
Proof.
  intros Hstep Hinv.
  destruct Hstep as [w ts done i call Hi _ _|w ts done i k w' k' Hi Hk
                    |w ts done i k w' r Hi Hk];
    cbn; (split; [by rewrite length_insert|]).
  - exists records. destruct Hinv as [Happ Hown Hrange Hthreads Hnodup Hdone].
    cbn in *. pose proof (lookup_lt_Some _ _ _ Hi) as Hlt.
    split; cbn; try done.
    + by rewrite length_insert.
    + intros j t Hj. destruct (decide (i = j)) as [<-|Hne].
      * rewrite list_lookup_insert_eq in Hj by done. injection Hj as <-.
        by apply (Hthreads i (Queued call)).
      * rewrite list_lookup_insert_ne in Hj by done. by apply Hthreads.
    + intros j. rewrite Hdone. destruct (decide (i = j)) as [<-|Hne].
      * rewrite list_lookup_insert_eq by done. rewrite Hi.
        split; intros (r & [=]).
      * by rewrite list_lookup_insert_ne by done.
  - pose proof (inv_threads _ _ _ _ _ Hinv i _ Hi w) as Hh. cbn in Hh.
    rewrite Hk in Hh. destruct Hh as (new & Hnew & Hownnew & Hnext).
    exists (records ++ tagged i new).
    by apply (pool_inv_advance w0 w ts done i k w' (Running k') done new
                records Hinv Hi Hnew Hownnew Hnext).
  - pose proof (inv_threads _ _ _ _ _ Hinv i _ Hi w) as Hh. cbn in Hh.
    rewrite Hk in Hh. destruct Hh as (new & Hnew & Hownnew & Hnext).
    exists (records ++ tagged i new).
    apply (pool_inv_advance w0 w ts done i k w' (Finished r) (done ++ [i])
             new records Hinv Hi Hnew Hownnew Hnext); [done|].
    by intros [].
Qed.

Lemma pool_inv_steps jobs w0 p p' records :
  rtc (pool_step jobs) p p' -> pool_inv own Q w0 p records ->
  length (pool_threads p') = length (pool_threads p) /\
  exists records', pool_inv own Q w0 p' records'.
Proof.
  intros Hsteps. revert records.
  induction Hsteps as [p|p p1 p' Hstep _ IH]; intros records Hinv.
  - eauto.
  - destruct (pool_inv_step _ _ _ _ _ Hstep Hinv) as (Hlen & records1 & Hinv1).
    destruct (IH _ Hinv1) as (Hlen' & records' & Hinv').
    split; [congruence|eauto].
Qed.

End Invariant.

(** *** What the invariant gives when every call has finished *)

Lemma futures_of_completed p :
  (forall i, i ∈ pool_completed p ->
             exists r, pool_threads p !! i = Some (Finished r)) ->
  Forall2 (fun i r => pool_threads p !! i = Some (Finished r))
          (pool_completed p) (futures_of p).
Proof.
  unfold futures_of. induction (pool_completed p) as [|i l IH]; intros H.
  - constructor.
  - cbn [omap list_omap]. destruct (H i) as (r & Hr); [apply list_elem_of_here|].
    unfold future_of at 1. rewrite Hr. constructor; [done|].
    apply IH. intros j Hj. apply H. by apply list_elem_of_further.
Qed.

Lemma count_occ_seq K x :
  count_occ Nat.eq_dec (seq 0 K) x = if decide (x < K)%nat then 1%nat else 0%nat.
Proof.
  case_decide as Hx.
  - apply NoDup_count_occ'; [apply seq_NoDup|]. apply in_seq. lia.
  - apply count_occ_not_In. rewrite in_seq. lia.
Qed.

Lemma map_nth_seq (l : list str) :
  map (fun i => nth i l []) (seq 0 (length l)) = l.
Proof.
  apply list_eq. intros i. rewrite list_lookup_fmap.
  destruct (decide (i < length l)%nat) as [Hi|Hi].
  - rewrite lookup_seq_lt by done. cbn.
    destruct (lookup_lt_is_Some_2 l i Hi) as (x & Hx).
    by rewrite Hx, (nth_lookup_Some _ _ _ _ Hx).
  - rewrite lookup_seq_ge by lia. cbn. symmetry. apply lookup_ge_None. lia.
Qed.

Section Finished.
Context (own : nat -> str * str -> Prop).
Context (Q : nat -> nat -> result outcome -> Prop).
Context (w0 : World) (p : Pool) (records : list (nat * (str * str))).
Context (Hinv : pool_inv own Q w0 p records).
Context (Hfin : Forall is_finished (pool_threads p)).

Lemma completed_all :
  pool_completed p ≡ₚ seq 0 (length (pool_threads p)).
Proof.
  apply NoDup_Permutation; [apply Hinv|apply NoDup_seq|].
  intros i. rewrite (inv_completed _ _ _ _ _ Hinv), elem_of_seq. split.
  - intros (r & Hr). apply lookup_lt_Some in Hr. lia.
  - intros [_ Hi]. destruct (lookup_lt_is_Some_2 (pool_threads p) i) as (t & Ht);
      [lia|].
    pose proof (proj1 (Forall_lookup _ _) Hfin i t Ht) as Hf.
    destruct t; try done. eauto.
Qed.

Lemma futures_threads :
  Forall2 (fun i r => pool_threads p !! i = Some (Finished r))
          (pool_completed p) (futures_of p).
Proof.
  apply futures_of_completed. intros i. apply (inv_completed _ _ _ _ _ Hinv).
Qed.

Lemma futures_length : length (futures_of p) = length (pool_threads p).
Proof.
  rewrite <- (Forall2_length _ _ _ futures_threads).
  by rewrite completed_all, length_seq.
Qed.


Lemma thread_future i :
  (i < length (pool_threads p))%nat ->
  exists r, r ∈ futures_of p /\ Q i (count i records) r.
Proof.
  intros Hi.
  assert (Hc : i ∈ pool_completed p).
  { rewrite completed_all, elem_of_seq. lia. }
  apply list_elem_of_lookup in Hc as (j & Hj).
  destruct (Forall2_lookup_l _ _ _ _ _ futures_threads Hj) as (r & Hr & Ht).
  exists r. split; [by eapply list_elem_of_lookup_2|].
  by apply (inv_threads _ _ _ _ _ Hinv i (Finished r)).
Qed.

(** If every call has appended exactly once, the records are one per
    call *)
Lemma owners_all :
  (forall i, (i < length (pool_threads p))%nat -> count i records = 1%nat) ->
  owners records ≡ₚ seq 0 (length (pool_threads p)).
Proof.
  intros Hone. apply (Permutation_count_occ Nat.eq_dec). intros i.
  rewrite count_occ_seq. case_decide as Hi.
  - by apply Hone.
  - apply count_occ_not_In. intros Hin. apply Hi.
    apply list_elem_of_In in Hin. unfold owners in Hin.
    apply list_elem_of_fmap in Hin as (x & -> & Hx).
    by apply (proj1 (Forall_forall _ _) (inv_range _ _ _ _ _ Hinv) x).
Qed.

Lemma records_owned :
  Forall2 (fun i entry => own i entry) (owners records) (map snd records).
Proof.
  pose proof (inv_own _ _ _ _ _ Hinv) as H. unfold owners.
  clear Hinv. induction H as [|x l Hx _ IH]; cbn [map]; by constructor.
Qed.

End Finished.

(** *** The sequential pool is one of the schedules *)

Lemma thread_runs jobs i (r : Res outcome) :
  forall w ts done k,
    ts !! i = Some (Running k) -> k w = r ->
    rtc (pool_step jobs) (mkPool w ts done)
      (mkPool (snd (run_res r)) (<[i := Finished (fst (run_res r))]> ts)
              (done ++ [i])).
Proof.
  induction r as [res w'|w' k' IH]; intros w ts done k Hi Hk.
  - apply rtc_once. cbn [run_res fst snd]. by eapply step_done.
  - eapply rtc_l; [by eapply step_yield|].
    cbn [run_res].
    pose proof (lookup_lt_Some _ _ _ Hi) as Hlt.
    specialize (IH w' w' (<[i := Running k']> ts) done k').
    rewrite list_insert_insert_eq in IH. apply IH; [|done].
    by rewrite list_lookup_insert_eq.
Qed.

Lemma filter_running_none rs calls :
  filter is_running (map Finished rs ++ map Queued calls) = [].
Proof.
  rewrite filter_app.
  assert (H1 : filter is_running (map Finished rs) = []).
  { induction rs as [|r rs IH]; [done|]. cbn [map].
    rewrite filter_cons. by case_decide. }
  assert (H2 : filter is_running (map Queued calls) = []).
  { induction calls as [|c calls IH]; [done|]. cbn [map].
    rewrite filter_cons. by case_decide. }
  by rewrite H1, H2.
Qed.

Lemma pool_sequential jobs calls :
  (0 < jobs)%nat ->
  forall w rs done,
    rtc (pool_step jobs)
      (mkPool w (map Finished rs ++ map Queued calls) done)
      (mkPool (snd (run_futures calls w))
              (map Finished (rs ++ fst (run_futures calls w)))
              (done ++ seq (length rs) (length calls))).
Proof.
  intros Hjobs. induction calls as [|call rest IH]; intros w rs done.
  - cbn [run_futures map fst snd length seq]. rewrite !app_nil_r. apply rtc_refl.
  - cbn [run_futures map length seq].
    set (i := length rs).
    set (ts := map Finished rs ++ Queued call :: map Queued rest).
    assert (Hi : ts !! i = Some (Queued call)).
    { unfold ts, i. rewrite lookup_app_r by (rewrite length_map; lia).
      by rewrite length_map, Nat.sub_diag. }
    eapply rtc_l.
    { apply (step_start jobs w ts done i call Hi).
      - intros j t Hj Ht. unfold ts in Ht.
        rewrite lookup_app_l in Ht by (rewrite length_map; unfold i in Hj; lia).
        rewrite list_lookup_fmap in Ht.
        destruct (rs !! j); [|done]. injection Ht as <-. by intros [].
      - unfold ts. change (Queued call :: map Queued rest)
          with (map Queued (call :: rest)).
        by rewrite filter_running_none. }
    assert (Hts1 : <[i := Running call]> ts
                   = map Finished rs ++ Running call :: map Queued rest).
    { unfold ts, i. rewrite insert_app_r_alt by (rewrite length_map; lia).
      by rewrite length_map, Nat.sub_diag. }
    rewrite Hts1.
    eapply rtc_trans.
    { apply (thread_runs jobs i (call w) w _ done call); [|done].
      unfold i. rewrite lookup_app_r by (rewrite length_map; lia).
      by rewrite length_map, Nat.sub_diag. }
    fold (run call w). destruct (run call w) as [r w1]. cbn [fst snd].
    assert (Hts2 : <[i := Finished r]>
                     (map Finished rs ++ Running call :: map Queued rest)
                   = map Finished (rs ++ [r]) ++ map Queued rest).
    { unfold i. rewrite insert_app_r_alt by (rewrite length_map; lia).
      rewrite length_map, Nat.sub_diag, map_app. cbn [map].
      by rewrite <- app_assoc. }
    rewrite Hts2. specialize (IH w1 (rs ++ [r]) (done ++ [i])).
    destruct (run_futures rest w1) as [rs' w2]. cbn [fst snd] in *.
    rewrite <- !app_assoc in IH. cbn [app] in IH.
    rewrite length_app, Nat.add_1_r in IH. exact IH.
Qed.

Lemma futures_of_sequential w rs :
  futures_of (mkPool w (map Finished rs) (seq 0 (length rs))) = rs.
Proof.
  set (p := mkPool w (map Finished rs) (seq 0 (length rs))).
  assert (H : Forall2 (fun i r => pool_threads p !! i = Some (Finished r))
                      (pool_completed p) (futures_of p)).
  { apply futures_of_completed. cbn. intros i [_ Hi]%elem_of_seq.
    rewrite list_lookup_fmap.
    destruct (lookup_lt_is_Some_2 rs i) as (r & Hr); [lia|].
    rewrite Hr. eauto. }
  pose proof (Forall2_length _ _ _ H) as Hlen.
  cbn [p pool_completed pool_threads] in Hlen, H.
  rewrite length_seq in Hlen.
  apply list_eq. intros j.
  destruct (decide (j < length rs)%nat) as [Hj|Hj].
  - destruct (Forall2_lookup_l _ _ _ j j H) as (r & Hr & Ht).
    { by rewrite lookup_seq_lt. }
    rewrite Hr. rewrite list_lookup_fmap in Ht.
    destruct (rs !! j); [|done]. by injection Ht as ->.
  - rewrite (proj2 (lookup_ge_None _ _)) by lia.
    symmetry. apply lookup_ge_None. lia.
Qed.

(** The run of the calls one after the other, in the order of
    submission, is a run of the pool *)
Lemma pool_runs_sequential jobs calls w :
  (0 < jobs)%nat ->
  let p := mkPool (snd (run_futures calls w))
                  (map Finished (fst (run_futures calls w)))
                  (seq 0 (length calls)) in
  pool_runs jobs w calls p /\
  futures_of p = fst (run_futures calls w) /\
  pool_world p = snd (run_futures calls w).
Proof.
  intros Hjobs p.
  assert (Hlen : forall calls w,
            length (fst (run_futures calls w)) = length calls).
  { clear. induction calls as [|c calls IH]; intros w; [done|].
    cbn [run_futures]. destruct (run c w) as [r w1].
    specialize (IH w1). destruct (run_futures calls w1) as [rs w2].
    cbn [fst length] in *. by rewrite IH. }
  split_and!.
  - split.
    + apply (pool_sequential jobs calls Hjobs w [] []).
    + cbn. apply Forall_fmap, Forall_forall. by intros.
  - unfold p. rewrite <- (Hlen calls w). apply futures_of_sequential.
  - done.
Qed.

(** *** The pool on the calls of the scheduler *)

Section Schedule.
Context (E : Env) (cfg : Config) (acc_list : list str).


Lemma pool_reaches jobs w p :
  rtc (pool_step jobs) (pool_init w (map (submit E cfg) acc_list)) p ->
  length (pool_threads p) = length acc_list /\
  exists records, pool_inv (record_of cfg acc_list) (post_of E cfg acc_list) w p records.
Proof.
  intros Hsteps.
  assert (Hinit : pool_inv (record_of cfg acc_list) (post_of E cfg acc_list) w
                    (pool_init w (map (submit E cfg) acc_list)) []).
  { apply pool_inv_init. intros i call Hcall.
    rewrite list_lookup_fmap in Hcall.
    destruct (acc_list !! i) as [acc|] eqn:Hacc; [|done].
    injection Hcall as <-. unfold record_of, post_of.
    rewrite (nth_lookup_Some _ _ _ _ Hacc).
    apply process_one_accession_safe. }
  destruct (pool_inv_steps (record_of cfg acc_list) (post_of E cfg acc_list) jobs w _ _ _ Hsteps Hinit) as (Hlen & Hrec).
  split; [|done]. rewrite Hlen. cbn. by rewrite !length_map.
Qed.


Lemma pool_all_ok jobs w p outcomes :
  pool_runs jobs w (map (submit E cfg) acc_list) p ->
  futures_of p = map Ok outcomes ->
  length outcomes = length acc_list /\
  map (fun o : outcome => fst (fst o)) outcomes ≡ₚ acc_list /\
  exists order new,
    appended (pool_world p) = appended w ++ new /\
    length new = length acc_list /\
    order ≡ₚ acc_list /\
    Forall2 (is_record (log_path_of cfg)) order new.
Proof.
  intros [Hsteps Hfin] Hok.
  destruct (pool_reaches _ _ _ Hsteps) as (Hlen & records & Hinv).
  pose proof (futures_threads (record_of cfg acc_list) (post_of E cfg acc_list) w p records Hinv) as Hft.
  pose proof (completed_all (record_of cfg acc_list) (post_of E cfg acc_list) w p records Hinv Hfin) as Hperm.
  pose proof (futures_length (record_of cfg acc_list) (post_of E cfg acc_list) w p records Hinv Hfin) as Hflen.
  rewrite Hok, length_map in Hflen. rewrite Hlen in Hperm, Hflen.
  assert (Hone : forall i, (i < length (pool_threads p))%nat ->
                           count i records = 1%nat).
  { intros i Hi.
    destruct (thread_future (record_of cfg acc_list) (post_of E cfg acc_list) w p records Hinv Hfin i Hi)
      as (r & Hr & Hq).
    rewrite Hok in Hr. apply list_elem_of_fmap in Hr as (o & -> & _).
    by destruct Hq. }
  pose proof (owners_all (record_of cfg acc_list) (post_of E cfg acc_list) w p records Hinv Hone) as Hown.
  rewrite Hlen in Hown.
  split_and!; [done| |].
  - assert (Hids : map (fun o : outcome => fst (fst o)) outcomes
                   = map (fun i => nth i acc_list []) (pool_completed p)).
    { rewrite Hok in Hft. clear -Hft Hinv.
      pose proof (inv_threads _ _ _ _ _ Hinv) as Hth.
      revert Hft. generalize (pool_completed p) as done.
      induction outcomes as [|o os IH]; intros done Hft.
      - by inversion Hft.
      - inversion Hft as [|i r l k Hi Hrest]; subst. cbn [map].
        f_equal; [|by apply IH].
        by destruct (Hth i _ Hi) as [_ ?]. }
    rewrite Hids, Hperm. by rewrite map_nth_seq.
  - exists (map (fun i => nth i acc_list []) (owners records)),
           (map snd records).
    split_and!.
    + apply Hinv.
    + rewrite length_map.
      rewrite <- (length_map fst). fold (owners records).
      by rewrite Hown, length_seq.
    + rewrite Hown. by rewrite map_nth_seq.
    + apply Forall2_fmap_l. apply (records_owned (record_of cfg acc_list) (post_of E cfg acc_list) w p records Hinv).
Qed.

End Schedule.

(** *** The results of the calls of a finished pool *)

Lemma finished_results ts :
  Forall is_finished ts -> exists rs, ts = map Finished rs.
Proof.
  induction 1 as [|t ts Ht _ (rs & ->)]; [by exists []|].
  destruct t as [call|k|r]; try done. by exists (r :: rs).
Qed.

Lemma omap_seq_lookup {A} (f : nat -> option A) (l : list A) j :
  (forall i, (i < length l)%nat -> f (j + i)%nat = l !! i) ->
  omap f (seq j (length l)) = l.
Proof.
  revert j. induction l as [|a l IH]; intros j Hf; [done|].
  cbn [length seq omap list_omap].
  pose proof (Hf 0%nat ltac:(cbn; lia)) as H0.
  rewrite Nat.add_0_r in H0. rewrite H0. cbn. f_equal.
  apply IH. intros i Hi.
  pose proof (Hf (S i) ltac:(cbn; lia)) as Hs.
  change ((a :: l) !! S i) with (l !! i) in Hs.
  rewrite <- Hs. f_equal. lia.
Qed.

Lemma futures_of_results p rs :
  pool_threads p = map Finished rs ->
  pool_completed p ≡ₚ seq 0 (length rs) ->
  futures_of p ≡ₚ rs.
Proof.
  intros Hts Hperm. unfold futures_of. rewrite Hperm.
  rewrite omap_seq_lookup; [done|].
  intros i Hi. unfold future_of. rewrite Hts, list_lookup_fmap.
  cbn [Nat.add]. by destruct (rs !! i).
Qed.

Lemma filter_fmap {A B} (f : A -> B) (P : B -> Prop)
    `{forall x, Decision (P x)} (l : list A) :
  filter P (f <$> l) = f <$> filter (fun x => P (f x)) l.
Proof.
  induction l as [|a l IH]; [done|]. cbn [fmap list_fmap].
  rewrite !filter_cons. case_decide; cbn [fmap list_fmap]; by rewrite IH.
Qed.

Lemma served_indices accs rs :
  length accs = length rs ->
  map (fun i => nth i accs [])
      (filter (fun i => ok_at rs i = true) (seq 0 (length rs)))
  = served accs rs.
Proof.
  revert rs. induction accs as [|a accs IH]; intros [|r rs] Hlen;
    try done.
  injection Hlen as Hlen. cbn [length seq]. rewrite <- fmap_S_seq.
  rewrite filter_cons, filter_fmap.
  unfold served. cbn [zip zip_with omap list_omap snd fst].
  fold (served accs rs). rewrite <- (IH rs Hlen).
  assert (Htail :
    map (fun i => nth i (a :: accs) [])
        (S <$> filter (fun i => ok_at (r :: rs) (S i) = true)
                      (seq 0 (length rs)))
    = map (fun i => nth i accs [])
          (filter (fun i => ok_at rs i = true) (seq 0 (length rs)))).
  { rewrite (list_filter_iff (fun i => ok_at (r :: rs) (S i) = true)
               (fun i => ok_at rs i = true)) by done.
    generalize (filter (fun i => ok_at rs i = true) (seq 0 (length rs))).
    intros l. induction l as [|i l IHl]; [done|].
    cbn [fmap list_fmap map]. f_equal. exact IHl. }
  destruct r as [o|e].
  - rewrite decide_True by done. cbn [map]. by rewrite Htail.
  - rewrite decide_False by done. by rewrite Htail.
Qed.

Section Settled.
Context (E : Env) (cfg : Config) (acc_list : list str).

(** Whatever the schedule, the pool ends with one result for each
    submitted identifier, and the records appended are those of the
    pipelines that returned an outcome, one for each. *)
Lemma pool_settled jobs w p :
  pool_runs jobs w (map (submit E cfg) acc_list) p ->
  exists rs,
    futures_of p ≡ₚ rs /\
    Forall2 (settled E cfg) acc_list rs /\
    exists order new,
      appended (pool_world p) = appended w ++ new /\
      order ≡ₚ served acc_list rs /\
      Forall2 (is_record (log_path_of cfg)) order new.
Proof.
  intros [Hsteps Hfin].
  destruct (pool_reaches E cfg acc_list _ _ _ Hsteps)
    as (Hlen & records & Hinv).
  destruct (finished_results _ Hfin) as (rs & Hts).
  assert (Hrs : length rs = length acc_list).
  { by rewrite <- Hlen, Hts, length_map. }
  pose proof (completed_all _ _ w p records Hinv Hfin) as Hperm.
  rewrite Hlen, <- Hrs in Hperm.
  assert (Hpost : forall i r, rs !! i = Some r ->
            pipeline_post E (downloader_of cfg) (log_path_of cfg)
              (nth i acc_list []) (count i records) r).
  { intros i r Hr.
    apply (inv_threads _ _ _ _ _ Hinv i (Finished r)).
    by rewrite Hts, list_lookup_fmap, Hr. }
  exists rs. split_and!.
  - by apply futures_of_results.
  - apply Forall2_same_length_lookup_2; [done|].
    intros i acc r Hacc Hr. specialize (Hpost i r Hr).
    rewrite (nth_lookup_Some _ _ _ _ Hacc) in Hpost.
    destruct r as [o|e]; cbn [settled pipeline_post] in *; tauto.
  - assert (Hcount : forall i,
              count i records = if ok_at rs i then 1%nat else 0%nat).
    { intros i. unfold ok_at. destruct (rs !! i) as [r|] eqn:Hr.
      - specialize (Hpost i r Hr). destruct r; cbn in Hpost; tauto.
      - apply count_occ_not_In. intros Hin.
        apply list_elem_of_In in Hin. unfold owners in Hin.
        apply list_elem_of_fmap in Hin as (x & -> & Hx).
        pose proof (proj1 (Forall_forall _ _)
                      (inv_range _ _ _ _ _ Hinv) x Hx) as Hlt.
        cbn in Hlt. apply lookup_ge_None in Hr. lia. }
    assert (Hown : owners records
                   ≡ₚ filter (fun i => ok_at rs i = true)
                             (seq 0 (length rs))).
    { apply (Permutation_count_occ Nat.eq_dec). intros i.
      fold (count i records). rewrite Hcount.
      destruct (ok_at rs i) eqn:Hok.
      - symmetry. apply NoDup_count_occ'.
        + apply NoDup_ListNoDup, NoDup_filter, NoDup_seq.
        + apply list_elem_of_In, list_elem_of_filter. split; [done|].
          apply elem_of_seq. unfold ok_at in Hok.
          destruct (rs !! i) eqn:Hr; [|done].
          apply lookup_lt_Some in Hr. lia.
      - symmetry. apply count_occ_not_In. intros Hin.
        apply list_elem_of_In, list_elem_of_filter in Hin as [Hin _].
        congruence. }
    exists (map (fun i => nth i acc_list []) (owners records)),
           (map snd records).
    split_and!.
    + apply Hinv.
    + rewrite Hown. by rewrite served_indices.
    + apply Forall2_fmap_l.
      apply (records_owned _ _ w p records Hinv).
Qed.

End Settled.

(** ** The scheduler *)

Lemma count_status_cons s o outcomes :
  count_status s (o :: outcomes) =
  ((if decide (outcome_status o = s) then 1 else 0)
   + count_status s outcomes)%nat.
Proof.
  unfold count_status. rewrite filter_cons. by case_decide.
Qed.

Lemma collect_tally futures ok failed w ok' failed' w' :
  run (collect futures ok failed) w = (Ok (ok', failed'), w') ->
  exists outcomes,
    futures = map Ok outcomes /\
    ok' = (ok + count_status SKIPPED outcomes
           + count_status SUCCEEDED outcomes)%nat /\
    failed' = (failed + count_status FAILED outcomes)%nat /\
    (ok' + failed' = ok + failed + length outcomes)%nat /\
    appended w' = appended w /\ fs w' = fs w /\ spawned w' = spawned w.
Proof.
  revert ok failed w.
  induction futures as [|[[[acc success] msg]|e] futures IH];
    intros ok failed w H; cbn [collect] in H.
  - injection H as <- <- <-. exists []. cbn. split_and!; try done; lia.
  - destruct success; rewrite run_bind in H; unfold print in H;
      rewrite run_atomic in H; cbv iota beta in H; apply IH in H
        as (outcomes & -> & -> & -> & Hsum & Ha & Hf & Hs);
      [exists ((acc, true, msg) :: outcomes)
      |exists ((acc, false, msg) :: outcomes)];
      rewrite !count_status_cons; cbn [outcome_status length map];
      repeat case_decide; try discriminate; try congruence;
      cbn [appended fs spawned] in *; split_and!; try done; lia.
  - discriminate H.
Qed.






(** C3, as the code has it.  Under every schedule of the pool, whatever
    the number of workers and however the steps of the running
    pipelines interleave: when the pool has run the calls for a list of
    [K] identifiers to their end there are [K] futures, one for each
    identifier, and each holds either an outcome for its identifier or
    an exception that escaped from the pipeline's write to the log or
    from its idempotency check.  The records appended to the log are
    those of the pipelines that returned an outcome, exactly one for
    each of them, and none for a pipeline that raised.  So the number
    of new records is the number of outcomes, which is [K] exactly when
    no pipeline raised: when the scheduler's loop over the futures
    comes to its end it has collected [K] outcomes, one for each
    identifier, its tallies add up to [K], and [K] records were
    appended, one for each identifier. *)
Theorem scheduler_exactly_once (E : Env) (cfg : Config)
    (acc_list : list str) (w : World) (p : Pool) :
  pool_runs (jobs cfg) w (map (submit E cfg) acc_list) p ->
  length (futures_of p) = length acc_list /\
  (exists rs,
      futures_of p ≡ₚ rs /\
      Forall2 (settled E cfg) acc_list rs /\
      exists order new,
        appended (pool_world p) = appended w ++ new /\
        order ≡ₚ served acc_list rs /\
        Forall2 (is_record (log_path_of cfg)) order new) /\
  (forall tally w2,
      run (collect (futures_of p) 0 0) (pool_world p) = (Ok tally, w2) ->
      (exists outcomes,
          futures_of p = map Ok outcomes /\
          length outcomes = length acc_list /\
          map (fun o : outcome => fst (fst o)) outcomes ≡ₚ acc_list) /\
      (fst tally + snd tally = length acc_list)%nat /\
      (exists order new,
          appended w2 = appended w ++ new /\
          length new = length acc_list /\
          order ≡ₚ acc_list /\
          Forall2 (is_record (log_path_of cfg)) order new)).
Proof.
  intros Hruns.
  destruct (pool_settled E cfg acc_list _ w p Hruns)
    as (rs & Hperm & Hset & Hrec).
  split_and!.
  - rewrite Hperm. symmetry. by eapply Forall2_length.
  - by exists rs.
  - intros [ok failed] w2 Hcollect.
    apply collect_tally in Hcollect
      as (outcomes & Hok & _ & _ & Hsum & Happ & _ & _).
    destruct (pool_all_ok E cfg acc_list _ w p outcomes Hruns Hok)
      as (Hlen & Hids & order & new & Hnew & Hnlen & Hord & Hrecs).
    split_and!.
    + by exists outcomes.
    + cbn [fst snd]. lia.
    + exists order, new. split_and!; [congruence|done|done|done].
Qed.

Lemma scheduler_exactly_once_witness :
  let ids := [py "SRR1"; py "SRR2"] in
  let calls := map (submit env_failing cfg_sample) ids in
  let p := mkPool (snd (run_futures calls w_done))
                  (map Finished (fst (run_futures calls w_done)))
                  (seq 0 (length calls)) in
  let exec := run (collect (futures_of p) 0 0) (pool_world p) in
  fst exec = Ok (1, 1)%nat /\
  length (futures_of p) = 2%nat /\
  length (appended (snd exec)) = 2%nat.
Proof.
  intros ids calls p exec.
  assert (Hruns : pool_runs (jobs cfg_sample) w_done calls p).
  { apply (pool_runs_sequential 2 calls w_done). lia. }
  assert (Hcollect : run (collect (futures_of p) 0 0) (pool_world p)
                     = (Ok (1, 1)%nat, snd exec)).
  { by vm_compute. }
  destruct (scheduler_exactly_once env_failing cfg_sample ids w_done p Hruns)
    as (Hlen & _ & Hend).
  destruct (Hend (1, 1)%nat (snd exec) Hcollect)
    as (_ & _ & order & new & Happ & Hnew & _).
  split_and!.
  - unfold exec. by rewrite Hcollect.
  - exact Hlen.
  - by rewrite Happ, length_app, Hnew.
Defined.

(** C3, as the specification has it, fails.  With a directory where the
    log file should be and one identifier submitted, SRR1, the pool
    runs to its end with a future that holds an exception: the
    scheduler collects no outcome, no record is appended to the log,
    and its loop raises. *)
Lemma scheduler_without_outcome :
  let e := mkExn IsADirectoryError (py "[Errno 21] Is a directory: '/log'") in
  let ids := [py "SRR1"] in
  exists p,
    pool_runs (jobs cfg_sample) w_logdir
      (map (submit env_quiet cfg_sample) ids) p /\
    futures_of p = [Raise e] /\
    appended (pool_world p) = appended w_logdir /\
    fst (run (collect (futures_of p) 0 0) (pool_world p)) = Raise e /\
    fst (run (schedule env_quiet cfg_sample ids) w_logdir) = Raise e.
Proof.
  intros e ids.
  destruct (pool_runs_sequential (jobs cfg_sample)
              (map (submit env_quiet cfg_sample) ids) w_logdir)
    as (Hruns & Hfut & Hworld); [cbn; lia|].
  eexists. split; [exact Hruns|].
  rewrite Hfut, Hworld. split_and!; by vm_compute.
Qed.



Example path_parent_examples :
  map path_parent
      [py "/mnt/c/logs/sra_fetch.log"; py "sra_fetch.log"; py "/log";
       py "logs//./sra_fetch.log"; py "/"]
  = [py "/mnt/c/logs"; py "."; py "/"; py "logs"; py "/"].
Proof. by vm_compute. Qed.

(** ** The whole script on the scenario of the specification *)

Example main_scenario :
  let text := py "SRR123" ++ [LF] ++ py "ERR456  # note" ++ [LF]
              ++ py "BAD999" ++ [LF] ++ py "SRR123" ++ [LF] in
  let w := set_fs (<[py "/acc.txt" := File text]> ∅) w_empty in
  let exec := run (main_with ucd_sample env_quiet cfg_sample) w in
  fst (run (read_accessions ucd_sample (py "/acc.txt")) w)
  = Ok [py "SRR123"; py "ERR456"; py "BAD999"; py "SRR123"] /\
  fst exec = Ok tt /\
  map fst (appended (snd exec)) = [py "/log"; py "/log"] /\
  last (console (snd exec))
  = Some (py "Done. Successful: 0, Failed: 2, Total: 2").
Proof. by vm_compute. Qed.

(** * Further properties of the script *)

(** ** Reading the accession file *)

Lemma split_on_hd sep cur s :
  hd [] (split_on sep cur s) = rev cur ++ before sep s.
Proof.
  revert cur. induction s as [|c s IH]; intros cur; cbn [split_on before].
  - by rewrite app_nil_r.
  - destruct (c =? sep); cbn [hd]; [by rewrite app_nil_r|].
    rewrite IH. cbn [rev]. by rewrite <- app_assoc.
Qed.

Lemma before_elem c s x : x ∈ before c s -> x ∈ s /\ x <> c.
Proof.
  induction s as [|y s IH]; cbn [before]; [by intros ?%elem_of_nil|].
  destruct (N.eqb_spec y c) as [->|Hne]; [by intros ?%elem_of_nil|].
  intros [->|Hx]%elem_of_cons.
  - split; [apply list_elem_of_here|done].
  - destruct (IH Hx). split; [by apply list_elem_of_further|done].
Qed.

Lemma before_app c code rest :
  c ∉ code -> before c (code ++ c :: rest) = code /\ before c code = code.
Proof.
  induction code as [|x code IH]; intros Hc; cbn [app before].
  - by rewrite N.eqb_refl.
  - apply not_elem_of_cons in Hc as [Hne Hc].
    destruct (N.eqb_spec x c) as [->|_]; [done|].
    destruct (IH Hc) as [-> ->]. done.
Qed.

Section Words.
Context (U : UCD).

Lemma lstrip_split s :
  exists ws, s = ws ++ lstrip U s /\ Forall (fun c => isspace U c = true) ws.
Proof.
  induction s as [|c s (ws & Hs & Hws)]; cbn [lstrip].
  - by exists [].
  - destruct (isspace U c) eqn:Hc.
    + exists (c :: ws). split; [cbn [app]; congruence|by constructor].
    + by exists [].
Qed.

Lemma rstrip_split s :
  exists ws, s = rstrip U s ++ ws /\ Forall (fun c => isspace U c = true) ws.
Proof.
  destruct (lstrip_split (rev s)) as (ws & Hs & Hws).
  exists (rev ws). split.
  - unfold rstrip. rewrite <- rev_app_distr, <- Hs. by rewrite rev_involutive.
  - by apply Forall_rev.
Qed.

Lemma split_ws_spaces cur ws :
  Forall (fun c => isspace U c = true) ws ->
  split_ws U cur ws = match cur with [] => [] | _ => [rev cur] end.
Proof.
  intros Hws. revert cur.
  induction Hws as [|c ws Hc _ IH]; intros cur; cbn [split_ws].
  - done.
  - rewrite Hc. destruct cur; by rewrite IH.
Qed.

Lemma split_ws_trailing cur s ws :
  Forall (fun c => isspace U c = true) ws ->
  split_ws U cur (s ++ ws) = split_ws U cur s.
Proof.
  intros Hws. revert cur. induction s as [|c s IH]; intros cur; cbn [app].
  - rewrite split_ws_spaces by done. done.
  - cbn [split_ws]. destruct (isspace U c); [|apply IH].
    destruct cur; by rewrite IH.
Qed.

Lemma split_ws_lstrip s : split_ws U [] (lstrip U s) = split_ws U [] s.
Proof.
  induction s as [|c s IH]; cbn [lstrip]; [done|].
  destruct (isspace U c) eqn:Hc; [|done].
  cbn [split_ws]. by rewrite Hc.
Qed.

Lemma split_ws_strip s : split_ws U [] (strip U s) = split_ws U [] s.
Proof.
  unfold strip. destruct (rstrip_split (lstrip U s)) as (ws & Hs & Hws).
  transitivity (split_ws U [] (lstrip U s)); [|apply split_ws_lstrip].
  by rewrite <- (split_ws_trailing [] (rstrip U (lstrip U s)) ws Hws), <- Hs.
Qed.

Lemma split_ws_tokens cur s t :
  Forall (fun c => isspace U c = false) cur ->
  t ∈ split_ws U cur s ->
  t <> [] /\ Forall (fun c => isspace U c = false /\ (c ∈ cur \/ c ∈ s)) t.
Proof.
  revert cur. induction s as [|c s IH]; intros cur Hcur; cbn [split_ws].
  - destruct cur as [|x cur]; [by intros ?%elem_of_nil|].
    intros ->%list_elem_of_singleton. split.
    + intros Hnil%(f_equal length). rewrite length_rev in Hnil. done.
    + apply Forall_rev, Forall_forall. intros y Hy.
      split; [by apply (proj1 (Forall_forall _ _) Hcur)|by left].
  - destruct (isspace U c) eqn:Hc.
    + assert (Hrest : t ∈ split_ws U [] s ->
                t <> [] /\
                Forall (fun c0 => isspace U c0 = false /\
                                  (c0 ∈ cur \/ c0 ∈ c :: s)) t).
      { intros Ht. destruct (IH [] (Forall_nil_2 _) Ht) as [Hne Hall].
        split; [done|]. eapply Forall_impl; [exact Hall|].
        intros y [Hy [Hin|Hin]]; [by apply elem_of_nil in Hin|].
        split; [done|]. right. by apply list_elem_of_further. }
      destruct cur as [|x cur]; [done|].
      intros [->|Ht]%elem_of_cons; [|by apply Hrest].
      split.
      * intros Hnil%(f_equal length). rewrite length_rev in Hnil. done.
      * apply Forall_rev, Forall_forall. intros y Hy.
        split; [by apply (proj1 (Forall_forall _ _) Hcur)|by left].
    + intros Ht. destruct (IH (c :: cur) (Forall_cons_2 _ _ _ Hc Hcur) Ht)
        as [Hne Hall].
      split; [done|]. eapply Forall_impl; [exact Hall|].
      intros y [Hy [Hin|Hin]]; (split; [done|]).
      * apply elem_of_cons in Hin as [->|Hin]; [right; apply list_elem_of_here|by left].
      * right. by apply list_elem_of_further.
Qed.

Lemma line_tokens_split line :
  line_tokens U line = split_ws U [] (before HASH line).
Proof.
  unfold line_tokens. rewrite split_on_hd. cbn [rev app].
  rewrite <- (split_ws_strip (before HASH line)).
  by destruct (strip U (before HASH line)).
Qed.

Lemma line_tokens_clean line t :
  t ∈ line_tokens U line ->
  t <> [] /\ (HASH ∉ t) /\ Forall (fun c => isspace U c = false) t /\
  (forall c, c ∈ t -> c ∈ line).
Proof.
  rewrite line_tokens_split. intros Ht.
  destruct (split_ws_tokens [] _ t (Forall_nil_2 _) Ht) as [Hne Hall].
  split_and!; [done| | |].
  - intros Hin. apply (proj1 (Forall_forall _ _) Hall) in Hin
      as [_ [Hin|Hin]]; [by apply elem_of_nil in Hin|].
    by apply before_elem in Hin as [_ ?].
  - eapply Forall_impl; [exact Hall|]. by intros y [? _].
  - intros c Hc. apply (proj1 (Forall_forall _ _) Hall) in Hc
      as [_ [Hin|Hin]]; [by apply elem_of_nil in Hin|].
    by apply before_elem in Hin as [? _].
Qed.

End Words.

Lemma elem_of_concat {A} (x : A) (ls : list (list A)) :
  x ∈ concat ls <-> exists l, x ∈ l /\ l ∈ ls.
Proof.
  induction ls as [|l0 ls IH]; cbn [concat].
  - split; [by intros ?%elem_of_nil|]. by intros (l & _ & ?%elem_of_nil).
  - rewrite elem_of_app, IH. split.
    + intros [H|(l & H1 & H2)].
      * exists l0. split; [done|apply list_elem_of_here].
      * exists l. split; [done|by apply list_elem_of_further].
    + intros (l & H1 & [->|H2]%elem_of_cons); [by left|right; eauto].
Qed.

Lemma read_accessions_run U path w :
  run (read_accessions U path) w =
  (match fs w !! path with
   | Some (File text) => Ok (file_tokens U text)
   | Some Dir =>
       Raise (mkExn IsADirectoryError
                (py "[Errno 21] Is a directory: " ++ quoted path))
   | None =>
       Raise (mkExn FileNotFoundError
                (py "[Errno 2] No such file or directory: " ++ quoted path))
   end, w).
Proof.
  unfold read_accessions, file_read. rewrite run_bind, run_atomic.
  by destruct (fs w !! path) as [[text|]|].
Qed.

(** X1.  [read_accessions] only reads: it leaves the world as it was.
    Every token it returns is non-empty, contains no whitespace
    character and no [#], and the list is what the lines of the file
    give, in order.  It raises [FileNotFoundError] for a missing file
    and [IsADirectoryError] for a directory. *)
Theorem read_accessions_tokens (U : UCD) (path : str) (w : World) :
  let exec := run (read_accessions U path) w in
  snd exec = w /\
  (forall tokens, fst exec = Ok tokens ->
     (exists text, fs w !! path = Some (File text) /\
                   tokens = file_tokens U text) /\
     Forall (fun t => t <> [] /\ (HASH ∉ t) /\
                      Forall (fun c => isspace U c = false) t) tokens) /\
  (fs w !! path = None ->
     exists msg, fst exec = Raise (mkExn FileNotFoundError msg)) /\
  (fs w !! path = Some Dir ->
     exists msg, fst exec = Raise (mkExn IsADirectoryError msg)).
Proof.
  intros exec. subst exec. rewrite read_accessions_run. cbn [fst snd].
  split_and!; [done| | |].
  - intros tokens Htok. destruct (fs w !! path) as [[text|]|]; try done.
    injection Htok as <-. split; [by exists text|].
    apply Forall_forall. intros t Ht. unfold file_tokens in Ht.
    apply elem_of_concat in Ht as (l & Ht & Hl).
    apply list_elem_of_fmap in Hl as (line & -> & _).
    by destruct (line_tokens_clean U line t Ht) as (? & ? & ? & _).
  - intros ->. eauto.
  - intros ->. eauto.
Qed.

Lemma read_accessions_tokens_witness :
  let text := py "SRR1 err2 # two runs" ++ [LF] ++ py "# none" ++ [LF]
              ++ py "  DRR3" in
  let w := set_fs (<[py "/acc.txt" := File text]> ∅) w_empty in
  fst (run (read_accessions ucd_sample (py "/acc.txt")) w)
  = Ok [py "SRR1"; py "err2"; py "DRR3"] /\
  Forall (fun t => t <> [] /\ (HASH ∉ t) /\
                   Forall (fun c => isspace ucd_sample c = false) t)
         [py "SRR1"; py "err2"; py "DRR3"].
Proof.
  intros text w.
  assert (Hrun : fst (run (read_accessions ucd_sample (py "/acc.txt")) w)
                 = Ok [py "SRR1"; py "err2"; py "DRR3"]) by (by vm_compute).
  split; [done|].
  exact (proj2 (proj1 (proj2 (read_accessions_tokens ucd_sample
                                (py "/acc.txt") w)) _ Hrun)).
Defined.

(** X2.  The tokens of a line are its whitespace-separated words before
    the first [#]: the [strip()] and the test for an empty line change
    nothing, an inline comment is ignored whatever it contains, and a
    line that is blank or only a comment gives no token. *)
Theorem line_tokens_ignore_comment (U : UCD) (code comment : str) :
  HASH ∉ code ->
  line_tokens U (code ++ HASH :: comment) = split_ws U [] code /\
  line_tokens U code = split_ws U [] code /\
  (Forall (fun c => isspace U c = true) code ->
   line_tokens U (code ++ HASH :: comment) = []).
Proof.
  intros Hcode. destruct (before_app HASH code comment Hcode) as [H1 H2].
  rewrite !line_tokens_split, H1, H2. split_and!; [done|done|].
  intros Hws. by rewrite split_ws_spaces.
Qed.

Lemma line_tokens_ignore_comment_witness :
  line_tokens ucd_sample (py "SRR1  ERR2 " ++ HASH :: py " SRR9 # old")
  = [py "SRR1"; py "ERR2"] /\
  line_tokens ucd_sample (py "   " ++ HASH :: py "SRR9") = [].
Proof.
  split.
  - rewrite (proj1 (line_tokens_ignore_comment ucd_sample (py "SRR1  ERR2 ")
                      (py " SRR9 # old") ltac:(by_compute))).
    by vm_compute.
  - apply (line_tokens_ignore_comment ucd_sample (py "   ") (py "SRR9")).
    + by_compute.
    + by_compute.
Defined.

(** ** The validation loop and the deduplication in [main] *)

Lemma printed_nil w : printed [] w = w.
Proof. destruct w. unfold printed. cbn. by rewrite app_nil_r. Qed.

Lemma printed_app l1 l2 w : printed l2 (printed l1 w) = printed (l1 ++ l2) w.
Proof. unfold printed. cbn. by rewrite app_assoc. Qed.

Lemma run_print line w : run (print line) w = (Ok tt, printed [line] w).
Proof. unfold print. by rewrite run_atomic. Qed.

Lemma validate_loop_run U acc_list new_list w :
  run (validate_loop U acc_list new_list) w =
  (Ok (new_list ++ filter (fun acc => validate_accessions U acc = true)
                          (map (normalize U) acc_list)),
   printed (map (verdict_line U) (map (normalize U) acc_list)) w).
Proof.
  revert new_list w. induction acc_list as [|raw rest IH]; intros new_list w.
  - cbn [validate_loop map]. rewrite filter_nil, app_nil_r, printed_nil.
    apply run_ret.
  - cbn [validate_loop map]. fold (normalize U raw).
    rewrite filter_cons. unfold verdict_line at 1.
    destruct (validate_accessions U (normalize U raw)) eqn:Hv; cbn [negb];
      rewrite run_bind, run_print, IH, printed_app; cbn [app].
    + rewrite decide_True by done. by rewrite <- app_assoc.
    + by rewrite decide_False by done.
Qed.

(** X3.  The validation loop of [main] never raises and touches the
    console only.  It returns, in their order, exactly the tokens that
    pass [validate_accessions] once trimmed and upper-cased, in that
    normalised form, and prints one line for every token, accepted or
    not.  Every identifier it returns is a prefix SRR, ERR or DRR
    followed by decimal digits. *)
Theorem validate_loop_filters (U : UCD) (acc_list new_list : list str)
    (w : World) :
  let seen := map (normalize U) acc_list in
  let kept := filter (fun acc => validate_accessions U acc = true) seen in
  run (validate_loop U acc_list new_list) w =
    (Ok (new_list ++ kept), printed (map (verdict_line U) seen) w) /\
  length (console (snd (run (validate_loop U acc_list new_list) w))) =
    (length (console w) + length acc_list)%nat /\
  kept `sublist_of` seen /\
  Forall (accession_shape (isdecimal U)) kept.
Proof.
  intros seen kept. rewrite validate_loop_run. fold seen kept.
  split_and!; [done| | |].
  - cbn [snd printed console]. unfold seen.
    by rewrite length_app, !length_map.
  - apply sublist_filter.
  - apply Forall_forall. intros acc Hacc.
    apply list_elem_of_filter in Hacc as [Hv _].
    by apply validate_accessions_shape.
Qed.

Lemma dedup_loop_fresh items seen :
  NoDup items -> (forall x, x ∈ items -> x ∉ seen) ->
  dedup_loop items seen [] = items.
Proof.
  intros Hnd. revert seen.
  induction Hnd as [|x items Hx _ IH]; intros seen Hseen; [done|].
  rewrite dedup_loop_cons.
  rewrite decide_False by (apply Hseen, list_elem_of_here).
  f_equal. apply IH. intros y Hy.
  assert (y <> x) by (by intros ->).
  pose proof (Hseen y (list_elem_of_further _ _ _ Hy)). set_solver.
Qed.

(** X4.  [dedup_preserve_order] returns its argument unchanged exactly
    when the argument has no repeated element; so it is idempotent, and
    a list followed by a copy of itself gives what the list gives. *)
Theorem dedup_preserve_order_fixpoint (items : list str) :
  (dedup_preserve_order items = items <-> NoDup items) /\
  dedup_preserve_order (dedup_preserve_order items)
  = dedup_preserve_order items /\
  dedup_preserve_order (items ++ items) = dedup_preserve_order items.
Proof.
  assert (Hfix : forall l, NoDup l -> dedup_preserve_order l = l).
  { intros l Hl. apply dedup_loop_fresh; [done|]. set_solver. }
  split_and!.
  - split; [|apply Hfix]. intros <-. apply dedup_loop_NoDup.
  - apply Hfix, dedup_loop_NoDup.
  - unfold dedup_preserve_order.
    assert (Happ : forall l1 l2 seen,
              (forall x, x ∈ l2 -> x ∈ l1 \/ x ∈ seen) ->
              dedup_loop (l1 ++ l2) seen [] = dedup_loop l1 seen []).
    { induction l1 as [|a l1 IH]; intros l2 seen Hl2; cbn [app].
      - induction l2 as [|b l2 IH2]; [done|]. rewrite dedup_loop_cons.
        destruct (Hl2 b (list_elem_of_here _ _)) as [Hb|Hb];
          [by apply elem_of_nil in Hb|].
        rewrite decide_True by done. apply IH2.
        intros x Hx. apply Hl2. by apply list_elem_of_further.
      - rewrite !dedup_loop_cons. case_decide as Ha.
        + apply IH. intros x Hx. destruct (Hl2 x Hx) as [Hin|Hin]; [|by right].
          apply elem_of_cons in Hin as [->|Hin]; [by right|by left].
        + f_equal. apply IH. intros x Hx.
          destruct (Hl2 x Hx) as [Hin|Hin]; [|set_solver].
          apply elem_of_cons in Hin as [->|Hin]; [set_solver|by left]. }
    apply Happ. by left.
Qed.

(** ** The loop over the futures *)




(** ** [main] as a whole *)

Lemma main_with_run U E cfg w text :
  fs w !! test_path cfg = Some (File text) ->
  let w1 := printed (map (verdict_line U)
                         (map (normalize U) (file_tokens U text))) w in
  run (main_with U E cfg) w =
  match submitted U (file_tokens U text) with
  | [] => (Ok tt, printed [py "No accessions found"] w1)
  | _ :: _ => run (schedule E cfg (submitted U (file_tokens U text))) w1
  end.
Proof.
  intros Hfile w1. unfold main_with.
  rewrite run_bind, read_accessions_run, Hfile.
  rewrite run_bind, validate_loop_run. cbn [app]. fold w1.
  fold (submitted U (file_tokens U text)).
  destruct (submitted U (file_tokens U text)); [apply run_print|done].
Qed.

Lemma submitted_none U tokens :
  Forall (fun raw => accepts U raw = false) tokens -> submitted U tokens = [].
Proof.
  intros Hall. unfold submitted.
  assert (Hnil : filter (fun acc => validate_accessions U acc = true)
                        (map (normalize U) tokens) = []).
  { induction Hall as [|raw tokens Hraw _ IH]; [done|]. cbn [map].
    rewrite filter_cons. unfold accepts in Hraw.
    rewrite decide_False by (by rewrite Hraw). exact IH. }
  by rewrite Hnil.
Qed.

(** X6.  [main] stops before it touches anything when there is nothing
    to download.  If the accession file is missing it raises
    [FileNotFoundError] and leaves the world as it was.  If no token of
    the file is a valid accession it prints a verdict for every token
    and then [No accessions found], and returns: no directory is made,
    no sub-process is started and nothing is written to the log. *)
Theorem main_stops_early (U : UCD) (E : Env) (cfg : Config) (w : World) :
  (fs w !! test_path cfg = None ->
     exists msg,
       run (main_with U E cfg) w = (Raise (mkExn FileNotFoundError msg), w)) /\
  (forall text,
     fs w !! test_path cfg = Some (File text) ->
     Forall (fun raw => accepts U raw = false) (file_tokens U text) ->
     run (main_with U E cfg) w =
       (Ok tt,
        printed (map (verdict_line U) (map (normalize U) (file_tokens U text))
                 ++ [py "No accessions found"]) w)).
Proof.
  split.
  - intros Hnone. eexists. unfold main_with.
    by rewrite run_bind, read_accessions_run, Hnone.
  - intros text Hfile Hall.
    rewrite (main_with_run U E cfg w text Hfile). cbv zeta.
    by rewrite (submitted_none U _ Hall), printed_app.
Qed.

Lemma main_stops_early_witness :
  let text := py "BAD999 # not an accession" ++ [LF] ++ py "# SRR1" ++ [LF] in
  let w := set_fs (<[py "/acc.txt" := File text]> ∅) w_empty in
  (exists msg,
     run (main_with ucd_sample env_quiet cfg_sample) w_empty
     = (Raise (mkExn FileNotFoundError msg), w_empty)) /\
  run (main_with ucd_sample env_quiet cfg_sample) w
  = (Ok tt,
     printed [py "BAD999 is not a valid accession, removed from list";
              py "No accessions found"] w).
Proof.
  intros text w. split.
  - apply (proj1 (main_stops_early ucd_sample env_quiet cfg_sample w_empty)).
    by vm_compute.
  - rewrite (proj2 (main_stops_early ucd_sample env_quiet cfg_sample w) text);
      [by vm_compute|by vm_compute|by_compute].
Defined.

(** ** Cleanup *)

Lemma under_self p : under p p.
Proof. by left. Qed.

Lemma safe_rmtree_run E path dry w :
  run (safe_rmtree E path dry) w =
  match fs w !! path with
  | None => (Ok tt, w)
  | Some _ =>
      if dry then (Ok tt, printed [py "Cleaning: " ++ path] w)
      else run (shutil_rmtree E path) (printed [py "Cleaning: " ++ path] w)
  end.
Proof.
  unfold safe_rmtree, os_path_exists. rewrite run_bind, run_atomic.
  destruct (fs w !! path) as [n|] eqn:Hp.
  - rewrite bool_decide_eq_true_2 by eauto. cbn [negb].
    rewrite run_bind, run_print. by destruct dry.
  - by rewrite bool_decide_eq_false_2 by (by intros [? ?]).
Qed.

Lemma shutil_rmtree_ok E path w w' :
  run (shutil_rmtree E path) w = (Ok tt, w') ->
  fs w !! path = Some Dir /\
  w' = set_fs (filter (fun kv => ~ under path (fst kv)) (fs w)) w.
Proof.
  unfold shutil_rmtree. rewrite run_atomic.
  destruct (fault E (SysRmtree path) w); [done|].
  destruct (fs w !! path) as [[c|]|]; [done| |done].
  by intros [= <-].
Qed.



(** X9.  In real mode [safe_rmtree] is idempotent: after a call that
    returned, a second call for the same path finds nothing to clean,
    prints nothing and leaves the world as it is. *)
Theorem safe_rmtree_idempotent (E : Env) (path : str) (w w' : World) :
  run (safe_rmtree E path false) w = (Ok tt, w') ->
  run (safe_rmtree E path false) w' = (Ok tt, w').
Proof.
  rewrite !safe_rmtree_run. destruct (fs w !! path) as [n|] eqn:Hp.
  - intros Hrm. apply shutil_rmtree_ok in Hrm as [_ ->].
    cbn [set_fs fs].
    rewrite (proj2 (map_lookup_filter_None _ _ path)); [done|].
    right. intros x _ Hx. apply Hx, under_self.
  - intros [= <-]. by rewrite Hp.
Qed.

Lemma safe_rmtree_idempotent_witness :
  let w := set_fs (<[py "/tmp/SRR1" := Dir]> ∅) w_empty in
  let w' := snd (run (safe_rmtree env_quiet (py "/tmp/SRR1") false) w) in
  fs w' !! py "/tmp/SRR1" = None /\
  run (safe_rmtree env_quiet (py "/tmp/SRR1") false) w' = (Ok tt, w').
Proof.
  intros w w'. split; [by vm_compute|].
  apply (safe_rmtree_idempotent env_quiet (py "/tmp/SRR1") w w').
  by vm_compute.
Defined.

(** ** Retrieval *)

Lemma run_command_run E cmd dry w :
  let w0 := printed [py "Running: " ++ join (py " ") cmd] w in
  let w1 := mkWorld (fs w0) (console w0) (spawned w0 ++ [cmd]) (appended w0)
                    (ticks w0) in
  run (run_command E cmd dry) w =
  if dry then (Ok None, w0)
  else match tool E cmd w1 with
       | (Ok p, m) =>
           if (returncode p =? 0)%Z then (Ok (Some p), set_fs m w1)
           else (Raise (command_failed (join (py " ") cmd) (stderr p)),
                 set_fs m w1)
       | (Raise e, m) => (Raise e, set_fs m w1)
       end.
Proof.
  intros w0 w1. unfold run_command. rewrite run_bind, run_print. fold w0.
  destruct dry; [done|]. unfold subprocess_run.
  rewrite !run_bind, !run_atomic. fold w1.
  destruct (tool E cmd w1) as [[p|e] m]; [|done].
  by destruct (returncode p =? 0)%Z.
Qed.

Lemma prefetch_one_run E self acc w :
  let cmd := prefetch_cmd self acc in
  let w0 := printed [py "Running: " ++ join (py " ") cmd] w in
  let w1 := mkWorld (fs w0) (console w0) (spawned w0 ++ [cmd]) (appended w0)
                    (ticks w0) in
  let success := py "prefetch successful for " ++ acc in
  run (prefetch_one E self acc) w =
  if dry_run self then (Ok tt, printed [success] w0)
  else match tool E cmd w1 with
       | (Ok p, m) =>
           if (returncode p =? 0)%Z
           then (Ok tt, printed [success] (set_fs m w1))
           else (Raise (command_failed (join (py " ") cmd) (stderr p)),
                 set_fs m w1)
       | (Raise e, m) => (Raise e, set_fs m w1)
       end.
Proof.
  intros cmd w0 w1 success. unfold prefetch_one. fold cmd.
  rewrite run_bind, run_command_run. fold w0 w1.
  destruct (dry_run self); [apply run_print|].
  destruct (tool E cmd w1) as [[p|e] m]; [|done].
  destruct (returncode p =? 0)%Z; [apply run_print|done].
Qed.

(** X10.  [prefetch_one] never writes to the log.  In dry mode it starts
    no sub-process, prints the command and the line [prefetch successful
    for <id>] all the same, and returns.  In real mode it starts exactly
    one sub-process, [prefetch <id> --output-directory <sra_dir>]; it
    returns and prints the success line if the process exits with status
    0, and raises [RuntimeError] with the captured stderr, without that
    line, if the status is not 0. *)
Theorem prefetch_one_contract (E : Env) (self : SraDownloader) (acc : str)
    (w : World) :
  let cmd := [py "prefetch"; acc; py "--output-directory"; sra_dir self] in
  let running := py "Running: " ++ join (py " ") cmd in
  let success := py "prefetch successful for " ++ acc in
  let w1 := mkWorld (fs w) (console w ++ [running]) (spawned w ++ [cmd])
                    (appended w) (ticks w) in
  let exec := run (prefetch_one E self acc) w in
  appended (snd exec) = appended w /\
  (dry_run self = true -> exec = (Ok tt, printed [running; success] w)) /\
  (dry_run self = false ->
     spawned (snd exec) = spawned w ++ [cmd] /\
     (forall p m, tool E cmd w1 = (Ok p, m) -> returncode p = 0%Z ->
        exec = (Ok tt, printed [success] (set_fs m w1))) /\
     (forall p m, tool E cmd w1 = (Ok p, m) -> returncode p <> 0%Z ->
        exec = (Raise (command_failed (join (py " ") cmd) (stderr p)),
                set_fs m w1)) /\
     (forall e m, tool E cmd w1 = (Raise e, m) ->
        exec = (Raise e, set_fs m w1))).
Proof.
  intros cmd running success w1 exec. subst exec.
  rewrite prefetch_one_run. fold (prefetch_cmd self acc).
  change (prefetch_cmd self acc) with cmd. fold running success.
  change (mkWorld (fs (printed [running] w)) (console (printed [running] w))
            (spawned (printed [running] w) ++ [cmd])
            (appended (printed [running] w)) (ticks (printed [running] w)))
    with w1.
  split; [|split].
  - destruct (dry_run self); [done|].
    destruct (tool E cmd w1) as [[p|e] m]; [|done].
    by destruct (returncode p =? 0)%Z.
  - intros ->. by rewrite printed_app.
  - intros ->. split_and!.
    + destruct (tool E cmd w1) as [[p|e] m]; [|done].
      by destruct (returncode p =? 0)%Z.
    + intros p m -> Hp. by rewrite (proj2 (Z.eqb_eq _ _) Hp).
    + intros p m -> Hp. by rewrite (proj2 (Z.eqb_neq _ _) Hp).
    + by intros e m ->.
Qed.

Lemma prefetch_one_contract_witness :
  let self := mkDownloader false (py "/out") (py "/tmp") (py "/sra") 2 in
  let cmd := [py "prefetch"; py "SRR1"; py "--output-directory"; py "/sra"] in
  run (prefetch_one env_quiet (mkDownloader true (py "/out") (py "/tmp")
                                 (py "/sra") 2) (py "SRR1")) w_empty
  = (Ok tt,
     printed [py "Running: prefetch SRR1 --output-directory /sra";
              py "prefetch successful for SRR1"] w_empty) /\
  spawned (snd (run (prefetch_one env_failing self (py "SRR1")) w_empty))
  = [cmd] /\
  fst (run (prefetch_one env_failing self (py "SRR1")) w_empty)
  = Raise (mkExn RuntimeError
             (py "Command failed: prefetch SRR1 --output-directory /sra"
              ++ [LF] ++ py "disk full")).
Proof.
  intros self cmd.
  pose proof (prefetch_one_contract env_quiet
                (mkDownloader true (py "/out") (py "/tmp") (py "/sra") 2)
                (py "SRR1") w_empty) as (_ & Hdry & _).
  pose proof (prefetch_one_contract env_failing self (py "SRR1") w_empty)
    as (_ & _ & Hreal).
  destruct (Hreal eq_refl) as (Hspawn & _ & Hfail & _).
  split_and!.
  - rewrite (Hdry eq_refl). by vm_compute.
  - rewrite Hspawn. by vm_compute.
  - rewrite (Hfail (mkProc 1 [] (py "disk full")) ∅);
      [by vm_compute|by vm_compute|done].
Defined.

(** ** The sub-processes of a pipeline *)

Lemma safe_rmtree_frame E path dry w :
  spawned (snd (run (safe_rmtree E path dry) w)) = spawned w /\
  appended (snd (run (safe_rmtree E path dry) w)) = appended w.
Proof.
  rewrite safe_rmtree_run. destruct (fs w !! path) as [n|]; [|done].
  destruct dry; [done|]. unfold shutil_rmtree. rewrite run_atomic.
  destruct (fault E (SysRmtree path) _); [done|].
  by destruct (fs _ !! path) as [[c|]|].
Qed.

Lemma prefetch_one_spawned E self acc w :
  spawned (snd (run (prefetch_one E self acc) w)) =
  spawned w ++ (if dry_run self then [] else [prefetch_cmd self acc]).
Proof.
  rewrite prefetch_one_run. destruct (dry_run self).
  - cbn. by rewrite app_nil_r.
  - destruct (tool E _ _) as [[p|e] m]; [|done].
    by destruct (returncode p =? 0)%Z.
Qed.

Lemma fasterq_dump_one_spawned E self acc w :
  let exec := run (fasterq_dump_one E self acc) w in
  exists l,
    spawned (snd exec) = spawned w ++ l /\
    (l = [] \/ l = [fasterq_cmd self acc] /\ dry_run self = false) /\
    (fst exec = Ok tt -> dry_run self = false -> l = [fasterq_cmd self acc]).
Proof.
  intros exec. subst exec.
  destruct (fasterq_dump_one_dirs E self acc w)
    as [(e & w1 & -> & Hs & _)
       |(w1 & w2 & _ & _ & _ & _ & Hs & _ & _ & _ & _ & ->)].
  { exists []. cbn [fst snd]. rewrite app_nil_r. split_and!; [done|by left|done]. }
  destruct (dry_run self) eqn:Hdry.
  { rewrite check_and_convert_dry by done. exists [].
    cbn [fst snd spawned]. rewrite app_nil_r. split_and!; [done|by left|done]. }
  destruct (fs w2 !! sra_path_of self acc) as [n|] eqn:Hsra.
  - rewrite check_and_convert_present by eauto.
    exists [fasterq_cmd self acc]. rewrite <- Hs. split_and!; [|by right|done].
    rewrite run_bind, run_command_run.
    destruct (tool E _ _) as [[p|e] m]; [|done].
    by destruct (returncode p =? 0)%Z.
  - rewrite check_and_convert_missing by done. exists [].
    cbn [fst snd]. rewrite app_nil_r. split_and!; [done|by left|done].
Qed.

(** X11.  A run of the pipeline starts no other sub-process than
    [prefetch] and [fasterq-dump] for its identifier: none in dry mode,
    and in real mode the retrieval command at most once and the
    conversion command at most once and only after the retrieval
    command.  A run that returns the outcome [OK] in real mode has
    started both, in this order. *)
Theorem pipeline_commands (E : Env)
    (acc out_dir tmp_dir sra_dir : str) (threads : Z)
    (dry delete_tmp delete_sra : bool) (log_path : str) (w : World) :
  let self := mkDownloader dry out_dir tmp_dir sra_dir threads in
  let exec := run (process_one_accession E acc out_dir tmp_dir sra_dir threads
               dry delete_tmp delete_sra log_path) w in
  exists cmds,
    spawned (snd exec) = spawned w ++ cmds /\
    cmds `prefix_of` [prefetch_cmd self acc; fasterq_cmd self acc] /\
    (dry = true -> cmds = []) /\
    (dry = false -> fst exec = Ok (acc, true, py "OK") ->
       cmds = [prefetch_cmd self acc; fasterq_cmd self acc]).
Proof.
  intros self exec. subst exec. unfold process_one_accession. fold self.
  rewrite run_bind, is_done_run.
  assert (Hlog : forall status msg (o : outcome) w0,
            spawned (snd (run (append_log E log_path acc status msg;;;
                               ret o) w0)) = spawned w0 /\
            forall o', fst (run (append_log E log_path acc status msg;;;
                                 ret o) w0) = Ok o' -> o' = o).
  { intros status msg o w0. rewrite run_bind.
    pose proof (append_log_keeps_spawned E log_path acc status msg w0) as Hk.
    destruct (run (append_log E log_path acc status msg) w0) as [[[]|e] w1];
      cbn [fst snd] in *; (split; [done|]); [by intros o' [= <-]|done]. }
  destruct (done_at E self acc w) as [[|]|e].
  { destruct (Hlog (py "SKIP") (py "fastq already downloaded")
                (acc, true, skip_msg) w) as [Hs Ho].
    exists []. rewrite app_nil_r. split_and!; [done|apply prefix_nil|done|].
    intros _ Hok. apply Ho in Hok. injection Hok as Hok.
    by vm_compute in Hok. }
  2:{ exists []. cbn [fst snd]. rewrite app_nil_r.
      split_and!; [done|apply prefix_nil|done|done]. }
  assert (Hfail : forall e w1 cmds,
            spawned w1 = spawned w ++ cmds ->
            cmds `prefix_of` [prefetch_cmd self acc; fasterq_cmd self acc] ->
            (dry = true -> cmds = []) ->
            let h := run (append_log E log_path acc (py "FAIL")
                            (replace_char LF (py " ") (exn_msg e));;;
                          ret ((acc, false, exn_msg e) : outcome)) w1 in
            exists cmds,
              spawned (snd h) = spawned w ++ cmds /\
              cmds `prefix_of` [prefetch_cmd self acc; fasterq_cmd self acc] /\
              (dry = true -> cmds = []) /\
              (dry = false -> fst h = Ok (acc, true, py "OK") ->
                 cmds = [prefetch_cmd self acc; fasterq_cmd self acc])).
  { intros e w1 cmds Hs Hpre Hdry h. subst h.
    destruct (Hlog (py "FAIL") (replace_char LF (py " ") (exn_msg e))
                (acc, false, exn_msg e) w1) as [Hs' Ho].
    exists cmds. split_and!; [by rewrite Hs'|done|done|].
    intros _ Hok. by apply Ho in Hok. }
  rewrite run_try, run_bind.
  pose proof (prefetch_one_spawned E self acc w) as H1.
  destruct (run (prefetch_one E self acc) w) as [[[]|e] w1]; cbn [snd] in H1.
  2:{ apply (Hfail e w1 _ H1).
      - change (dry_run self) with dry. destruct dry; [apply prefix_nil|].
        by exists [fasterq_cmd self acc].
      - by intros ->. }
  rewrite run_bind.
  destruct (fasterq_dump_one_spawned E self acc w1) as (l & H2 & Hl & Hl').
  destruct (run (fasterq_dump_one E self acc) w1) as [[[]|e] w2];
    cbn [fst snd] in H2, Hl'.
  2:{ eapply (Hfail e w2 (_ ++ l)).
      - by rewrite H2, H1, <- app_assoc.
      - change (dry_run self) with dry in *.
        destruct Hl as [->|[-> ->]]; [|done]. rewrite app_nil_r.
        destruct dry; [apply prefix_nil|by exists [fasterq_cmd self acc]].
      - intros ->. change (dry_run self) with true in *.
        by destruct Hl as [->|[_ ?]]. }
  assert (Hcmds : spawned w2 = spawned w ++
            (if dry then [] else [prefetch_cmd self acc; fasterq_cmd self acc])
          /\ (if dry then [] else [prefetch_cmd self acc; fasterq_cmd self acc])
             `prefix_of` [prefetch_cmd self acc; fasterq_cmd self acc]).
  { change (dry_run self) with dry in *. destruct dry.
    - destruct Hl as [->|[_ ?]]; [|done].
      split; [by rewrite H2, H1, !app_nil_r|apply prefix_nil].
    - rewrite (Hl' eq_refl eq_refl) in H2.
      split; [by rewrite H2, H1, <- app_assoc|done]. }
  destruct Hcmds as [Hs2 Hpre2].
  assert (Hdry2 : dry = true ->
            (if dry then [] else [prefetch_cmd self acc; fasterq_cmd self acc])
            = []) by (by intros ->).
  assert (Hreal2 : dry = false ->
            (if dry then [] else [prefetch_cmd self acc; fasterq_cmd self acc])
            = [prefetch_cmd self acc; fasterq_cmd self acc]) by (by intros ->).
  set (both := if dry then [] else _) in Hs2, Hpre2, Hdry2, Hreal2.
  clearbody both.
  cbv zeta. rewrite run_bind.
  set (c1 := if delete_tmp then _ else _).
  assert (Hc1 : forall w0, spawned (snd (run c1 w0)) = spawned w0).
  { intros w0. subst c1. destruct delete_tmp; [apply safe_rmtree_frame|done]. }
  specialize (Hc1 w2).
  destruct (run c1 w2) as [[[]|e] w3]; cbn [snd] in Hc1;
    [|apply (Hfail e w3 both); [congruence|done|done]].
  rewrite run_bind.
  set (c2 := if delete_sra then _ else _).
  assert (Hc2 : forall w0, spawned (snd (run c2 w0)) = spawned w0).
  { intros w0. subst c2. destruct delete_sra; [apply safe_rmtree_frame|done]. }
  specialize (Hc2 w3).
  destruct (run c2 w3) as [[[]|e] w4]; cbn [snd] in Hc2;
    [|apply (Hfail e w4 both); [congruence|done|done]].
  rewrite run_bind.
  pose proof (append_log_keeps_spawned E log_path acc (py "OK")
                (py "prefetch + fasterq-dump completed") w4) as Hk.
  destruct (run (append_log E log_path acc (py "OK")
                   (py "prefetch + fasterq-dump completed")) w4)
    as [[[]|e] w5]; cbn [snd] in Hk;
    [|apply (Hfail e w5 both); [congruence|done|done]].
  rewrite run_ret. cbn [fst snd].
  exists both. split_and!; [congruence|done|done|].
  by intros Hd _; apply Hreal2.
Qed.

Lemma pipeline_commands_witness :
  let w := set_fs (<[py "/sra/SRR2/SRR2.sra" := File (py "NCBI")]> ∅) w_empty in
  spawned (snd (run (process_one_accession env_quiet (py "SRR2") (py "/out")
                       (py "/tmp") (py "/sra") 2 false true true (py "/log"))
                   w))
  = [[py "prefetch"; py "SRR2"; py "--output-directory"; py "/sra"];
     [py "fasterq-dump"; py "/sra/SRR2/SRR2.sra"; py "--outdir";
      py "/out/SRR2"; py "--temp"; py "/tmp/SRR2"; py "--threads"; py "2";
      py "--split-files"]].
Proof.
  intros w.
  destruct (pipeline_commands env_quiet (py "SRR2") (py "/out") (py "/tmp")
              (py "/sra") 2 false true true (py "/log") w)
    as (cmds & Hs & _ & _ & Hok).
  rewrite Hs, (Hok eq_refl); [by vm_compute|by vm_compute].
Defined.

(** ** What a pipeline leaves in place *)

Lemma preserves_ret {A} P (a : A) : preserves P (ret a).
Proof. by intros w. Qed.

Lemma preserves_raise {A} P e : preserves P (@raise A e).
Proof. by intros w. Qed.

Lemma preserves_bind {A B} P (m : M A) (k : A -> M B) :
  preserves P m -> (forall a, preserves P (k a)) -> preserves P (bind m k).
Proof.
  intros Hm Hk w Hw. rewrite run_bind. specialize (Hm w Hw).
  destruct (run m w) as [[a|e] w1]; cbn [snd] in *; [by apply Hk|done].
Qed.



Section Lasting.
Context (E : Env) (q : str) (n : node).















End Lasting.




(** ** Reading the log back *)

Lemma split_on_last sep cur a :
  sep ∉ a -> split_on sep cur a = [rev cur ++ a].
Proof.
  revert cur. induction a as [|c a IH]; intros cur Ha; cbn [split_on].
  - by rewrite app_nil_r.
  - apply not_elem_of_cons in Ha as [Hne Ha].
    destruct (N.eqb_spec c sep) as [->|_]; [done|].
    rewrite IH by done. cbn [rev]. by rewrite <- app_assoc.
Qed.

Lemma split_on_field sep cur a rest :
  sep ∉ a ->
  split_on sep cur (a ++ sep :: rest) = (rev cur ++ a) :: split_on sep [] rest.
Proof.
  revert cur. induction a as [|c a IH]; intros cur Ha; cbn [app split_on].
  - by rewrite N.eqb_refl, app_nil_r.
  - apply not_elem_of_cons in Ha as [Hne Ha].
    destruct (N.eqb_spec c sep) as [->|_]; [done|].
    rewrite IH by done. cbn [rev]. by rewrite <- app_assoc.
Qed.

Lemma digit_not_TAB n : digit n <> TAB.
Proof. unfold digit, TAB. generalize (n mod 10). intros m. lia. Qed.

Lemma strftime_no_TAB d : TAB ∉ strftime d.
Proof.
  unfold strftime, pad4, pad2.
  change (py "-") with [45]. change (py " ") with [32].
  change (py ":") with [58]. cbn [app].
  intros Hin.
  repeat (apply elem_of_cons in Hin as [Hin|Hin];
          [first [discriminate Hin
                 |symmetry in Hin; by apply digit_not_TAB in Hin]|]).
  by apply elem_of_nil in Hin.
Qed.

Lemma accession_shape_no_control U acc c :
  accession_shape (isdecimal U) acc -> c < 48 -> c ∉ acc.
Proof.
  intros (prefix & digits & -> & Hp & _ & Hd) Hc.
  rewrite not_elem_of_app. split.
  - intros Hin.
    assert (Hall : Forall (fun x => 48 <= x) prefix).
    { repeat (apply elem_of_cons in Hp as [->|Hp]; [by_compute|]).
      by apply elem_of_nil in Hp. }
    apply (proj1 (Forall_forall _ _) Hall) in Hin. lia.
  - intros Hin. apply (proj1 (Forall_forall _ _) Hd) in Hin.
    rewrite (isdecimal_ascii U) in Hin by lia.
    apply andb_true_iff in Hin as [Hin _]. apply N.leb_le in Hin. lia.
Qed.

(** X13.  A record written for a validated identifier can be read back:
    if the message has no tab and no newline, the record is one line,
    and splitting the line without its newline at the tabs gives back
    exactly the four fields timestamp, identifier, status and message.
    A validated identifier never contains a tab or a newline. *)
Theorem log_record_fields (U : UCD) (d : datetime) (acc status msg : str) :
  accession_shape (isdecimal U) acc ->
  status ∈ [py "SKIP"; py "OK"; py "FAIL"] ->
  (TAB ∉ msg) -> (LF ∉ msg) ->
  let line := log_line (strftime d) acc status msg in
  ((TAB ∉ acc) /\ (LF ∉ acc)) /\
  one_line line /\
  exists body,
    line = body ++ [LF] /\
    split_on TAB [] body = [strftime d; acc; status; msg].
Proof.
  intros Hacc Hstatus Htab Hlf line.
  assert (Hta : TAB ∉ acc).
  { apply (accession_shape_no_control U); [done|by vm_compute]. }
  assert (Hla : LF ∉ acc).
  { apply (accession_shape_no_control U); [done|by vm_compute]. }
  assert (Hst : (TAB ∉ status) /\ (LF ∉ status)).
  { repeat (apply elem_of_cons in Hstatus as [->|Hstatus];
            [split; by_compute|]).
    by apply elem_of_nil in Hstatus. }
  destruct Hst as [Hts Hls].
  split; [done|]. split.
  - apply one_line_log_line; [apply strftime_no_LF|done].
  - exists (strftime d ++ [TAB] ++ acc ++ [TAB] ++ status ++ [TAB] ++ msg).
    split; [unfold line, log_line; by rewrite <- !app_assoc|].
    cbn [app].
    rewrite split_on_field by apply strftime_no_TAB.
    rewrite split_on_field by done.
    rewrite split_on_field by done.
    by rewrite split_on_last by done.
Qed.

Lemma log_record_fields_witness :
  let d := mkDate 2024 5 17 9 30 0 in
  let line := py "2024-05-17 09:30:00" ++ [TAB] ++ py "SRR123" ++ [TAB]
              ++ py "OK" ++ [TAB] ++ py "prefetch + fasterq-dump completed" in
  log_line (strftime d) (py "SRR123") (py "OK")
           (py "prefetch + fasterq-dump completed") = line ++ [LF] /\
  split_on TAB [] line
  = [py "2024-05-17 09:30:00"; py "SRR123"; py "OK";
     py "prefetch + fasterq-dump completed"].
Proof.
  intros d line.
  destruct (log_record_fields ucd_sample d (py "SRR123") (py "OK")
              (py "prefetch + fasterq-dump completed"))
    as (_ & _ & body & Hbody & Hsplit).
  - apply validate_accessions_shape. by vm_compute.
  - by_compute.
  - by_compute.
  - by_compute.
  - assert (Hline : body = line).
    { assert (H : body ++ [LF] = line ++ [LF])
        by (rewrite <- Hbody; by vm_compute).
      by apply app_inj_tail in H as [? _]. }
    subst body. split; [by vm_compute|].
    rewrite Hsplit. by vm_compute.
Defined.

(** ** The outcome and the record agree *)

(** X14.  The outcome that the pipeline returns and the record it has
    appended to the log tell the same story: a SKIPPED outcome comes
    with a SKIP record, the [OK] outcome with an OK record, and a
    FAILED outcome with a FAIL record whose message is the outcome's
    message with every newline replaced by a space.  The outcome itself
    carries the text of the exception as it is, newlines included. *)
Theorem outcome_matches_record (E : Env)
    (acc out_dir tmp_dir sra_dir : str) (threads : Z)
    (dry delete_tmp delete_sra : bool) (log_path : str) (w : World)
    (o : outcome) :
  let exec := run (process_one_accession E acc out_dir tmp_dir sra_dir threads
               dry delete_tmp delete_sra log_path) w in
  fst exec = Ok o ->
  exists d,
    appended (snd exec) =
      appended w ++
      [(log_path,
        match outcome_status o with
        | SKIPPED =>
            log_line (strftime d) acc (py "SKIP")
                     (py "fastq already downloaded")
        | SUCCEEDED =>
            log_line (strftime d) acc (py "OK")
                     (py "prefetch + fasterq-dump completed")
        | FAILED =>
            log_line (strftime d) acc (py "FAIL")
                     (replace_char LF (py " ") (snd o))
        end)] /\
    (o = (acc, true, skip_msg) \/ o = (acc, true, py "OK") \/
     exists msg, o = (acc, false, msg)).
Proof.
  intros exec Hok.
  pose proof (process_one_accession_run E acc out_dir tmp_dir sra_dir
                threads dry delete_tmp delete_sra log_path w) as H.
  cbv zeta in H. fold exec in H. rewrite Hok in H.
  inversion H; subst;
    match goal with
    | Happ : appended _ = _ ++ [(_, log_line (strftime ?d) _ _ _)] |- _ =>
        exists d; rewrite Happ
    end; (split; [|eauto]); cbn [outcome_status snd].
  - by rewrite decide_True.
  - rewrite decide_False; [done|]. by vm_compute.
  - done.
Qed.

Lemma outcome_matches_record_witness :
  let exec := run (process_one_accession env_failing (py "SRR2") (py "/out")
                     (py "/tmp") (py "/sra") 2 false true true (py "/log"))
                  w_empty in
  fst exec = Ok (py "SRR2", false,
                 py "Command failed: prefetch SRR2 --output-directory /sra"
                 ++ [LF] ++ py "disk full") /\
  exists d,
    appended (snd exec)
    = [(py "/log",
        log_line (strftime d) (py "SRR2") (py "FAIL")
          (py "Command failed: prefetch SRR2 --output-directory /sra"
           ++ py " disk full"))].
Proof.
  intros exec.
  assert (Hok : fst exec = Ok (py "SRR2", false,
                  py "Command failed: prefetch SRR2 --output-directory /sra"
                  ++ [LF] ++ py "disk full")) by (by vm_compute).
  split; [done|].
  destruct (outcome_matches_record env_failing (py "SRR2") (py "/out")
              (py "/tmp") (py "/sra") 2 false true true (py "/log") w_empty
              _ Hok) as (d & Happ & _).
  exists d. unfold exec. rewrite Happ. reflexivity.
Defined.

(** ** The order of the tests in [is_done] *)

(** X15.  [is_done] tests the single-end file first and asks for a size
    only after [os.path.exists] has said yes.  So a non-empty single-end
    file whose size can be read makes it say done whatever the state of
    the paired-end file, which is not looked at; two absent files give
    not-done without any size being asked for; and a directory in the
    place of the single-end file counts as done when its reported size
    is not 0. *)
Theorem is_done_short_circuit (E : Env) (self : SraDownloader) (acc : str)
    (w : World) :
  let se := out_dir self ++ py "/" ++ acc ++ py "/" ++ acc ++ py ".fastq" in
  let pe1 := out_dir self ++ py "/" ++ acc ++ py "/" ++ acc ++ py "_1.fastq" in
  (forall c, fs w !! se = Some (File c) -> c <> [] ->
     fault E (SysStat se) w = None ->
     run (is_done E self acc) w = (Ok true, w)) /\
  (fs w !! se = None -> fs w !! pe1 = None ->
     run (is_done E self acc) w = (Ok false, w)) /\
  (fs w !! se = Some Dir -> fault E (SysStat se) w = None ->
     0 < dir_size E ->
     run (is_done E self acc) w = (Ok true, w)).
Proof.
  intros se pe1.
  assert (Hse : se = se_of self acc).
  { unfold se, se_of, out_dir_of. by rewrite <- !app_assoc. }
  assert (Hpe : pe1 = pe1_of self acc).
  { unfold pe1, pe1_of, out_dir_of. by rewrite <- !app_assoc. }
  rewrite is_done_run. unfold done_at. rewrite <- Hse, <- Hpe.
  split_and!.
  - intros c Hc Hne Hf. by rewrite (nonempty_at_file E w se c Hf Hc Hne).
  - intros H1 H2. unfold nonempty_at. by rewrite H1, H2.
  - intros Hd Hf Hsize. unfold nonempty_at at 1. rewrite Hd, Hf.
    by rewrite (proj2 (N.ltb_lt _ _) Hsize).
Qed.

Lemma is_done_short_circuit_witness :
  let self := mkDownloader false (py "/out") (py "/tmp") (py "/sra") 2 in
  let w := set_fs (<[py "/out/SRR1/SRR1.fastq" := File (py "@read1")]>
                   (<[py "/out/SRR1/SRR1_1.fastq" := Dir]> (fs w_done)))
                  w_done in
  run (is_done env_quiet self (py "SRR1")) w = (Ok true, w).
Proof.
  intros self w.
  apply (proj1 (is_done_short_circuit env_quiet self (py "SRR1") w)
           (py "@read1")); by vm_compute.
Defined.

(** ** Tokens and the normalisation in [main] *)

Lemma lstrip_nonspace U t :
  Forall (fun c => isspace U c = false) t -> lstrip U t = t.
Proof. intros [|c t' Hc _]; cbn [lstrip]; [done|by rewrite Hc]. Qed.

Lemma strip_nonspace U t :
  Forall (fun c => isspace U c = false) t -> strip U t = t.
Proof.
  intros Ht. unfold strip, rstrip. rewrite (lstrip_nonspace U t Ht).
  rewrite lstrip_nonspace by (by apply Forall_rev).
  apply rev_involutive.
Qed.

(** X16.  The tokens that [read_accessions] returns need no trimming:
    for each of them the [strip()] in the validation loop of [main]
    changes nothing, so a token is accepted exactly when its upper-cased
    form passes [validate_accessions]. *)
Theorem tokens_need_no_strip (U : UCD) (text t : str) :
  t ∈ file_tokens U text ->
  strip U t = t /\
  normalize U t = upper U t /\
  accepts U t = validate_accessions U (upper U t).
Proof.
  intros Ht. apply elem_of_concat in Ht as (l & Ht & Hl).
  apply list_elem_of_fmap in Hl as (line & -> & _).
  destruct (line_tokens_clean U line t Ht) as (_ & _ & Hns & _).
  pose proof (strip_nonspace U t Hns) as Hs.
  unfold accepts, normalize. by rewrite Hs.
Qed.

Lemma tokens_need_no_strip_witness :
  strip ucd_sample (py "err2") = py "err2" /\
  accepts ucd_sample (py "err2") = true.
Proof.
  destruct (tokens_need_no_strip ucd_sample
              (py " SRR1 err2 # two" ++ [LF]) (py "err2"))
    as (Hs & _ & Ha).
  - by_compute.
  - split; [exact Hs|]. rewrite Ha. by vm_compute.
Defined.

(** ** The directory of the log *)

(** X17.  When [append_log] returns, the parent directory of the log
    file is a directory of the store and the log file is a regular
    file.  If the parent path is a regular file, the [mkdir] raises
    [FileExistsError] and nothing is written: no record is appended and
    the store is as it was. *)
Theorem append_log_parent (E : Env) (log_path acc status msg : str)
    (w : World) :
  let parent := path_parent log_path in
  let exec := run (append_log E log_path acc status msg) w in
  (fst exec = Ok tt ->
     fs (snd exec) !! parent = Some Dir /\
     exists c, fs (snd exec) !! log_path = Some (File c)) /\
  (forall c, fs w !! parent = Some (File c) ->
     (forall w0, fault E (SysMkdir parent) w0 = None) ->
     fst exec = Raise (mkExn FileExistsError
                         (py "[Errno 17] File exists: " ++ quoted parent)) /\
     appended (snd exec) = appended w /\ fs (snd exec) = fs w).
Proof.
  intros parent exec. subst exec. unfold append_log, now, Path_mkdir.
  rewrite run_bind, run_atomic. cbv beta iota zeta.
  set (w0 := mkWorld _ _ _ _ _). rewrite run_bind. fold parent.
  split.
  - destruct (run (mkdir_p E true parent) w0) as [r w1] eqn:Hmk.
    apply mkdir_p_run in Hmk
      as [(e & -> & ->)|(-> & Hdir & Hne & _)]; [done|].
    unfold file_append. rewrite run_atomic. cbv zeta.
    destruct (fault E (SysAppend log_path) w1); [done|].
    destruct (decide (log_path = parent)) as [Heq|Hneq].
    { rewrite Heq, Hdir. done. }
    destruct (fs w1 !! log_path) as [[c|]|]; [|done|]; intros _;
      cbn [snd fs]; (split; [by rewrite lookup_insert_ne|]);
      eexists; apply lookup_insert_eq.
  - intros c Hc Hf. unfold mkdir_p. rewrite run_atomic, Hf.
    change (fs w0) with (fs w). by rewrite Hc.
Qed.

Lemma append_log_parent_witness :
  let exec := run (append_log env_quiet (py "/logs/run/sra_fetch.log")
                     (py "SRR1") (py "OK") (py "done")) w_empty in
  fs (snd exec) !! py "/logs/run" = Some Dir /\
  fst (run (append_log env_quiet (py "/out/SRR1/SRR1_1.fastq/log")
              (py "SRR1") (py "OK") (py "done")) w_done)
  = Raise (mkExn FileExistsError
             (py "[Errno 17] File exists: '/out/SRR1/SRR1_1.fastq'")).
Proof.
  intros exec. split.
  - apply (proj1 (append_log_parent env_quiet (py "/logs/run/sra_fetch.log")
                    (py "SRR1") (py "OK") (py "done") w_empty)).
    by vm_compute.
  - apply (proj2 (append_log_parent env_quiet
                    (py "/out/SRR1/SRR1_1.fastq/log") (py "SRR1") (py "OK")
                    (py "done") w_done) (py "@read1")); [by vm_compute|done].
Defined.

(** ** [main] under every schedule of the pool *)

Lemma main_with_runs U E cfg w :
  main_runs U E cfg w (fst (run (main_with U E cfg) w))
                      (snd (run (main_with U E cfg) w)).
Proof.
  unfold main_with. rewrite run_bind.
  destruct (run (read_accessions U (test_path cfg)) w) as [[tokens|e] w0]
    eqn:Hread; [|by apply main_unread].
  rewrite run_bind.
  pose proof (validate_loop_run U tokens [] w0) as Hval.
  rewrite Hval. cbn [app].
  set (new_list := filter _ _) in *. set (w1 := printed _ w0) in *.
  destruct (dedup_preserve_order new_list) as [|acc ids] eqn:Hids.
  { destruct (run (print (py "No accessions found")) w1) as [r w'] eqn:Hp.
    by apply (main_nothing U E cfg w tokens w0 new_list w1 r w'). }
  rewrite <- Hids.
  assert (Hne : dedup_preserve_order new_list <> []) by (by rewrite Hids).
  unfold schedule, pool. rewrite run_bind.
  destruct (jobs cfg) as [|j] eqn:Hjobs.
  { rewrite run_raise. cbn [fst snd].
    by apply (main_no_workers U E cfg w tokens w0 new_list w1). }
  rewrite run_atomic.
  destruct (pool_runs_sequential (jobs cfg)
              (map (submit E cfg) (dedup_preserve_order new_list)) w1)
    as (Hruns & Hfut & Hworld); [lia|].
  set (p := mkPool _ _ _) in Hruns, Hfut, Hworld.
  destruct (run_futures _ w1) as [rs wp]. cbn [fst snd] in Hfut, Hworld.
  rewrite <- Hfut, <- Hworld.
  destruct (run (report _ (futures_of p)) (pool_world p)) as [r w'] eqn:Hrep.
  by apply (main_pool U E cfg w tokens w0 new_list w1 p r w').
Qed.

Lemma served_sublist accs rs : served accs rs `sublist_of` accs.
Proof.
  unfold served. revert rs.
  induction accs as [|a accs IH]; intros [|r rs]; cbn [zip zip_with omap
    list_omap]; try apply sublist_nil_l.
  destruct r; cbn [snd fst].
  - apply sublist_skip, IH.
  - apply sublist_cons, IH.
Qed.

Lemma served_all accs (outcomes : list outcome) :
  length accs = length outcomes -> served accs (map Ok outcomes) = accs.
Proof.
  unfold served. revert outcomes.
  induction accs as [|a accs IH]; intros [|o os] Hlen; try done.
  injection Hlen as Hlen. cbn [map zip zip_with omap list_omap snd fst].
  f_equal. by apply IH.
Qed.

Lemma all_ok_results (rs : list (result outcome)) :
  Forall (fun r => exists o, r = Ok o) rs -> exists outcomes, rs = map Ok outcomes.
Proof.
  induction 1 as [|r rs [o ->] _ (os & ->)]; [by exists []|].
  by exists (o :: os).
Qed.

Lemma report_keeps_appended acc_list futures w :
  appended (snd (run (report acc_list futures) w)) = appended w.
Proof.
  assert (Hc : forall futures ok failed w,
            appended (snd (run (collect futures ok failed) w)) = appended w).
  { clear. induction futures as [|[[[acc success] msg]|e] futures IH];
      intros ok failed w; cbn [collect]; [done| |done].
    destruct success; rewrite run_bind, run_print; by rewrite IH. }
  unfold report. rewrite run_bind. specialize (Hc futures 0%nat 0%nat w).
  destruct (run (collect futures 0 0) w) as [[tally|e] w1]; [|done].
  by rewrite run_print.
Qed.

(** X7.  Whatever the accession file holds, the identifiers that [main]
    submits to the pool are distinct and each is a prefix SRR, ERR or
    DRR followed by decimal digits.  Under every schedule of the pool
    and however [main] ends, every record it has appended to the log is
    a record for one of the submitted identifiers, at most one for
    each; when [main] returns, there is exactly one for each. *)
Theorem main_accounting (U : UCD) (E : Env) (cfg : Config) (w : World)
    (text : str) (r : result unit) (w' : World) :
  fs w !! test_path cfg = Some (File text) ->
  main_runs U E cfg w r w' ->
  let ids := submitted U (file_tokens U text) in
  NoDup ids /\
  Forall (accession_shape (isdecimal U)) ids /\
  exists order new,
    appended w' = appended w ++ new /\
    Forall2 (is_record (log_path_of cfg)) order new /\
    order ⊆+ ids /\
    (r = Ok tt -> order ≡ₚ ids).
Proof.
  intros Hfile Hrun ids. split_and!.
  - apply dedup_loop_NoDup.
  - apply Forall_forall. intros acc Hacc. unfold ids, submitted in Hacc.
    apply dedup_loop_elem in Hacc as [Hacc _].
    apply list_elem_of_filter in Hacc as [Hv _].
    by apply validate_accessions_shape.
  - assert (Hnone : forall w1, appended w1 = appended w ->
              exists order new,
                appended w1 = appended w ++ new /\
                Forall2 (is_record (log_path_of cfg)) order new /\
                order ⊆+ ids /\ order ≡ₚ []).
    { intros w1 Hw1. exists [], []. rewrite app_nil_r.
      split_and!; [done|constructor|apply submseteq_nil_l|done]. }
    assert (Hprep : forall tokens w0 new_list w1,
              run (read_accessions U (test_path cfg)) w = (Ok tokens, w0) ->
              run (validate_loop U tokens []) w0 = (Ok new_list, w1) ->
              dedup_preserve_order new_list = ids /\
              appended w1 = appended w).
    { intros tokens w0 new_list w1 Hread Hval.
      rewrite read_accessions_run, Hfile in Hread.
      injection Hread as <- <-.
      rewrite validate_loop_run in Hval. by injection Hval as <- <-. }
    inversion Hrun as [e w1 Hread
                      |tokens w0 new_list w1 r0 w0' Hread Hval Hnil Hprint
                      |tokens w0 new_list w1 Hread Hval Hne Hjobs
                      |tokens w0 new_list w1 p r0 w0' Hread Hval Hne Hpool
                         Hrep]; subst.
    + rewrite read_accessions_run, Hfile in Hread. done.
    + destruct (Hprep _ _ _ _ Hread Hval) as [Hids Happ].
      rewrite run_print in Hprint. injection Hprint as <- <-.
      destruct (Hnone w1 Happ) as (order & new & H1 & H2 & H3 & H4).
      exists order, new. split_and!; try done.
      intros _. by rewrite H4, <- Hids, Hnil.
    + destruct (Hprep _ _ _ _ Hread Hval) as [Hids Happ].
      destruct (Hnone w' Happ) as (order & new & H1 & H2 & H3 & H4).
      exists order, new. split_and!; done.
    + destruct (Hprep _ _ _ _ Hread Hval) as [Hids Happ].
      rewrite Hids in Hpool, Hrep.
      destruct (pool_settled E cfg ids _ w1 p Hpool)
        as (rs & Hperm & Hset & order & new & Hnew & Hord & Hrec).
      pose proof (report_keeps_appended ids (futures_of p) (pool_world p))
        as Hkeep.
      rewrite Hrep in Hkeep. cbn [snd] in Hkeep.
      exists order, new. split_and!.
      * by rewrite Hkeep, Hnew, Happ.
      * done.
      * rewrite Hord. apply sublist_submseteq, served_sublist.
      * intros ->. unfold report in Hrep. rewrite run_bind in Hrep.
        destruct (run (collect (futures_of p) 0 0) (pool_world p))
          as [[[ok failed]|e] w2] eqn:Hcollect; [|done].
        apply collect_tally in Hcollect as (outcomes & Hok & _).
        assert (Hall : Forall (fun r => exists o, r = Ok o) rs).
        { rewrite <- Hperm, Hok. apply Forall_fmap, Forall_forall.
          intros o _. by exists o. }
        apply all_ok_results in Hall as (os & ->).
        rewrite Hord. rewrite served_all; [done|].
        apply Forall2_length in Hset. by rewrite length_map in Hset.
Qed.

Lemma main_accounting_witness :
  let text := py "SRR123" ++ [LF] ++ py "ERR456  # note" ++ [LF]
              ++ py "BAD999" ++ [LF] ++ py "srr123" ++ [LF] in
  let w := set_fs (<[py "/acc.txt" := File text]> ∅) w_empty in
  submitted ucd_sample (file_tokens ucd_sample text)
  = [py "SRR123"; py "ERR456"] /\
  length (appended (snd (run (main_with ucd_sample env_quiet cfg_sample) w)))
  = 2%nat.
Proof.
  intros text w.
  assert (Hids : submitted ucd_sample (file_tokens ucd_sample text)
                 = [py "SRR123"; py "ERR456"]) by (by vm_compute).
  split; [done|].
  pose proof (main_with_runs ucd_sample env_quiet cfg_sample w) as Hruns.
  assert (Hr : fst (run (main_with ucd_sample env_quiet cfg_sample) w)
               = Ok tt) by (by vm_compute).
  rewrite Hr in Hruns.
  destruct (main_accounting ucd_sample env_quiet cfg_sample w text (Ok tt) _
              ltac:(by vm_compute) Hruns)
    as (_ & _ & order & new & Happ & Hrec & _ & Hall).
  rewrite Happ, length_app, <- (Forall2_length _ _ _ Hrec).
  rewrite (Hall eq_refl), Hids. done.
Defined.

(** ** What every step of every thread keeps *)

Lemma stable_run {A} (P : World -> Prop) (r : Res A) :
  stable P r -> P (snd (run_res r)).
Proof.
  induction r as [res w|w k IH]; cbn [stable run_res]; [done|].
  intros [Hw Hk]. by apply IH, Hk.
Qed.

Lemma steady_preserves {A} (P : World -> Prop) (m : M A) :
  steady P m -> preserves P m.
Proof. intros Hm w Hw. unfold run. by apply stable_run, Hm. Qed.

Lemma steady_ret {A} (P : World -> Prop) (a : A) : steady P (ret a).
Proof. by intros w. Qed.

Lemma steady_raise {A} (P : World -> Prop) e : steady P (@raise A e).
Proof. by intros w. Qed.

Lemma stable_bind {A B} (P : World -> Prop) (r : Res A) (k : A -> M B) :
  stable P r -> (forall a, steady P (k a)) -> stable P (bind_res r k).
Proof.
  intros Hr Hk. induction r as [[a|e] w|w c IH]; cbn [stable bind_res] in *.
  - by apply Hk.
  - done.
  - destruct Hr as [Hw Hc]. split; [done|]. intros w' Hw'. by apply IH, Hc.
Qed.

Lemma steady_bind {A B} (P : World -> Prop) (m : M A) (k : A -> M B) :
  steady P m -> (forall a, steady P (k a)) -> steady P (bind m k).
Proof. intros Hm Hk w Hw. by apply stable_bind; [apply Hm|]. Qed.

Lemma stable_try {A} (P : World -> Prop) (r : Res A) (h : exn -> M A) :
  stable P r -> (forall e, steady P (h e)) -> stable P (try_res r h).
Proof.
  intros Hr Hh. induction r as [[a|e] w|w c IH]; cbn [stable try_res] in *.
  - done.
  - by apply Hh.
  - destruct Hr as [Hw Hc]. split; [done|]. intros w' Hw'. by apply IH, Hc.
Qed.

Lemma steady_try {A} (P : World -> Prop) (m : M A) (h : exn -> M A) :
  steady P m -> (forall e, steady P (h e)) -> steady P (try_except m h).
Proof. intros Hm Hh w Hw. by apply stable_try; [apply Hm|]. Qed.

Lemma steady_atomic {A} (P : World -> Prop)
    (step : World -> result A * World) :
  (forall w, P w -> P (snd (step w))) -> steady P (atomic step).
Proof.
  intros H w Hw. unfold atomic. specialize (H w Hw).
  destruct (step w) as [r w1]. by split.
Qed.


Lemma keeps_steady {A X} (f : World -> X) (x : X)
    (step : World -> result A * World) :
  keeps f (atomic step) -> steady (fun w => f w = x) (atomic step).
Proof.
  intros H. apply steady_atomic. intros w Hw.
  specialize (H w). rewrite run_atomic in H. congruence.
Qed.

Lemma pool_step_steady jobs (P : World -> Prop) p p' :
  pool_step jobs p p' ->
  P (pool_world p) -> Forall (thread_steady P) (pool_threads p) ->
  P (pool_world p') /\ Forall (thread_steady P) (pool_threads p').
Proof.
  intros Hstep Hw Hts.
  destruct Hstep as [w ts done i call Hi _ _|w ts done i k w' k' Hi Hk
                    |w ts done i k w' r Hi Hk]; cbn in *;
    pose proof (proj1 (Forall_lookup _ _) Hts i _ Hi) as Ht; cbn in Ht.
  - split; [done|]. by apply Forall_insert.
  - specialize (Ht w Hw). rewrite Hk in Ht. destruct Ht as [Hw' Hk'].
    split; [done|]. by apply Forall_insert.
  - specialize (Ht w Hw). rewrite Hk in Ht.
    split; [done|]. by apply Forall_insert.
Qed.

Lemma pool_keeps jobs (P : World -> Prop) w calls p :
  P w -> Forall (steady P) calls ->
  rtc (pool_step jobs) (pool_init w calls) p ->
  P (pool_world p).
Proof.
  intros Hw Hcalls Hsteps.
  assert (Hinit : P (pool_world (pool_init w calls)) /\
                  Forall (thread_steady P) (pool_threads (pool_init w calls))).
  { split; [done|]. cbn. by apply Forall_fmap. }
  revert Hinit.
  induction Hsteps as [p0|p0 p1 p2 Hstep _ IH]; intros Hinit;
    [by destruct Hinit|].
  apply IH. destruct Hinit. by eapply pool_step_steady.
Qed.

Section SteadyPipeline.
Context (E : Env) (P : World -> Prop).
Context (dry : bool) (log_path tmp_dir sra_dir : str).
Hypothesis Hprint : forall line, steady P (print line).
Hypothesis Hnow : steady P (now E).
Hypothesis Hexists : forall p, steady P (os_path_exists p).
Hypothesis Hgetsize : forall p, steady P (os_path_getsize E p).
Hypothesis Hmkdir : forall leaf p, steady P (mkdir_p E leaf p).
Hypothesis Happend : forall text, steady P (file_append E log_path text).
Hypothesis Htool :
  dry = true \/ forall cmd, steady P (subprocess_run E cmd).
Hypothesis Hrmtree :
  dry = true \/
  forall acc, steady P (shutil_rmtree E (tmp_dir ++ py "/" ++ acc)) /\
              steady P (shutil_rmtree E (sra_dir ++ py "/" ++ acc)).

Lemma run_command_steady cmd : steady P (run_command E cmd dry).
Proof.
  unfold run_command. apply steady_bind; [apply Hprint|intros _].
  destruct dry; [apply steady_ret|].
  destruct Htool as [?|Ht]; [done|].
  apply steady_bind; [apply Ht|intros p].
  destruct (negb _); [apply steady_raise|apply steady_ret].
Qed.

Lemma safe_rmtree_steady path :
  dry = true \/ steady P (shutil_rmtree E path) ->
  steady P (safe_rmtree E path dry).
Proof.
  intros Hrm. unfold safe_rmtree.
  apply steady_bind; [apply Hexists|intros present].
  destruct (negb present); [apply steady_ret|].
  apply steady_bind; [apply Hprint|intros _].
  destruct dry; [apply steady_ret|]. by destruct Hrm.
Qed.

Lemma append_log_steady acc status msg :
  steady P (append_log E log_path acc status msg).
Proof.
  unfold append_log, Path_mkdir.
  apply steady_bind; [apply Hnow|intros t]. cbv zeta.
  apply steady_bind; [apply Hmkdir|intros _]. apply Happend.
Qed.

Lemma is_done_steady self acc : steady P (is_done E self acc).
Proof.
  assert (Hne : forall p, steady P (exists_nonempty E p)).
  { intros p. unfold exists_nonempty.
    apply steady_bind; [apply Hexists|intros present].
    destruct present; [|apply steady_ret].
    apply steady_bind; [apply Hgetsize|intros size; apply steady_ret]. }
  unfold is_done. cbv zeta. apply steady_bind; [apply Hne|intros c1].
  destruct c1; [apply steady_ret|].
  apply steady_bind; [apply Hne|intros c2].
  destruct c2; apply steady_ret.
Qed.

Lemma process_one_accession_steady
    acc out_dir threads delete_tmp delete_sra :
  steady P
    (process_one_accession E acc out_dir tmp_dir sra_dir threads dry
       delete_tmp delete_sra log_path).
Proof.
  unfold process_one_accession. cbv zeta.
  apply steady_bind; [apply is_done_steady|intros done].
  destruct done.
  { apply steady_bind; [apply append_log_steady|intros _].
    apply steady_ret. }
  apply steady_try.
  - apply steady_bind.
    { unfold prefetch_one. cbn [dry_run].
      apply steady_bind; [apply run_command_steady|intros _]. apply Hprint. }
    intros _. apply steady_bind.
    { unfold fasterq_dump_one, os_makedirs. cbv zeta. cbn [dry_run].
      apply steady_bind; [apply Hmkdir|intros _].
      apply steady_bind; [apply Hmkdir|intros _].
      apply steady_bind; [apply Hexists|intros present].
      destruct (_ && _); [apply steady_raise|].
      apply steady_bind; [apply run_command_steady|intros _]. apply Hprint. }
    intros _.
    apply steady_bind.
    { destruct delete_tmp; [|apply steady_ret].
      apply safe_rmtree_steady. destruct Hrmtree as [?|Hrm]; [by left|right].
      apply Hrm. }
    intros _. apply steady_bind.
    { destruct delete_sra; [|apply steady_ret].
      apply safe_rmtree_steady. destruct Hrmtree as [?|Hrm]; [by left|right].
      apply Hrm. }
    intros _.
    apply steady_bind; [apply append_log_steady|intros _]. apply steady_ret.
  - intros e. apply steady_bind; [apply append_log_steady|intros _].
    apply steady_ret.
Qed.

End SteadyPipeline.

Lemma collect_preserves (P : World -> Prop) futures ok failed :
  (forall line, preserves P (print line)) ->
  preserves P (collect futures ok failed).
Proof.
  intros Hprint. revert ok failed.
  induction futures as [|[[[acc success] msg]|e] futures IH];
    intros ok failed; cbn [collect].
  - apply preserves_ret.
  - destruct success; (apply preserves_bind; [apply Hprint|intros _; apply IH]).
  - apply preserves_raise.
Qed.

(** What the steps of the pipelines and the printing keep, a run of
    [main] keeps, under every schedule. *)
Lemma main_runs_keeps U E cfg (P : World -> Prop) w r w' :
  main_runs U E cfg w r w' ->
  (forall line, steady P (print line)) ->
  (forall acc, steady P (submit E cfg acc)) ->
  P w -> P w'.
Proof.
  intros Hrun Hprint Hsubmit Hw.
  assert (Hp : forall line, preserves P (print line)).
  { intros line. apply steady_preserves, Hprint. }
  assert (Hprep : forall tokens w0 new_list w1,
            run (read_accessions U (test_path cfg)) w = (Ok tokens, w0) ->
            run (validate_loop U tokens []) w0 = (Ok new_list, w1) ->
            P w1).
  { intros tokens w0 new_list w1 Hread Hval.
    rewrite read_accessions_run in Hread. injection Hread as _ <-.
    rewrite validate_loop_run in Hval. injection Hval as _ <-.
    generalize (map (verdict_line U) (map (normalize U) tokens)).
    intros lines. induction lines as [|line lines IH] using rev_ind.
    - by rewrite printed_nil.
    - rewrite <- printed_app. specialize (Hp line _ IH).
      by rewrite run_print in Hp. }
  inversion Hrun as [e w1 Hread
                    |tokens w0 new_list w1 r0 w0' Hread Hval Hnil Hpr
                    |tokens w0 new_list w1 Hread Hval Hne Hjobs
                    |tokens w0 new_list w1 p r0 w0' Hread Hval Hne Hpool
                       Hrep]; subst.
  - rewrite read_accessions_run in Hread. by injection Hread as _ <-.
  - pose proof (Hp (py "No accessions found") _ (Hprep _ _ _ _ Hread Hval))
      as H. by rewrite Hpr in H.
  - by eapply Hprep.
  - destruct Hpool as [Hsteps _].
    assert (Hpw : P (pool_world p)).
    { eapply pool_keeps; [by eapply Hprep| |exact Hsteps].
      apply Forall_fmap, Forall_forall. intros a _. apply Hsubmit. }
    assert (Hr : preserves P (report (dedup_preserve_order new_list)
                                (futures_of p))).
    { unfold report. apply preserves_bind;
        [by apply collect_preserves|intros tally; apply Hp]. }
    specialize (Hr _ Hpw). by rewrite Hrep in Hr.
Qed.




(** ** The dry run *)

Lemma exists_keeps_spawned p : keeps spawned (os_path_exists p).
Proof. by apply keeps_atomic. Qed.

Lemma getsize_keeps_spawned E p : keeps spawned (os_path_getsize E p).
Proof. keeps_prim. Qed.

(** X19.  A dry run of [main] starts no sub-process at all, whatever
    the accession file holds, under every schedule of the pool and
    however the run ends. *)
Theorem main_dry_run_spawns_nothing (U : UCD) (E : Env) (cfg : Config)
    (w : World) (r : result unit) (w' : World) :
  main_runs U E cfg w r w' ->
  cfg_dry_run cfg = true ->
  spawned w' = spawned w.
Proof.
  intros Hrun Hdry.
  apply (main_runs_keeps U E cfg (fun w0 => spawned w0 = spawned w) w r w'
           Hrun); [| |done].
  - intros line. apply keeps_steady, print_keeps_spawned.
  - intros acc. unfold submit. rewrite Hdry.
    apply process_one_accession_steady; try by left.
    + intros line. apply keeps_steady, print_keeps_spawned.
    + apply keeps_steady, now_keeps_spawned.
    + intros p. apply keeps_steady, exists_keeps_spawned.
    + intros p. apply keeps_steady, getsize_keeps_spawned.
    + intros leaf p. apply keeps_steady, mkdir_keeps_spawned.
    + intros text. apply keeps_steady, append_keeps_spawned.
Qed.

Lemma main_dry_run_spawns_nothing_witness :
  let text := py "SRR1" ++ [LF] ++ py "SRR2" ++ [LF] in
  let w := set_fs (<[py "/acc.txt" := File text]> (fs w_done)) w_done in
  let cfg := mkConfig (py "/acc.txt") (py "/out") (py "/tmp") (py "/sra")
                      (py "/log") true true 2%nat 2%Z true in
  let exec := run (main_with ucd_sample env_failing cfg) w in
  spawned (snd exec) = [] /\
  last (console (snd exec))
  = Some (py "Done. Successful: 2, Failed: 0, Total: 2") /\
  length (appended (snd exec)) = 2%nat.
Proof.
  intros text w cfg exec. split; [|by vm_compute].
  apply (main_dry_run_spawns_nothing ucd_sample env_failing cfg w (fst exec)
           (snd exec)); [apply main_with_runs|done].
Defined.
